(** * AHDBapp web backend (cmd/ahdbweb/main.go): aggregation and statistics

    A shallow embedding of the statistics engine of [cmd/ahdbweb/main.go]:
    [medianSorted], [trimSorted], [scanAccumulator.point], [makeHistogram]
    and the row loop of [handleSeries].

    - Go [int64] and [int] (64 bit) values are [Z] with the two's complement
      wrap-around written out ([Int64.wrap]).
    - Go [float64] values are Rocq's primitive binary64 floats ([PrimFloat]):
      every operation is rounded on its own (round to nearest, ties to even),
      as the Go compiler emits it on amd64.
    - Go slices are lists; [len] is the length as an integer.  A length is
      below [2^63], so the arithmetic on lengths and indices ([n/2], [n%2],
      [n-1], [i+1]) cannot wrap and is written on [Z] directly, with
      [Z.quot] and [Z.rem] for Go's truncating [/] and [%].
    - Limits of memory (a [make] of an enormous length) are outside the
      model. *)

From Stdlib Require Import ZArith List Lia Bool Floats Uint63 Permutation Sorted.
From Stdlib Require Import Reals Lra.
Import ListNotations.
Local Open Scope Z_scope.

(** ** Machine integers *)

Module Int64.

Definition min_int : Z := - 2 ^ 63.
Definition max_int : Z := 2 ^ 63 - 1.

(** The value of a 64 bit two's complement word. *)
Definition wrap (z : Z) : Z := (z + 2 ^ 63) mod 2 ^ 64 - 2 ^ 63.

Definition add (a b : Z) : Z := wrap (a + b).
Definition sub (a b : Z) : Z := wrap (a - b).
Definition mul (a b : Z) : Z := wrap (a * b).

(** Go's [/] and [%] on integers truncate toward zero. *)
Definition quot (a b : Z) : Z := wrap (Z.quot a b).
Definition rem (a b : Z) : Z := Z.rem a b.

Definition in_range (z : Z) : Prop := min_int <= z <= max_int.

End Int64.

(** ** Slices *)

Definition len {A : Type} (l : list A) : Z := Z.of_nat (length l).

(** [index l i] is [l[i]]; Go panics outside [0 <= i < len l], the model
    yields the default there. *)
Definition index (l : list Z) (i : Z) : Z := nth (Z.to_nat i) l 0.

(** [slice l lo hi] is [l[lo:hi]].  Go panics unless [0 <= lo <= hi <= cap l];
    the model clamps. *)
Definition slice {A : Type} (l : list A) (lo hi : Z) : list A :=
  firstn (Z.to_nat (hi - lo)) (skipn (Z.to_nat lo) l).

(** ** Floating point conversions *)

Module Float64.

(** [float64(x)] for an integer [x] in the int64 range: the nearest
    binary64 value. *)
Definition of_int (z : Z) : float :=
  if z =? Int64.min_int then (- (of_uint63 (Uint63.of_Z (2 ^ 62)) * 2))%float
  else if z <? 0 then (- of_uint63 (Uint63.of_Z (- z)))%float
  else of_uint63 (Uint63.of_Z z).

(** The integer part of a finite float, rounded toward minus infinity. *)
Definition floorZ (x : spec_float) : option Z :=
  match x with
  | S754_zero _ => Some 0
  | S754_finite s m e =>
      let v := if s then Z.neg m else Z.pos m in
      Some (if 0 <=? e then v * 2 ^ e else v / 2 ^ (- e))
  | _ => None
  end.

(** The integer part of a finite float, rounded toward zero. *)
Definition truncZ (x : spec_float) : option Z :=
  match x with
  | S754_zero _ => Some 0
  | S754_finite s m e =>
      let v := if s then Z.neg m else Z.pos m in
      Some (if 0 <=? e then v * 2 ^ e else Z.quot v (2 ^ (- e)))
  | _ => None
  end.

(** [math.Floor]: infinities, NaN and the zeros are returned unchanged. *)
Definition Floor (f : float) : float :=
  match Prim2SF f with
  | S754_finite s m e =>
      if 0 <=? e then f
      else match floorZ (S754_finite s m e) with
           | Some 0 => zero
           | Some j => of_int j
           | None => f
           end
  | _ => f
  end.

(** [int(f)] (64 bit): truncation toward zero.  The Go specification
    leaves the result open when the value does not fit; amd64 yields
    the smallest integer, and so does the model. *)
Definition to_int (f : float) : Z :=
  match truncZ (Prim2SF f) with
  | Some j => if (Int64.min_int <=? j) && (j <=? Int64.max_int) then j
              else Int64.min_int
  | None => Int64.min_int
  end.

Definition Sqrt (f : float) : float := PrimFloat.sqrt f.

End Float64.

(** ** Data model *)

Record seriesPoint : Type := {
  ScanID : Z;
  TS : Z;
  N : Z;
  Min : float;
  Q1 : float;
  Q3 : float;
  Max : float;
  Mean : float;
  Median : float;
  Stddev : float
}.

(** [seriesPoint{}]: the zero value. *)
Definition seriesPoint_zero : seriesPoint :=
  {| ScanID := 0; TS := 0; N := 0; Min := 0; Q1 := 0; Q3 := 0; Max := 0;
     Mean := 0; Median := 0; Stddev := 0 |}.

Record histogramBin : Type := {
  Lo : Z;
  Hi : Z;
  Count : Z
}.

Record scanAccumulator : Type := {
  scanID : Z;
  ts : Z;
  prices : list Z
}.

(** One row of the series query: [(scanId, ts, price)]. *)
Record row : Type := {
  row_scanID : Z;
  row_ts : Z;
  row_price : Z
}.

(** ** medianSorted *)

Definition medianSorted (values : list Z) : float :=
  let n := len values in
  if n =? 0 then 0%float
  else if Z.rem n 2 =? 1 then Float64.of_int (index values (Z.quot n 2))
  else
    let lo := index values (Z.quot n 2 - 1) in
    let hi := index values (Z.quot n 2) in
    (Float64.of_int (Int64.add lo hi) / 2)%float.

(** ** The accumulator *)

Definition reset (a : scanAccumulator) (id t : Z) : scanAccumulator :=
  {| scanID := id; ts := t; prices := slice (prices a) 0 0 |}.

Definition add (a : scanAccumulator) (price : Z) : scanAccumulator :=
  {| scanID := scanID a; ts := ts a; prices := prices a ++ [price] |}.

(** ** trimSorted *)

(** [int(math.Floor(float64(n) * (float64(trimPct) / 100.0)))] *)
Definition trimCount (n trimPct : Z) : Z :=
  Float64.to_int
    (Float64.Floor (Float64.of_int n * (Float64.of_int trimPct / 100))%float).

Definition trimSorted (values : list Z) (trimPct : Z) : list Z :=
  if trimPct <=? 0 then values
  else
    let n := len values in
    if n =? 0 then values
    else
      let trim := trimCount n trimPct in
      let maxTrim := Z.quot (n - 1) 2 in
      let trim := if trim >? maxTrim then maxTrim else trim in
      slice values trim (n - trim).

(** Go checks the bounds of [values[trim : n-trim]] and panics unless
    [0 <= trim <= n-trim <= cap(values)]; [trimSorted] clamps there.  After
    the clamp to [maxTrim] the upper bounds hold, so the call panics when
    [trim] is negative, which [int(...)] yields when the product does not
    fit 64 bits (a huge percentage).  [trimSorted_panics] is that check:
    where it is [false], [trimSorted] is what the program returns. *)
Definition trimSorted_panics (values : list Z) (trimPct : Z) : bool :=
  if trimPct <=? 0 then false
  else
    let n := len values in
    if n =? 0 then false
    else
      let trim := trimCount n trimPct in
      let maxTrim := Z.quot (n - 1) 2 in
      let trim := if trim >? maxTrim then maxTrim else trim in
      negb ((0 <=? trim) && (trim <=? n - trim)).

(** ** The running mean and second moment

    The loop of [point] is written once over the arithmetic it uses, so
    that it can be run on binary64 floats (what the program does) and on
    real numbers (what the loop computes when nothing is rounded). *)

Record arith (F : Type) : Type := {
  a_zero : F;
  a_of_int : Z -> F;
  a_add : F -> F -> F;
  a_sub : F -> F -> F;
  a_mul : F -> F -> F;
  a_div : F -> F -> F
}.

Arguments a_zero {F}.
Arguments a_of_int {F}.
Arguments a_add {F}.
Arguments a_sub {F}.
Arguments a_mul {F}.
Arguments a_div {F}.

Section MeanLoop.
Variable F : Type.
Variable A : arith F.

(** The body of [for i := range prices], on the pair [(mean, m2)]. *)
Definition meanStep (i : Z) (p : Z) (st : F * F) : F * F :=
  let '(mean, m2) := st in
  let x := a_of_int A p in
  let delta := a_sub A x mean in
  let mean := a_add A mean (a_div A delta (a_of_int A (i + 1))) in
  let delta2 := a_sub A x mean in
  let m2 := a_add A m2 (a_mul A delta delta2) in
  (mean, m2).

Fixpoint meanLoopFrom (i : Z) (ps : list Z) (st : F * F) : F * F :=
  match ps with
  | [] => st
  | p :: ps' => meanLoopFrom (i + 1) ps' (meanStep i p st)
  end.

Definition meanLoop (ps : list Z) : F * F :=
  meanLoopFrom 0 ps (a_zero A, a_zero A).
End MeanLoop.

Arguments meanStep {F}.
Arguments meanLoopFrom {F}.
Arguments meanLoop {F}.

Definition binary64 : arith float :=
  {| a_zero := 0%float; a_of_int := Float64.of_int;
     a_add := PrimFloat.add; a_sub := PrimFloat.sub;
     a_mul := PrimFloat.mul; a_div := PrimFloat.div |}.

Definition exact : arith R :=
  {| a_zero := 0%R; a_of_int := IZR;
     a_add := Rplus; a_sub := Rminus;
     a_mul := Rmult; a_div := Rdiv |}.

(** ** point *)

Definition point (a : scanAccumulator) (trimPct : Z) : seriesPoint :=
  if len (prices a) =? 0 then seriesPoint_zero
  else
    let prices := trimSorted (prices a) trimPct in
    let n := len prices in
    if n =? 0 then seriesPoint_zero
    else
      let '(mean, m2) := meanLoop binary64 prices in
      let minV := Float64.of_int (index prices 0) in
      let maxV := Float64.of_int (index prices (n - 1)) in
      let median := medianSorted prices in
      let '(q1, q3) :=
        if n >? 1 then
          let '(lower, upper) :=
            if Z.rem n 2 =? 0
            then (slice prices 0 (Z.quot n 2),
                  slice prices (Z.quot n 2) n)
            else (slice prices 0 (Z.quot n 2),
                  slice prices (Z.quot n 2 + 1) n) in
          (if len lower >? 0 then medianSorted lower else median,
           if len upper >? 0 then medianSorted upper else median)
        else (median, median) in
      let variance :=
        if n >? 0 then (m2 / Float64.of_int n)%float else 0%float in
      {| ScanID := scanID a; TS := ts a; N := n;
         Min := minV; Q1 := q1; Q3 := q3; Max := maxV;
         Mean := mean; Median := median;
         Stddev := Float64.Sqrt variance |}.

(** ** makeHistogram *)

(** [l[i] = f(l[i])]; Go panics outside the slice, the model leaves the
    list unchanged there. *)
Fixpoint update {A : Type} (l : list A) (i : nat) (f : A -> A) : list A :=
  match l, i with
  | [], _ => []
  | x :: l', O => f x :: l'
  | x :: l', S i' => x :: update l' i' f
  end.

(** The integers [0, 1, ..., n-1] of a counting loop. *)
Definition upto (n : Z) : list Z := map Z.of_nat (seq 0 (Z.to_nat n)).

Definition incrCount (b : histogramBin) : histogramBin :=
  {| Lo := Lo b; Hi := Hi b; Count := Count b + 1 |}.

(** The bin width chosen for the prices between [min] and [max]. *)
Definition binWidth (min max bins : Z) : Z :=
  let rng := Int64.sub max min in
  let width := Int64.quot rng bins in
  let width := if negb (Int64.rem rng bins =? 0) then Int64.add width 1 else width in
  if width <? 1 then 1 else width.

(** The bin a price is counted in. *)
Definition binIndex (min width bins p : Z) : Z :=
  let idx := Int64.quot (Int64.sub p min) width in
  let idx := if idx <? 0 then 0 else idx in
  if idx >=? bins then bins - 1 else idx.

Definition makeHistogram (sortedPrices : list Z) (bins : Z)
  : Z * Z * list histogramBin :=
  let n := len sortedPrices in
  if n =? 0 then (0, 0, [])
  else
    let min := index sortedPrices 0 in
    let max := index sortedPrices (n - 1) in
    if min =? max then (min, max, [ {| Lo := min; Hi := max; Count := n |} ])
    else
      let bins := if bins <=? 0 then 24 else bins in
      let width := binWidth min max bins in
      let res := repeat {| Lo := 0; Hi := 0; Count := 0 |} (Z.to_nat bins) in
      let res :=
        fold_left (fun res i =>
                     let lo := Int64.add min (Int64.mul i width) in
                     let hi := Int64.add lo width in
                     update res (Z.to_nat i)
                       (fun _ => {| Lo := lo; Hi := hi; Count := 0 |}))
                  (upto bins) res in
      let res :=
        fold_left (fun res p =>
                     update res (Z.to_nat (binIndex min width bins p)) incrCount)
                  sortedPrices res in
      (min, max, res).

(** ** handleSeries: the row loop, the sort and the truncation

    The rows are what [rows.Next] and [rows.Scan] deliver, in order.  A
    failing scan or a row error ends the request with an error response and
    no points; the model is the run in which the row source succeeds. *)

Record seriesState : Type := {
  points : list seriesPoint;
  acc : scanAccumulator;
  curScanID : Z;
  curTS : Z
}.

Definition seriesInit : seriesState :=
  {| points := [];
     acc := {| scanID := 0; ts := 0; prices := [] |};
     curScanID := -1;
     curTS := 0 |}.

(** The body of [for rows.Next()]. *)
Definition rowStep (trimPct : Z) (st : seriesState) (r : row) : seriesState :=
  let st :=
    if curScanID st =? -1 then
      {| points := points st;
         acc := reset (acc st) (row_scanID r) (row_ts r);
         curScanID := row_scanID r;
         curTS := row_ts r |}
    else st in
  let st :=
    if negb (row_scanID r =? curScanID st) then
      {| points := points st ++ [point (acc st) trimPct];
         acc := reset (acc st) (row_scanID r) (row_ts r);
         curScanID := row_scanID r;
         curTS := row_ts r |}
    else st in
  let st :=
    if negb (row_ts r =? curTS st) then
      {| points := points st;
         acc := {| scanID := scanID (acc st); ts := row_ts r;
                   prices := prices (acc st) |};
         curScanID := curScanID st;
         curTS := row_ts r |}
    else st in
  {| points := points st;
     acc := add (acc st) (row_price r);
     curScanID := curScanID st;
     curTS := curTS st |}.

(** The points appended by the loop and by the final flush, before the
    sort. *)
Definition collectPoints (rows : list row) (trimPct : Z) : list seriesPoint :=
  let st := fold_left (rowStep trimPct) rows seriesInit in
  if len (prices (acc st)) >? 0
  then points st ++ [point (acc st) trimPct]
  else points st.

(** [less] of the call to [sort.Slice]. *)
Definition lessTS (a b : seriesPoint) : bool := TS a <? TS b.

Section Series.
(** [sort.Slice] is Go's library sort: it permutes the slice so that it
    is ordered by [less], and promises no more (it is not stable). *)
Variable sortSlice :
  (seriesPoint -> seriesPoint -> bool) -> list seriesPoint -> list seriesPoint.

Definition seriesPoints (rows : list row) (trimPct maxPoints : Z)
  : list seriesPoint :=
  let points := collectPoints rows trimPct in
  let points := sortSlice lessTS points in
  if len points >? maxPoints
  then slice points (len points - maxPoints) (len points)
  else points.
End Series.

(** ** handleHistogram: trimming, then the histogram *)

Definition histogramOf (prices : list Z) (trimPct bins : Z)
  : Z * Z * Z * list histogramBin :=
  let prices := trimSorted prices trimPct in
  let '(minV, maxV, hbins) := makeHistogram prices bins in
  (len prices, minV, maxV, hbins).

(** ** Vocabulary of the statements *)

(** The sum of the counts of a list of bins. *)
Definition sumCounts (bs : list histogramBin) : Z :=
  fold_right (fun b s => Count b + s) 0 bs.

(** How many elements of [l] satisfy [f]. *)
Definition countIf (f : Z -> bool) (l : list Z) : Z := len (filter f l).

(** The quotient rounded toward plus infinity. *)
Definition ceilDiv (a b : Z) : Z := - ((- a) / b).

Definition clamp (lo hi x : Z) : Z := Z.max lo (Z.min hi x).

Definition zeroBin : histogramBin := {| Lo := 0; Hi := 0; Count := 0 |}.

(** The bin count [makeHistogram] works with. *)
Definition binsUsed (bins : Z) : Z := if bins <=? 0 then 24 else bins.

(** Prices are taken to be sorted in the [<=] order. *)
Definition sorted (l : list Z) : Prop := Sorted Z.le l.

(** A range in which sums and differences of two values cannot wrap. *)
Definition halfRange (p : Z) : Prop := - 2 ^ 62 <= p < 2 ^ 62.

(** The rows of a stream split into maximal runs of one [scanId]. *)
Fixpoint groupRows (rows : list row) : list (list row) :=
  match rows with
  | [] => []
  | r :: rows' =>
      match groupRows rows' with
      | (r' :: g) :: gs =>
          if row_scanID r =? row_scanID r'
          then (r :: r' :: g) :: gs
          else [r] :: (r' :: g) :: gs
      | _ => [[r]]
      end
  end.

(** All rows of [g] belong to the scan [c]. *)
Definition sameScan (c : Z) (g : list row) : Prop :=
  Forall (fun r => row_scanID r = c) g.

(** The point of one run: its [scanId], the timestamp of its last row, its
    prices in order. *)
Definition reduceGroup (trimPct : Z) (g : list row) : seriesPoint :=
  match g with
  | [] => seriesPoint_zero
  | r :: _ =>
      point {| scanID := row_scanID r;
               ts := row_ts (last g r);
               prices := map row_price g |} trimPct
  end.

(** What the loop of [handleSeries] leaves behind: the state and the
    flush after the last row. *)
Definition flush (trimPct : Z) (st : seriesState) : list seriesPoint :=
  if len (prices (acc st)) >? 0
  then points st ++ [point (acc st) trimPct]
  else points st.

(** The state in which the rows [g] of one scan are open. *)
Definition openScan (pts : list seriesPoint) (r : row) (g : list row) : seriesState :=
  {| points := pts;
     acc := {| scanID := row_scanID r;
               ts := row_ts (last g r);
               prices := map row_price g |};
     curScanID := row_scanID r;
     curTS := row_ts (last g r) |}.

(** Ordered by timestamp, as [sort.Slice] with [lessTS] leaves a slice:
    no element is less than an earlier one. *)
Definition sortedByTS (l : list seriesPoint) : Prop :=
  StronglySorted (fun a b => lessTS b a = false) l.

(** A sort to run the series on: insertion from the right. *)
Fixpoint insertPoint (less : seriesPoint -> seriesPoint -> bool)
         (x : seriesPoint) (l : list seriesPoint) : list seriesPoint :=
  match l with
  | [] => [x]
  | y :: l' => if less x y then x :: l else y :: insertPoint less x l'
  end.

Definition insertionSort (less : seriesPoint -> seriesPoint -> bool)
         (l : list seriesPoint) : list seriesPoint :=
  fold_right (insertPoint less) [] l.

(** The invariant of the row loop: every point appended so far has a
    positive count, and the accumulator is empty only while no scan is
    open. *)
Definition rowInv (st : seriesState) : Prop :=
  Forall (fun p => 1 <= N p) (points st) /\
  (prices (acc st) = [] -> curScanID st = -1).

(** The rows of the scenario of the specification. *)
Definition exampleRows : list row :=
  [ {| row_scanID := 1; row_ts := 100; row_price := 10 |};
    {| row_scanID := 1; row_ts := 100; row_price := 20 |};
    {| row_scanID := 1; row_ts := 100; row_price := 30 |};
    {| row_scanID := 2; row_ts := 200; row_price := 5 |} ].


(** ** Reading binary64 values

    Every finite binary64 number is an integer multiple of [2^-1074], the
    least positive one. *)

(** The multiple of [2^-1074] that a finite number is. *)
Definition scaled (x : spec_float) : Z :=
  match x with
  | S754_finite s m e => (if s then Z.neg m else Z.pos m) * 2 ^ (e + 1074)
  | _ => 0
  end.

(** The real number a float stands for (0 for infinities and NaN). *)
Definition toR (f : float) : R := (IZR (scaled (Prim2SF f)) / IZR (2 ^ 1074))%R.

(** Plus zero, or a normal number with an exponent of at least [lo]. *)
Definition normalOrZero (lo : Z) (x : spec_float) : Prop :=
  match x with
  | S754_zero s => s = false
  | S754_finite _ m e => digits2_pos m = 53%positive /\ lo <= e <= 900
  | _ => False
  end.

(** [x] is the number [t / 2]. *)
Definition halves (lo : Z) (x : spec_float) (t : Z) : Prop :=
  normalOrZero lo x /\ scaled x = t * 2 ^ 1073.

(** Prices whose sums of two are converted to [float64] without
    rounding. *)
Definition exactRange (p : Z) : Prop := - 2 ^ 52 <= p <= 2 ^ 52.

(** ** Rounding an integer to 53 binary digits

    [roundAt k z] drops the last [k] digits of [z >= 0] and rounds to the
    nearest multiple of [2^k], a tie to the even one. *)
Definition roundAt (k z : Z) : Z :=
  let q := z / 2 ^ k in
  let r := z mod 2 ^ k in
  (if (2 ^ k <? 2 * r) || ((2 * r =? 2 ^ k) && Z.odd q) then q + 1 else q) * 2 ^ k.

(** A non-negative integer rounded to 53 significant digits. *)
Definition roundPos (z : Z) : Z := roundAt (Z.max 0 (Z.log2 z - 52)) z.

(** An integer rounded to 53 significant digits: the value of its
    conversion to [float64]. *)
Definition round53 (z : Z) : Z :=
  if z <? 0 then - roundPos (- z) else roundPos z.

(** Twice the median of a sorted list: twice the middle element, or the
    sum of the two middle elements. *)
Definition twiceMedian (l : list Z) : Z :=
  let n := len l in
  if n =? 0 then 0
  else if Z.odd n then 2 * index l (n / 2)
  else index l (n / 2 - 1) + index l (n / 2).

(** ** Percentages

    What is checked of [float64(p) / 100.0] for each percentage [p]: a
    positive normal number with an exponent between [-59] and [-52], that
    is, a value from [2^-7] up to, and below, [2]. *)
Definition pctOk (f : float) : bool :=
  match Prim2SF f with
  | S754_finite false m e =>
      (Z.pos (digits2_pos m) =? 53) && (-59 <=? e) && (e <=? -52)
  | _ => false
  end.

(** ** Mean and variance as the specification has them, on the reals *)

Definition sumR (l : list Z) : R := fold_right (fun p s => (IZR p + s)%R) 0%R l.

(** The arithmetic mean: the sum of the values divided by their number. *)
Definition meanR (l : list Z) : R := (sumR l / IZR (len l))%R.

(** The sum of the squared deviations from [c]. *)
Definition sqDevR (c : R) (l : list Z) : R :=
  fold_right (fun p s => ((IZR p - c) * (IZR p - c) + s)%R) 0%R l.

(** The population variance: the squared deviations from the mean, summed
    and divided by [n]. *)
Definition varianceR (l : list Z) : R := (sqDevR (meanR l) l / IZR (len l))%R.

Definition sumSqR (l : list Z) : R :=
  fold_right (fun p s => (IZR p * IZR p + s)%R) 0%R l.

(** ** Reading the results of binary64 operations *)

(** A zero or a finite number that binary64 holds. *)
Definition finiteSF (x : spec_float) : Prop :=
  match x with
  | S754_zero _ => True
  | S754_finite _ m e => SpecFloat.bounded prec emax m e = true
  | _ => False
  end.

(** Neither negative nor NaN: a zero, a positive number or plus
    infinity. *)
Definition nonnegSF (x : spec_float) : Prop :=
  match x with
  | S754_zero _ => True
  | S754_finite s _ _ => s = false
  | S754_infinity s => s = false
  | S754_nan => False
  end.

(** [y], a multiple of [2^-1074], is a binary64 number. *)
Definition representable (y : Z) : Prop :=
  exists x, finiteSF x /\ scaled x = y.

(** [z] is a rounding of the quotient [a / b]: no binary64 number lies
    between the quotient and [z]. *)
Definition roundedQ (a b z : Z) : Prop :=
  forall y, representable y ->
    (y * b <= a -> y <= z) /\ (a <= y * b -> z <= y).

(** A zero, a finite number or an infinity of the sign [s]. *)
Definition signedSF (s : bool) (x : spec_float) : Prop :=
  match x with
  | S754_zero s' => s' = s
  | S754_finite s' _ _ => s' = s
  | S754_infinity s' => s' = s
  | S754_nan => False
  end.

(** The invariant of the loop of [point] on binary64, before the price
    of index [i]: the running mean is a finite number, zero before the
    first price and from then on between [lo] and [hi] (multiples of
    [2^-1074]); the second moment is not negative. *)
Definition meanInv (lo hi i : Z) (st : float * float) : Prop :=
  finiteSF (Prim2SF (fst st)) /\ nonnegSF (Prim2SF (snd st)) /\
  (if i =? 0 then scaled (Prim2SF (fst st)) = 0
   else lo <= scaled (Prim2SF (fst st)) <= hi).

(** ** Vocabulary of the series loop *)

(** The [scanId] a run of rows starts with. *)
Definition headID (g : list row) : Z :=
  match g with
  | r :: _ => row_scanID r
  | [] => 0
  end.

(** The prices counted by a list of points. *)
Definition sumN (pts : list seriesPoint) : Z :=
  fold_right (fun p s => N p + s) 0 pts.

(** * The request layer

    The rest of [cmd/ahdbweb/main.go]: the configuration of the database
    connection, the query parameters and the four handlers.

    - Go strings are sequences of bytes: [String.string].
    - A function that returns [(T, error)] returns a [result T]; the error
      is its message.
    - The functions of Go's library that the code calls stay parameters:
      [strings.TrimSpace], [strconv.Atoi], [strconv.ParseInt] in base 10
      on 64 bits, the quoting of [fmt]'s [%q], [mysql.Config.FormatDSN] and
      [sort.Slice].  [strings.IndexByte], [strings.LastIndexByte], [len] and
      the slicing of strings are written out.
    - The database is what its queries answer: a [database] gives, for each
      statement of the handlers and its arguments, the error or the rows.
      A query that is cancelled or runs out of time answers with an
      error.
    - A request is its method and its query parameters; the clock is an
      argument; a response is the status and the value handed to
      [writeJSON]. *)

From Stdlib Require Ascii String.
Import (notations) Stdlib.Strings.Ascii.
Import (notations) Stdlib.Strings.String.

(** ** Strings *)

Module strings.

(** [strings.IndexByte]: the index of the first [c] in [s], or -1. *)
Fixpoint IndexByte (s : String.string) (c : Ascii.ascii) : Z :=
  match s with
  | String.EmptyString => -1
  | String.String a s' =>
      if Ascii.eqb a c then 0
      else let i := IndexByte s' c in if i <? 0 then -1 else 1 + i
  end.

(** [strings.LastIndexByte]: the index of the last [c] in [s], or -1. *)
Fixpoint LastIndexByte (s : String.string) (c : Ascii.ascii) : Z :=
  match s with
  | String.EmptyString => -1
  | String.String a s' =>
      let i := LastIndexByte s' c in
      if 0 <=? i then 1 + i else if Ascii.eqb a c then 0 else -1
  end.

End strings.

(** [len(s)], in bytes. *)
Definition strlen (s : String.string) : Z := Z.of_nat (String.length s).

(** [s[lo:hi]].  Go panics unless [0 <= lo <= hi <= len(s)]; the model
    clamps. *)
Definition substr (s : String.string) (lo hi : Z) : String.string :=
  String.substring (Z.to_nat lo) (Z.to_nat (hi - lo)) s.

(** ** Results and errors *)

Inductive result (A : Type) : Type :=
| Ok (v : A)
| Err (msg : String.string).

Arguments Ok {A} v.
Arguments Err {A} msg.

(** ** Requests and responses *)

(** [url.Values]: the values of each key, none for a key that is absent. *)
Definition Values : Type := String.string -> list String.string.

(** [Values.Get]: the first value of the key, or the empty string. *)
Definition Get (v : Values) (key : String.string) : String.string :=
  match v key with
  | [] => ""%string
  | x :: _ => x
  end.

Record request : Type := {
  Method : String.string;
  URLQuery : Values
}.

Record realmFaction : Type := {
  Realm : String.string;
  Faction : String.string
}.

Record item : Type := {
  ID : String.string;
  Name : String.string;
  ShortID : Z
}.

Module seriesResponse.
Record t : Type := {
  Item : item;
  Realm : String.string;
  Faction : String.string;
  Unit : String.string;
  From : Z;
  To : Z;
  TrimPct : Z;
  Points : list seriesPoint
}.
End seriesResponse.

Module histogramResponse.
Record t : Type := {
  ItemID : String.string;
  ScanID : Z;
  TS : Z;
  Unit : String.string;
  TrimPct : Z;
  N : Z;
  Min : Z;
  Max : Z;
  Bins : list histogramBin
}.
End histogramResponse.

(** The value handed to [writeJSON]. *)
Inductive body : Type :=
| errorResponse (Error : String.string)
| realmsBody (res : list realmFaction)
| itemsBody (res : list item)
| seriesBody (res : seriesResponse.t)
| histogramBody (res : histogramResponse.t).

Record response : Type := {
  status : Z;
  payload : body
}.

Module http.
Definition MethodGet : String.string := "GET"%string.
Definition StatusOK : Z := 200.
Definition StatusBadRequest : Z := 400.
Definition StatusNotFound : Z := 404.
Definition StatusMethodNotAllowed : Z := 405.
Definition StatusInternalServerError : Z := 500.
End http.

Definition writeJSON (status : Z) (v : body) : response :=
  {| status := status; payload := v |}.

Definition writeError (status : Z) (msg : String.string) : response :=
  writeJSON status (errorResponse msg).

(** ** The database *)

(** One row of a result: what [rows.Scan] makes of it. *)
Inductive scanned (A : Type) : Type :=
| Scanned (v : A)
| ScanError (msg : String.string).

Arguments Scanned {A} v.
Arguments ScanError {A} msg.

(** The rows of a query: those [rows.Next] delivers, in order, and the
    error [rows.Err] reports once [rows.Next] has returned false. *)
Record rowSource (A : Type) : Type := {
  delivered : list (scanned A);
  rowsErr : option String.string
}.

Arguments delivered {A} r.
Arguments rowsErr {A} r.

(** The outcome of [QueryRowContext(...).Scan] for one item. *)
Inductive lookup (A : Type) : Type :=
| Found (v : A)
| NoRows
| Failed (msg : String.string).

Arguments Found {A} v.
Arguments NoRows {A}.
Arguments Failed {A} msg.

(** The answers of the database to the statements of the handlers:
    the realms, the items whose name is like a pattern, the latest realm
    and faction, the item of an id, the rows of a series (price
    expression, item, realm, faction, from, to) and the rows of a
    histogram (price expression, scan, item). *)
Record database : Type := {
  queryRealms : result (rowSource realmFaction);
  queryItems : String.string -> result (rowSource item);
  queryDefaultRealmFaction : result realmFaction;
  queryItem : String.string -> lookup item;
  querySeries : String.string -> String.string -> String.string -> String.string ->
                Z -> Z -> result (rowSource row);
  queryHistogram : String.string -> Z -> String.string -> result (rowSource (Z * Z))
}.

(** [for rows.Next() { if err := rows.Scan(...); err != nil { return }
    body }]: the state after the last row, or the error of the first scan
    that fails. *)
Fixpoint forRows {A S : Type} (body : S -> A -> S) (rows : list (scanned A)) (st : S)
  : result S :=
  match rows with
  | [] => Ok st
  | Scanned v :: rows' => forRows body rows' (body st v)
  | ScanError msg :: _ => Err msg
  end.

(** The loop over the rows, then the check of [rows.Err]. *)
Definition scanRows {A S : Type} (body : S -> A -> S) (src : rowSource A) (st : S)
  : result S :=
  match forRows body (delivered src) st with
  | Err msg => Err msg
  | Ok st' =>
      match rowsErr src with
      | Some msg => Err msg
      | None => Ok st'
      end
  end.

(** ** Configuration *)

(** [os.Getenv] is the environment: the value of a variable, empty when
    it is not set. *)
Definition getenv (env : String.string -> String.string) (key fallback : String.string)
  : String.string :=
  let v := env key in
  if negb (String.eqb v "") then v else fallback.

(** The fields of [mysql.Config] that [mysqlDSN] sets; the durations in
    seconds. *)
Record mysqlConfig : Type := {
  User : String.string;
  Passwd : String.string;
  Net : String.string;
  Addr : String.string;
  DBName : String.string;
  Params : list (String.string * String.string);
  Timeout : Z;
  ReadTimeout : Z;
  WriteTimeout : Z
}.

(** The price expression the unit of a request stands for. *)
Definition priceExprOf (unit : String.string) : option String.string :=
  if String.eqb unit "per_item"
  then Some "CAST(ROUND(a.buyout / a.itemCount) AS SIGNED)"%string
  else if String.eqb unit "per_stack" then Some "a.buyout"%string
  else None.

Section Library.

(** [strings.TrimSpace]. *)
Variable TrimSpace : String.string -> String.string.
(** [strconv.Atoi]; [None] when it returns an error. *)
Variable Atoi : String.string -> option Z.
(** [strconv.ParseInt(_, 10, 64)]; [None] when it returns an error. *)
Variable ParseInt : String.string -> option Z.
(** The quoted string [fmt] writes for [%q]. *)
Variable Quote : String.string -> String.string.
(** [mysql.Config.FormatDSN], on a configuration that is
    [mysql.NewConfig()] but for the fields set. *)
Variable FormatDSN : mysqlConfig -> String.string.
(** [sort.Slice]. *)
Variable sortSlice :
  (seriesPoint -> seriesPoint -> bool) -> list seriesPoint -> list seriesPoint.

Definition parseConnectionInfo (s : String.string)
  : result (String.string * String.string) :=
  let s := TrimSpace s in
  if String.eqb s "" then Ok ("tcp"%string, ":3306"%string)
  else
    let open := strings.IndexByte s "("%char in
    let close := strings.LastIndexByte s ")"%char in
    if (open <? 0) || negb (close =? strlen s - 1) || (close <? open + 2)
    then Err ("invalid MYSQL_CONNECTION_INFO " ++ Quote s
              ++ " (expected e.g. tcp(:3306) or unix(/path/to.sock))")%string
    else
      let net := TrimSpace (substr s 0 open) in
      let addr := TrimSpace (substr s (open + 1) close) in
      if String.eqb net "" || String.eqb addr ""
      then Err ("invalid MYSQL_CONNECTION_INFO " ++ Quote s
                ++ " (empty net/addr)")%string
      else Ok (net, addr).

Definition mysqlDSN (env : String.string -> String.string) : result String.string :=
  let user := getenv env "MYSQL_USER" "root" in
  let passwd := env "MYSQL_PASSWORD"%string in
  let conn := getenv env "MYSQL_CONNECTION_INFO" "tcp(:3306)" in
  match parseConnectionInfo conn with
  | Err e => Err e
  | Ok (net, addr) =>
      Ok (FormatDSN
            {| User := user; Passwd := passwd; Net := net; Addr := addr;
               DBName := "ahdb";
               Params := [ ("charset", "utf8mb4"); ("parseTime", "true");
                           ("loc", "UTC") ]%string;
               Timeout := 5; ReadTimeout := 30; WriteTimeout := 30 |})
  end.

(** ** Query parameters *)

Definition parseIntParam (r : request) (key : String.string) (fallback : Z)
  : result Z :=
  let raw := TrimSpace (Get (URLQuery r) key) in
  if String.eqb raw "" then Ok fallback
  else
    match ParseInt raw with
    | None => Err ("invalid " ++ key)%string
    | Some v => Ok v
    end.

Definition parseMaxPointsParam (r : request) : result Z :=
  let raw := TrimSpace (Get (URLQuery r) "maxPoints") in
  if String.eqb raw "" then Ok 400
  else
    match Atoi raw with
    | None => Err "invalid maxPoints"
    | Some v =>
        if v <? 10 then Ok 10
        else if v >? 5000 then Ok 5000
        else Ok v
    end.

Definition parseTrimPctParam (r : request) : result Z :=
  let raw := TrimSpace (Get (URLQuery r) "trimPct") in
  let raw := if String.eqb raw "" then TrimSpace (Get (URLQuery r) "trim") else raw in
  if String.eqb raw "" then Ok 0
  else
    match Atoi raw with
    | None => Err "invalid trimPct"
    | Some v =>
        if (v <? 0) || (v >? 50) then Err "trimPct must be between 0 and 50"
        else if negb (Z.rem v 5 =? 0) then Err "trimPct must be a multiple of 5"
        else Ok v
    end.

Definition parseBinsParam (r : request) : result Z :=
  let raw := TrimSpace (Get (URLQuery r) "bins") in
  if String.eqb raw "" then Ok 24
  else
    match Atoi raw with
    | None => Err "invalid bins"
    | Some v =>
        if v <? 5 then Ok 5
        else if v >? 120 then Ok 120
        else Ok v
    end.

Definition parseScanIDParam (r : request) : result Z :=
  let raw := TrimSpace (Get (URLQuery r) "scanId") in
  if String.eqb raw "" then Err "missing scanId"
  else
    match ParseInt raw with
    | None => Err "invalid scanId"
    | Some v => if v <=? 0 then Err "invalid scanId" else Ok v
    end.

(** ** The handlers *)

Definition handleRealms (db : database) (r : request) : response :=
  if negb (String.eqb (Method r) http.MethodGet)
  then writeError http.StatusMethodNotAllowed "method not allowed"
  else
    match queryRealms db with
    | Err e => writeError http.StatusInternalServerError e
    | Ok rows =>
        match scanRows (fun res rf => res ++ [rf]) rows [] with
        | Err e => writeError http.StatusInternalServerError e
        | Ok res => writeJSON http.StatusOK (realmsBody res)
        end
    end.

Definition handleItems (db : database) (r : request) : response :=
  if negb (String.eqb (Method r) http.MethodGet)
  then writeError http.StatusMethodNotAllowed "method not allowed"
  else
    let q := TrimSpace (Get (URLQuery r) "q") in
    let q := if String.eqb q "" then TrimSpace (Get (URLQuery r) "query") else q in
    if strlen q <? 2 then writeJSON http.StatusOK (itemsBody [])
    else
      let q := if strlen q >? 64 then substr q 0 64 else q in
      match queryItems db ("%" ++ q ++ "%")%string with
      | Err e => writeError http.StatusInternalServerError e
      | Ok rows =>
          match scanRows (fun res it => res ++ [it]) rows [] with
          | Err e => writeError http.StatusInternalServerError e
          | Ok res => writeJSON http.StatusOK (itemsBody res)
          end
      end.

Definition defaultRealmFaction (db : database) : result realmFaction :=
  queryDefaultRealmFaction db.

Definition handleSeries (db : database) (now : Z) (r : request) : response :=
  if negb (String.eqb (Method r) http.MethodGet)
  then writeError http.StatusMethodNotAllowed "method not allowed"
  else
  let itemID := TrimSpace (Get (URLQuery r) "itemId") in
  if String.eqb itemID "" then writeError http.StatusBadRequest "missing itemId"
  else
  let unit := TrimSpace (Get (URLQuery r) "unit") in
  let unit := if String.eqb unit "" then "per_item"%string else unit in
  match priceExprOf unit with
  | None =>
      writeError http.StatusBadRequest "invalid unit (expected per_item or per_stack)"
  | Some priceExpr =>
  let realm := TrimSpace (Get (URLQuery r) "realm") in
  let faction := TrimSpace (Get (URLQuery r) "faction") in
  match (if String.eqb realm "" || String.eqb faction ""
         then match defaultRealmFaction db with
              | Err _ => None
              | Ok rf => Some (if String.eqb realm "" then Realm rf else realm,
                               if String.eqb faction "" then Faction rf else faction)
              end
         else Some (realm, faction)) with
  | None =>
      writeError http.StatusBadRequest "missing realm/faction and no default available"
  | Some (realm, faction) =>
  match parseIntParam r "to" now with
  | Err e => writeError http.StatusBadRequest e
  | Ok to =>
  match parseIntParam r "from" (-1) with
  | Err e => writeError http.StatusBadRequest e
  | Ok from =>
  match (if from <? 0
         then match parseIntParam r "days" 7 with
              | Err e => Err e
              | Ok days =>
                  Ok (if days <=? 0 then 0
                      else Int64.sub to (Int64.mul days 86400))
              end
         else Ok from) with
  | Err e => writeError http.StatusBadRequest e
  | Ok from =>
  if from >? to then writeError http.StatusBadRequest "from must be <= to"
  else
  match parseMaxPointsParam r with
  | Err e => writeError http.StatusBadRequest e
  | Ok maxPoints =>
  match parseTrimPctParam r with
  | Err e => writeError http.StatusBadRequest e
  | Ok trimPct =>
  match queryItem db itemID with
  | NoRows => writeError http.StatusNotFound "item not found"
  | Failed e => writeError http.StatusInternalServerError e
  | Found it =>
  match querySeries db priceExpr itemID realm faction from to with
  | Err e => writeError http.StatusInternalServerError e
  | Ok rows =>
  match scanRows (rowStep trimPct) rows seriesInit with
  | Err e => writeError http.StatusInternalServerError e
  | Ok st =>
      let points :=
        if len (prices (acc st)) >? 0
        then points st ++ [point (acc st) trimPct]
        else points st in
      let points := sortSlice lessTS points in
      let points :=
        if len points >? maxPoints
        then slice points (len points - maxPoints) (len points)
        else points in
      writeJSON http.StatusOK
        (seriesBody
           {| seriesResponse.Item := it;
              seriesResponse.Realm := realm;
              seriesResponse.Faction := faction;
              seriesResponse.Unit := unit;
              seriesResponse.From := from;
              seriesResponse.To := to;
              seriesResponse.TrimPct := trimPct;
              seriesResponse.Points := points |})
  end end end end end end end end end end.

Definition handleHistogram (db : database) (r : request) : response :=
  if negb (String.eqb (Method r) http.MethodGet)
  then writeError http.StatusMethodNotAllowed "method not allowed"
  else
  let itemID := TrimSpace (Get (URLQuery r) "itemId") in
  if String.eqb itemID "" then writeError http.StatusBadRequest "missing itemId"
  else
  match parseScanIDParam r with
  | Err e => writeError http.StatusBadRequest e
  | Ok scanID =>
  let unit := TrimSpace (Get (URLQuery r) "unit") in
  let unit := if String.eqb unit "" then "per_item"%string else unit in
  match priceExprOf unit with
  | None =>
      writeError http.StatusBadRequest "invalid unit (expected per_item or per_stack)"
  | Some priceExpr =>
  match parseTrimPctParam r with
  | Err e => writeError http.StatusBadRequest e
  | Ok trimPct =>
  match parseBinsParam r with
  | Err e => writeError http.StatusBadRequest e
  | Ok bins =>
  match queryHistogram db priceExpr scanID itemID with
  | Err e => writeError http.StatusInternalServerError e
  | Ok rows =>
  match scanRows (fun st rw => (fst rw, snd st ++ [snd rw])) rows (0, []) with
  | Err e => writeError http.StatusInternalServerError e
  | Ok (ts, prices) =>
      let prices := trimSorted prices trimPct in
      let '(minV, maxV, hbins) := makeHistogram prices bins in
      writeJSON http.StatusOK
        (histogramBody
           {| histogramResponse.ItemID := itemID;
              histogramResponse.ScanID := scanID;
              histogramResponse.TS := ts;
              histogramResponse.Unit := unit;
              histogramResponse.TrimPct := trimPct;
              histogramResponse.N := len prices;
              histogramResponse.Min := minV;
              histogramResponse.Max := maxV;
              histogramResponse.Bins := hbins |})
  end end end end end end.

End Library.

(** ** The library, to run the examples on *)

Module golib.

Fixpoint ofBytes (l : list nat) : String.string :=
  match l with
  | [] => String.EmptyString
  | b :: l' => String.String (Ascii.ascii_of_nat b) (ofBytes l')
  end.

(** The white space of [unicode.IsSpace], in UTF-8: U+0009 to U+000D,
    U+0020, U+0085, U+00A0, U+1680, U+2000 to U+200A, U+2028, U+2029,
    U+202F, U+205F and U+3000. *)
Definition whiteSpace : list String.string :=
  map ofBytes
    [ [9]; [10]; [11]; [12]; [13]; [32]; [194; 133]; [194; 160];
      [225; 154; 128];
      [226; 128; 128]; [226; 128; 129]; [226; 128; 130]; [226; 128; 131];
      [226; 128; 132]; [226; 128; 133]; [226; 128; 134]; [226; 128; 135];
      [226; 128; 136]; [226; 128; 137]; [226; 128; 138];
      [226; 128; 168]; [226; 128; 169]; [226; 128; 175]; [226; 129; 159];
      [227; 128; 128] ]%nat.

(** [s] without the prefix [p], if it starts with it. *)
Fixpoint dropPrefix (p s : String.string) : option String.string :=
  match p, s with
  | String.EmptyString, _ => Some s
  | String.String a p', String.String b s' =>
      if Ascii.eqb a b then dropPrefix p' s' else None
  | _, _ => None
  end.

Fixpoint dropAny (ps : list String.string) (s : String.string) : option String.string :=
  match ps with
  | [] => None
  | p :: ps' =>
      match dropPrefix p s with
      | Some s' => Some s'
      | None => dropAny ps' s
      end
  end.

Fixpoint trimLeft (ps : list String.string) (fuel : nat) (s : String.string)
  : String.string :=
  match fuel with
  | O => s
  | S fuel' =>
      match dropAny ps s with
      | Some s' => trimLeft ps fuel' s'
      | None => s
      end
  end.

Definition reverse (s : String.string) : String.string :=
  String.string_of_list_ascii (rev (String.list_ascii_of_string s)).

(** [strings.TrimSpace]: the white space at both ends removed. *)
Definition TrimSpace (s : String.string) : String.string :=
  let s := trimLeft whiteSpace (String.length s) s in
  reverse (trimLeft (map reverse whiteSpace) (String.length s) (reverse s)).

Definition digit (c : Ascii.ascii) : option Z :=
  let n := Z.of_N (Ascii.N_of_ascii c) in
  if (48 <=? n) && (n <=? 57) then Some (n - 48) else None.

Fixpoint digits (s : String.string) (acc : Z) : option Z :=
  match s with
  | String.EmptyString => Some acc
  | String.String c s' =>
      match digit c with
      | Some d => digits s' (10 * acc + d)
      | None => None
      end
  end.

(** [strconv.ParseInt(s, 10, 64)]: an optional sign, then decimal digits,
    at least one; an error outside the 64 bit range. *)
Definition ParseInt (s : String.string) : option Z :=
  let '(neg, ds) :=
    match s with
    | String.String c s' =>
        if Ascii.eqb c "-" then (true, s')
        else if Ascii.eqb c "+" then (false, s')
        else (false, s)
    | String.EmptyString => (false, s)
    end in
  match ds with
  | String.EmptyString => None
  | _ =>
      match digits ds 0 with
      | None => None
      | Some v =>
          let v := if neg then - v else v in
          if (Int64.min_int <=? v) && (v <=? Int64.max_int) then Some v else None
      end
  end.

(** [strconv.Atoi], on 64 bits. *)
Definition Atoi (s : String.string) : option Z := ParseInt s.

(** A sort: insertion. *)
Definition sortSlice := insertionSort.

End golib.

(** ** A request and a database, to run the examples on *)

(** The values of the pairs [key=value] of a query. *)
Definition valuesOf (kvs : list (String.string * String.string)) : Values :=
  fun key => map snd (filter (fun kv => String.eqb (fst kv) key) kvs).

Definition exampleItem : item :=
  {| ID := "i1"; Name := "Linen Cloth"; ShortID := 2589 |}.

Definition exampleDB : database :=
  {| queryRealms :=
       Ok {| delivered := [ Scanned {| Realm := "Faerlina"; Faction := "Horde" |} ];
             rowsErr := None |};
     queryItems := fun _ =>
       Ok {| delivered := [ Scanned exampleItem ]; rowsErr := None |};
     queryDefaultRealmFaction := Ok {| Realm := "Faerlina"; Faction := "Horde" |};
     queryItem := fun id =>
       if String.eqb id "i1" then Found exampleItem else NoRows;
     querySeries := fun _ _ _ _ _ _ =>
       Ok {| delivered := map Scanned exampleRows; rowsErr := None |};
     queryHistogram := fun _ _ _ =>
       Ok {| delivered := [ Scanned (100, 10); Scanned (100, 20); Scanned (100, 30) ];
             rowsErr := None |} |}.

(** The database that fails every query. *)
Definition brokenDB : database :=
  {| queryRealms := Err "down";
     queryItems := fun _ => Err "down";
     queryDefaultRealmFaction := Err "down";
     queryItem := fun _ => Failed "down";
     querySeries := fun _ _ _ _ _ _ => Err "down";
     queryHistogram := fun _ _ _ => Err "down" |}.

Definition exampleRequest (kvs : list (String.string * String.string)) : request :=
  {| Method := "GET"; URLQuery := valuesOf kvs |}.

(** ** Tactics for the handlers

    A handler is a chain of checks; [handler_if] and [handler_match] take
    the branch of the next check that the status in [H] allows,
    [same_step] takes the next check of two runs of a handler on one
    request, [refute_status] follows a run to its end. *)

Tactic Notation "handler_if" hyp(H) ident(E) :=
  match type of H with
  | status (if ?c then _ else _) = _ => destruct c eqn:E; [discriminate H|]
  end.

Tactic Notation "handler_match" hyp(H) "as" simple_intropattern(p) ident(E) :=
  match type of H with
  | status (match ?e with _ => _ end) = _ => destruct e as p eqn:E; try discriminate H
  end.

Ltac same_step :=
  match goal with
  | |- (if ?c then _ else _) = (if ?c then _ else _) =>
      let E := fresh "E" in destruct c eqn:E; [reflexivity|]
  | |- match ?e with _ => _ end = match ?e with _ => _ end =>
      let E := fresh "E" in destruct e eqn:E; try reflexivity
  end.

Ltac refute_status H :=
  repeat match type of H with
         | status (match ?e with _ => _ end) = _ \/ _ => destruct e
         | status (if ?c then _ else _) = _ \/ _ => destruct c
         end;
  destruct H as [H|H]; discriminate H.


(** * Properties *)

(** ** Integers and slices *)

Lemma wrap_in_range : forall z, Int64.in_range (Int64.wrap z).
Proof.
  intros z. unfold Int64.in_range, Int64.wrap, Int64.min_int, Int64.max_int.
  pose proof (Z.mod_pos_bound (z + 2 ^ 63) (2 ^ 64) ltac:(lia)). lia.
Qed.

Lemma wrap_id : forall z, Int64.in_range z -> Int64.wrap z = z.
Proof.
  intros z [H1 H2]. unfold Int64.wrap, Int64.min_int, Int64.max_int in *.
  rewrite Z.mod_small; lia.
Qed.

Lemma quot_in_range : forall a b,
  Int64.in_range a -> 1 <= b -> Int64.quot a b = Z.quot a b.
Proof.
  intros a b Ha Hb. unfold Int64.quot. apply wrap_id.
  unfold Int64.in_range, Int64.min_int, Int64.max_int in *.
  destruct (Z_lt_le_dec a 0).
  - pose proof (Z.quot_opp_l a b ltac:(lia)).
    pose proof (Z.quot_le_upper_bound (- a) b (- a) ltac:(lia) ltac:(nia)).
    pose proof (Z.quot_pos (- a) b ltac:(lia) ltac:(lia)). lia.
  - pose proof (Z.quot_le_upper_bound a b a ltac:(lia) ltac:(nia)).
    pose proof (Z.quot_pos a b ltac:(lia) ltac:(lia)). lia.
Qed.

Lemma len_nonneg : forall [A : Type] (l : list A), 0 <= len l.
Proof. intros. unfold len. lia. Qed.

Lemma len_nil_iff : forall [A : Type] (l : list A), len l = 0 <-> l = [].
Proof.
  intros A l. unfold len. destruct l; simpl; split; intros; try easy; lia.
Qed.

Lemma len_app : forall [A : Type] (l1 l2 : list A), len (l1 ++ l2) = len l1 + len l2.
Proof. intros. unfold len. rewrite length_app. lia. Qed.

Lemma len_slice : forall [A : Type] (l : list A) lo hi,
  0 <= lo -> lo <= hi -> hi <= len l -> len (slice l lo hi) = hi - lo.
Proof.
  intros A l lo hi H1 H2 H3. unfold slice, len in *.
  rewrite length_firstn, length_skipn. lia.
Qed.

Lemma len_pos : forall [A : Type] (l : list A), l <> [] -> 1 <= len l.
Proof.
  intros A l H. pose proof (len_nonneg l).
  destruct (Z.eq_dec (len l) 0) as [E|E]; [|lia].
  apply len_nil_iff in E. contradiction.
Qed.

(** ** Updating a slice in place *)

Lemma length_update : forall [A : Type] (f : A -> A) (l : list A) i,
  length (update l i f) = length l.
Proof.
  intros A f l. induction l as [|x l IH]; intros [|i]; simpl; auto.
Qed.

Lemma nth_update_same : forall [A : Type] (f : A -> A) (d : A) (l : list A) i,
  (i < length l)%nat -> nth i (update l i f) d = f (nth i l d).
Proof.
  intros A f d l. induction l as [|x l IH]; intros [|i] H; simpl in *; try lia; auto.
  apply IH. lia.
Qed.

Lemma nth_update_other : forall [A : Type] (f : A -> A) (d : A) (l : list A) i j,
  i <> j -> nth j (update l i f) d = nth j l d.
Proof.
  intros A f d l. induction l as [|x l IH]; intros [|i] [|j] H; simpl; auto; try lia.
Qed.

Lemma update_app_length : forall [A : Type] (f : A -> A) (pre : list A) x l,
  update (pre ++ x :: l) (length pre) f = pre ++ f x :: l.
Proof.
  intros A f pre x l. induction pre as [|y pre IH]; simpl; [reflexivity|].
  now rewrite IH.
Qed.

(** The first loop of [makeHistogram] fills the slice bin by bin. *)
Lemma fill_bins_from : forall (g : Z -> histogramBin) (z : histogramBin) k a pre,
  length pre = a ->
  fold_left (fun res i => update res (Z.to_nat i) (fun _ => g i))
            (map Z.of_nat (seq a k)) (pre ++ repeat z k)
  = pre ++ map g (map Z.of_nat (seq a k)).
Proof.
  intros g z k. induction k as [|k IH]; intros a pre Hpre; simpl.
  - reflexivity.
  - rewrite Nat2Z.id. subst a. rewrite update_app_length.
    change (pre ++ g (Z.of_nat (length pre)) :: repeat z k)
      with (pre ++ [g (Z.of_nat (length pre))] ++ repeat z k).
    rewrite app_assoc, IH by (rewrite length_app; simpl; lia).
    now rewrite <- app_assoc.
Qed.

Lemma fill_bins : forall (g : Z -> histogramBin) (z : histogramBin) n,
  fold_left (fun res i => update res (Z.to_nat i) (fun _ => g i))
            (upto n) (repeat z (Z.to_nat n))
  = map g (upto n).
Proof.
  intros g z n. unfold upto.
  apply (fill_bins_from g z (Z.to_nat n) 0%nat []). reflexivity.
Qed.

Lemma len_upto : forall n, 0 <= n -> len (upto n) = n.
Proof.
  intros n Hn. unfold len, upto. rewrite length_map, length_seq. lia.
Qed.

Lemma nth_upto : forall (g : Z -> histogramBin) d n i,
  0 <= i < n -> nth (Z.to_nat i) (map g (upto n)) d = g i.
Proof.
  intros g d n i Hi. unfold upto.
  rewrite nth_indep with (d' := g 0)
    by (rewrite !length_map, length_seq; lia).
  rewrite map_map.
  change (g 0) with ((fun x => g (Z.of_nat x)) 0%nat).
  rewrite map_nth, seq_nth by lia. simpl. f_equal. lia.
Qed.

(** ** Counting prices into bins *)

Lemma sumCounts_update : forall l i,
  (i < length l)%nat -> sumCounts (update l i incrCount) = sumCounts l + 1.
Proof.
  induction l as [|b l IH]; intros [|i] H; simpl in *; try lia.
  rewrite IH by lia. lia.
Qed.

Lemma sumCounts_count_loop : forall (idx : Z -> nat) ps res,
  (forall p, In p ps -> (idx p < length res)%nat) ->
  sumCounts (fold_left (fun res p => update res (idx p) incrCount) ps res)
  = sumCounts res + len ps.
Proof.
  intros idx ps. induction ps as [|p ps IH]; intros res H; simpl.
  - unfold len; simpl; lia.
  - rewrite IH.
    + rewrite sumCounts_update by (apply H; now left).
      unfold len; simpl length. lia.
    + intros q Hq. rewrite length_update. apply H. now right.
Qed.

Lemma sumCounts_zero : forall (g : Z -> histogramBin) l,
  (forall i, Count (g i) = 0) -> sumCounts (map g l) = 0.
Proof.
  intros g l Hg. induction l as [|x l IH]; simpl; [reflexivity|].
  rewrite Hg, IH. reflexivity.
Qed.

Lemma countIf_cons : forall f p ps,
  countIf f (p :: ps) = (if f p then 1 else 0) + countIf f ps.
Proof.
  intros f p ps. unfold countIf, len. simpl. destruct (f p); simpl length; lia.
Qed.

Lemma count_loop : forall (idx : Z -> nat) ps res,
  let res' := fold_left (fun res p => update res (idx p) incrCount) ps res in
  length res' = length res /\
  forall i, (i < length res)%nat ->
    Lo (nth i res' zeroBin) = Lo (nth i res zeroBin) /\
    Hi (nth i res' zeroBin) = Hi (nth i res zeroBin) /\
    Count (nth i res' zeroBin)
    = Count (nth i res zeroBin) + countIf (fun p => Nat.eqb (idx p) i) ps.
Proof.
  intros idx ps. induction ps as [|p ps IH]; intros res; simpl.
  - split; [reflexivity|]. intros i _. unfold countIf, len. simpl. lia.
  - destruct (IH (update res (idx p) incrCount)) as [HL HN]. split.
    + rewrite HL. apply length_update.
    + intros i Hlt. rewrite length_update in HN.
      destruct (HN i Hlt) as (H1 & H2 & H3).
      rewrite H1, H2, H3, countIf_cons. clear H1 H2 H3 HN HL IH.
      destruct (Nat.eqb_spec (idx p) i) as [E|E].
      * subst i. rewrite nth_update_same by exact Hlt.
        unfold incrCount; cbn [Lo Hi Count]. repeat split; lia.
      * rewrite nth_update_other by exact E. cbv iota. repeat split; lia.
Qed.

(** ** Width and index of a bin *)

Lemma ceilDiv_spec : forall a b, 0 < b ->
  ceilDiv a b = if a mod b =? 0 then a / b else a / b + 1.
Proof.
  intros a b Hb. unfold ceilDiv.
  pose proof (Z.div_mod a b ltac:(lia)). pose proof (Z.mod_pos_bound a b Hb).
  destruct (Z.eqb_spec (a mod b) 0) as [E|E].
  - assert (Hq : - (a / b) = - a / b)
      by (apply Z.div_unique with (r := 0); lia).
    lia.
  - assert (Hq : - (a / b) - 1 = - a / b)
      by (apply Z.div_unique with (r := b - a mod b); lia).
    lia.
Qed.

Lemma quot_rem_neg : forall a b, a < 0 -> 0 < b ->
  a = b * Z.quot a b + Z.rem a b /\ - b < Z.rem a b <= 0.
Proof.
  intros a b Ha Hb. split; [apply Z.quot_rem'|].
  pose proof (Z.rem_bound_abs a b ltac:(lia)).
  pose proof (Z.rem_nonpos a b ltac:(lia) ltac:(lia)). lia.
Qed.

Lemma binWidth_spec : forall mn mx bins, 0 < bins ->
  binWidth mn mx bins = Z.max 1 (ceilDiv (Int64.sub mx mn) bins).
Proof.
  intros mn mx bins Hb. unfold binWidth.
  set (rng := Int64.sub mx mn).
  assert (Hr : Int64.in_range rng) by apply wrap_in_range.
  rewrite quot_in_range by (auto; lia).
  unfold Int64.rem. rewrite ceilDiv_spec by lia.
  unfold Int64.in_range, Int64.min_int, Int64.max_int in Hr.
  pose proof (Z.div_mod rng bins ltac:(lia)) as Hdm.
  pose proof (Z.mod_pos_bound rng bins Hb) as Hmb.
  destruct (Z_lt_le_dec rng 0) as [Hneg|Hpos].
  - (* a wrapped, negative range: the width falls back to 1 *)
    destruct (quot_rem_neg rng bins Hneg Hb) as [Hqr Hrb].
    set (q := Z.quot rng bins) in *. set (r := Z.rem rng bins) in *.
    clearbody q r rng.
    assert (Hq : q <= 0) by nia.
    assert (Hq' : - 2 ^ 63 <= q) by nia.
    assert (Hd : rng / bins < 0) by (apply Z.div_lt_upper_bound; lia).
    assert (Int64.add q 1 = q + 1) as ->.
    { apply wrap_id. unfold Int64.in_range, Int64.min_int, Int64.max_int. lia. }
    destruct (Z.eqb_spec r 0) as [E|E]; simpl negb; cbv iota.
    + assert (q < 0) by nia.
      destruct (Z.ltb_spec q 1); [|lia].
      destruct (Z.eqb_spec (rng mod bins) 0) as [E'|E']; [lia|].
      exfalso. apply E'. subst r.
      replace rng with (q * bins) by lia. apply Z.mod_mul. lia.
    + destruct (rng mod bins =? 0);
        destruct (Z.ltb_spec (q + 1) 1); lia.
  - rewrite Z.quot_div_nonneg, Z.rem_mod_nonneg by lia.
    pose proof (Z.div_pos rng bins Hpos Hb).
    assert (rng / bins <= rng) by nia.
    destruct (Z.eqb_spec (rng mod bins) 0) as [E|E]; simpl negb; cbv iota.
    + destruct (Z.ltb_spec (rng / bins) 1); lia.
    + assert (Int64.add (rng / bins) 1 = rng / bins + 1) as ->.
      { apply wrap_id. unfold Int64.in_range, Int64.min_int, Int64.max_int.
        assert (rng / bins < rng) by nia. lia. }
      destruct (Z.ltb_spec (rng / bins + 1) 1); lia.
Qed.

Lemma binIndex_spec : forall mn width bins p, 1 <= width -> 0 < bins ->
  binIndex mn width bins p = clamp 0 (bins - 1) (Int64.sub p mn / width).
Proof.
  intros mn width bins p Hw Hb. unfold binIndex, clamp.
  set (x := Int64.sub p mn).
  assert (Hx : Int64.in_range x) by apply wrap_in_range.
  rewrite quot_in_range by auto.
  destruct (Z_lt_le_dec x 0) as [Hneg|Hpos].
  - destruct (quot_rem_neg x width Hneg ltac:(lia)) as [Hqr Hrb].
    assert (Hq : Z.quot x width <= 0) by nia.
    assert (Hd : x / width < 0) by (apply Z.div_lt_upper_bound; lia).
    destruct (Z.ltb_spec (Z.quot x width) 0);
      (destruct (Z.geb_spec 0 bins); [lia|]);
      try (destruct (Z.geb_spec (Z.quot x width) bins)); lia.
  - rewrite Z.quot_div_nonneg by lia.
    pose proof (Z.div_pos x width Hpos ltac:(lia)).
    destruct (Z.ltb_spec (x / width) 0); [lia|].
    destruct (Z.geb_spec (x / width) bins); lia.
Qed.

Lemma clamp_bounds : forall lo hi x, lo <= hi -> lo <= clamp lo hi x <= hi.
Proof. intros. unfold clamp. lia. Qed.

(** ** makeHistogram *)

Lemma index_cons_0 : forall p ps, index (p :: ps) 0 = p.
Proof. reflexivity. Qed.

Lemma binsUsed_pos : forall bins, 0 < binsUsed bins.
Proof. intros bins. unfold binsUsed. destruct (Z.leb_spec bins 0); lia. Qed.

Lemma binWidth_pos : forall mn mx bins, 1 <= binWidth mn mx bins.
Proof.
  intros mn mx bins. unfold binWidth.
  match goal with |- 1 <= (if ?w <? 1 then _ else _) =>
    destruct (Z.ltb_spec w 1) end; lia.
Qed.

Lemma binIndex_bounds : forall mn width bins p,
  0 < bins -> 0 <= binIndex mn width bins p < bins.
Proof.
  intros mn width bins p Hb. unfold binIndex.
  set (q := Int64.quot (Int64.sub p mn) width).
  destruct (Z.ltb_spec q 0);
    match goal with |- context [?a >=? bins] => destruct (Z.geb_spec a bins) end; lia.
Qed.

(** The general path of [makeHistogram]: the bins are laid out, then every
    price is counted once. *)
Lemma makeHistogram_unfold : forall sortedPrices bins,
  let n := len sortedPrices in
  let mn := index sortedPrices 0 in
  let mx := index sortedPrices (n - 1) in
  let B := binsUsed bins in
  let width := binWidth mn mx B in
  sortedPrices <> [] -> mn <> mx ->
  makeHistogram sortedPrices bins
  = (mn, mx,
     fold_left (fun res p => update res (Z.to_nat (binIndex mn width B p)) incrCount)
       sortedPrices
       (map (fun i => {| Lo := Int64.add mn (Int64.mul i width);
                         Hi := Int64.add (Int64.add mn (Int64.mul i width)) width;
                         Count := 0 |}) (upto B))).
Proof.
  intros ps bins n mn mx B width Hne Hmm. unfold makeHistogram.
  fold n. destruct (Z.eqb_spec n 0) as [E|E].
  { apply len_nil_iff in E. contradiction. }
  fold mn mx. destruct (Z.eqb_spec mn mx) as [E'|E']; [contradiction|].
  fold (binsUsed bins). fold B. fold width.
  rewrite (fill_bins (fun i => {| Lo := Int64.add mn (Int64.mul i width);
                         Hi := Int64.add (Int64.add mn (Int64.mul i width)) width;
                         Count := 0 |})).
  reflexivity.
Qed.

Lemma makeHistogram_sum : forall sortedPrices bins,
  sumCounts (snd (makeHistogram sortedPrices bins)) = len sortedPrices.
Proof.
  intros ps bins.
  destruct (Z.eqb_spec (len ps) 0) as [E|E].
  { unfold makeHistogram. rewrite E. simpl. lia. }
  destruct (Z.eqb_spec (index ps 0) (index ps (len ps - 1))) as [E'|E'].
  { unfold makeHistogram. destruct (Z.eqb_spec (len ps) 0); [contradiction|].
    destruct (Z.eqb_spec (index ps 0) (index ps (len ps - 1))); [|contradiction].
    simpl. lia. }
  rewrite makeHistogram_unfold; auto.
  2:{ intros ->. apply E. reflexivity. }
  cbn [snd].
  rewrite sumCounts_count_loop.
  - rewrite sumCounts_zero by reflexivity. lia.
  - intros p _. rewrite length_map. unfold upto. rewrite length_map, length_seq.
    pose proof (binIndex_bounds (index ps 0)
                  (binWidth (index ps 0) (index ps (len ps - 1)) (binsUsed bins))
                  (binsUsed bins) p (binsUsed_pos bins)). lia.
Qed.

(** C7: the counts of the bins add up to the number of prices left after
    trimming; when the smallest and the largest price coincide there is one
    bin [[min, max]] holding all of them; without prices the histogram is
    [(0, 0)] with no bins. *)
Theorem histogram_counts_sum : forall (prices : list Z) (trimPct bins : Z),
  let sortedPrices := trimSorted prices trimPct in
  let n := len sortedPrices in
  let '(k, mn, mx, res) := histogramOf prices trimPct bins in
  k = n /\
  sumCounts res = n /\
  (if n =? 0 then mn = 0 /\ mx = 0 /\ res = []
   else mn = index sortedPrices 0 /\ mx = index sortedPrices (n - 1) /\
        (if mn =? mx then res = [ {| Lo := mn; Hi := mx; Count := n |} ]
         else len res = binsUsed bins)).
Proof.
  intros prices trimPct bins sortedPrices n. unfold histogramOf.
  fold sortedPrices.
  pose proof (makeHistogram_sum sortedPrices bins) as Hsum.
  destruct (makeHistogram sortedPrices bins) as [[mn mx] res] eqn:Hm.
  cbn [snd] in Hsum. fold n in Hsum.
  split; [reflexivity|]. split; [exact Hsum|].
  destruct (Z.eqb_spec n 0) as [E|E].
  { unfold makeHistogram in Hm. fold n in Hm. rewrite E in Hm.
    inversion Hm. auto. }
  destruct (Z.eqb_spec (index sortedPrices 0) (index sortedPrices (n - 1))) as [E'|E'].
  { unfold makeHistogram in Hm. fold n in Hm.
    destruct (Z.eqb_spec n 0); [contradiction|].
    destruct (Z.eqb_spec (index sortedPrices 0) (index sortedPrices (n - 1)));
      [|contradiction].
    inversion Hm; subst mn mx res.
    destruct (Z.eqb_spec (index sortedPrices 0) (index sortedPrices (n - 1)));
      [auto|contradiction]. }
  rewrite makeHistogram_unfold in Hm; auto.
  2:{ intros H. apply E. unfold n. rewrite H. reflexivity. }
  fold n in Hm. inversion Hm as [[H1 H2 H3]]. clear Hm.
  split; [reflexivity|]. split; [reflexivity|].
  destruct (Z.eqb_spec (index sortedPrices 0) (index sortedPrices (n - 1)));
    [contradiction|].
  match goal with |- len (fold_left _ _ ?r) = _ =>
    pose proof (count_loop
      (fun p => Z.to_nat (binIndex (index sortedPrices 0)
         (binWidth (index sortedPrices 0) (index sortedPrices (n - 1)) (binsUsed bins))
         (binsUsed bins) p)) sortedPrices r) as [HL _] end.
  unfold len. rewrite HL.
  rewrite length_map. unfold upto. rewrite length_map, length_seq.
  pose proof (binsUsed_pos bins). lia.
Qed.

Lemma wrap_add_wrap_r : forall a b, Int64.wrap (a + Int64.wrap b) = Int64.wrap (a + b).
Proof.
  intros a b. unfold Int64.wrap. f_equal.
  replace (a + ((b + 2 ^ 63) mod 2 ^ 64 - 2 ^ 63) + 2 ^ 63)
    with (a + (b + 2 ^ 63) mod 2 ^ 64) by lia.
  rewrite Z.add_mod_idemp_r by lia. f_equal. lia.
Qed.

Lemma index_In : forall l i, 0 <= i < len l -> In (index l i) l.
Proof.
  intros l i Hrange. unfold index. apply nth_In. unfold len in Hrange. lia.
Qed.

Lemma countIf_ext : forall f g l,
  (forall p, In p l -> f p = g p) -> countIf f l = countIf g l.
Proof.
  intros f g l H. unfold countIf. f_equal.
  induction l as [|p l IH]; simpl; [reflexivity|].
  rewrite (H p) by now left. rewrite IH; auto.
  intros q Hq. apply H. now right.
Qed.

Lemma ceilDiv_bound : forall a b, 0 <= a -> 0 < b ->
  0 <= ceilDiv a b /\ b * ceilDiv a b < a + b /\ a <= b * ceilDiv a b.
Proof.
  intros a b Ha Hb. rewrite ceilDiv_spec by lia.
  pose proof (Z.div_mod a b ltac:(lia)). pose proof (Z.mod_pos_bound a b Hb).
  pose proof (Z.div_pos a b Ha Hb).
  destruct (Z.eqb_spec (a mod b) 0); nia.
Qed.

(** The layout and the counts, in the arithmetic of the program. *)
Lemma makeHistogram_layout_int64 : forall (sortedPrices : list Z) (bins : Z),
  let n := len sortedPrices in
  let mn := index sortedPrices 0 in
  let mx := index sortedPrices (n - 1) in
  let B := binsUsed bins in
  let width := Z.max 1 (ceilDiv (Int64.sub mx mn) B) in
  sortedPrices <> [] -> mn <> mx ->
  exists res,
    makeHistogram sortedPrices bins = (mn, mx, res) /\
    len res = B /\
    forall i, 0 <= i < B ->
      let b := nth (Z.to_nat i) res zeroBin in
      Lo b = Int64.add mn (Int64.mul i width) /\
      Hi b = Int64.add (Lo b) width /\
      Count b = countIf (fun p => clamp 0 (B - 1) (Int64.sub p mn / width) =? i)
                        sortedPrices.
Proof.
  intros ps bins n mn mx B width Hne Hmm.
  pose proof (binsUsed_pos bins) as HB. fold B in HB.
  assert (Hw : binWidth mn mx B = width) by (apply binWidth_spec; exact HB).
  eexists. split; [apply makeHistogram_unfold; assumption|].
  fold n mn mx B. rewrite Hw.
  set (g := fun i => {| Lo := Int64.add mn (Int64.mul i width);
                        Hi := Int64.add (Int64.add mn (Int64.mul i width)) width;
                        Count := 0 |}).
  destruct (count_loop (fun p => Z.to_nat (binIndex mn width B p)) ps (map g (upto B)))
    as [HL HN].
  assert (Hlen : length (map g (upto B)) = Z.to_nat B).
  { unfold upto. now rewrite !length_map, length_seq. }
  split.
  - unfold len. rewrite HL, Hlen. lia.
  - intros i Hrange b. subst b.
    destruct (HN (Z.to_nat i) ltac:(lia)) as (H1 & H2 & H3).
    rewrite H1, H2, H3, (nth_upto g zeroBin B i Hrange). cbn [g Lo Hi Count].
    split; [reflexivity|]. split; [reflexivity|].
    rewrite Z.add_0_l. apply countIf_ext. intros p _.
    rewrite binIndex_spec by (unfold width; lia).
    pose proof (clamp_bounds 0 (B - 1) (Int64.sub p mn / width) ltac:(lia)).
    destruct (Z.eqb_spec (clamp 0 (B - 1) (Int64.sub p mn / width)) i);
      destruct (Nat.eqb_spec (Z.to_nat (clamp 0 (B - 1) (Int64.sub p mn / width)))
                  (Z.to_nat i)); auto; lia.
Qed.

Lemma sorted_index_le : forall l i j,
  sorted l -> 0 <= i -> i <= j -> j < len l -> index l i <= index l j.
Proof.
  intros l i j Hs. apply Sorted_StronglySorted in Hs; [|exact Z.le_trans].
  revert i j. induction Hs as [|a l Hs IH Ha]; intros i j H0 Hij Hj.
  - unfold len in Hj. simpl in Hj. lia.
  - unfold index, len in *. simpl length in Hj.
    destruct (Z.to_nat i) as [|i'] eqn:Ei; destruct (Z.to_nat j) as [|j'] eqn:Ej;
      simpl; try lia.
    + rewrite Forall_forall in Ha. apply Ha. apply nth_In. lia.
    + specialize (IH (Z.of_nat i') (Z.of_nat j')).
      rewrite !Nat2Z.id in IH. apply IH; lia.
Qed.

Lemma sorted_bounds : forall l p,
  sorted l -> In p l -> index l 0 <= p <= index l (len l - 1).
Proof.
  intros l p Hs Hp. destruct (In_nth l p 0 Hp) as (k & Hk & <-).
  change (nth k l 0) with (nth k l 0). unfold len in *.
  replace (nth k l 0) with (index l (Z.of_nat k))
    by (unfold index; now rewrite Nat2Z.id).
  split; apply sorted_index_le; auto; unfold len; lia.
Qed.

Lemma halfRange_sub : forall a b, halfRange a -> halfRange b -> Int64.sub a b = a - b.
Proof.
  intros a b Ha Hb. apply wrap_id.
  unfold halfRange, Int64.in_range, Int64.min_int, Int64.max_int in *. lia.
Qed.

(** Without wrap-around the bins tile the line from [min] on, each
    [width] wide. *)
Lemma layout_no_wrap : forall mn mx B i,
  halfRange mn -> halfRange mx -> mn <> mx -> 0 < B <= 2 ^ 62 -> 0 <= i < B ->
  let width := Z.max 1 (ceilDiv (mx - mn) B) in
  Int64.add mn (Int64.mul i width) = mn + i * width /\
  Int64.add (mn + i * width) width = mn + i * width + width.
Proof.
  intros mn mx B i Hmn Hmx Hne HB Hrange width.
  assert (Hw : 1 <= width) by (unfold width; lia).
  assert (Hbw : B * width <= Z.max (mx - mn + B - 1) B).
  { unfold width. destruct (Z_lt_le_dec (mx - mn) 1) as [Hn|Hp].
    - assert (ceilDiv (mx - mn) B <= 1).
      { unfold ceilDiv.
        assert (-1 <= - (mx - mn) / B) by (apply Z.div_le_lower_bound; lia). lia. }
      nia.
    - destruct (ceilDiv_bound (mx - mn) B ltac:(lia) ltac:(lia)) as (H1 & H2 & H3).
      nia. }
  assert (Hiw : 0 <= i * width /\ i * width + width <= B * width) by nia.
  unfold halfRange in *. unfold Int64.add, Int64.mul. rewrite wrap_add_wrap_r.
  split; apply wrap_id; unfold Int64.in_range, Int64.min_int, Int64.max_int; lia.
Qed.


(** The first and the last price of a list in the half range, and their
    difference. *)
Lemma ends_no_wrap : forall ps,
  ps <> [] -> Forall halfRange ps ->
  halfRange (index ps 0) /\ halfRange (index ps (len ps - 1)) /\
  Int64.sub (index ps (len ps - 1)) (index ps 0)
  = index ps (len ps - 1) - index ps 0.
Proof.
  intros ps Hne Hall. pose proof (len_pos ps Hne) as Hn.
  rewrite Forall_forall in Hall.
  assert (H0 : halfRange (index ps 0)) by (apply Hall, index_In; lia).
  assert (H1 : halfRange (index ps (len ps - 1))) by (apply Hall, index_In; lia).
  split; [exact H0|]. split; [exact H1|]. now apply halfRange_sub.
Qed.

(** C8: for a non-empty list whose first and last price differ,
    [makeHistogram] works with
    [width = max 1 (ceil ((max - min) / bins))], lays out [bins] bins with
    [lo = min + i * width] and [hi = lo + width], and counts every price in
    the bin [floor ((price - min) / width)] clamped to [[0, bins - 1]]; a
    bin count that is not positive is replaced by 24.  The arithmetic is
    the program's 64 bit arithmetic; it is the arithmetic of the integers
    when the prices lie in [[-2^62, 2^62)]. *)
Theorem makeHistogram_layout : forall (sortedPrices : list Z) (bins : Z),
  let n := len sortedPrices in
  let mn := index sortedPrices 0 in
  let mx := index sortedPrices (n - 1) in
  let B := binsUsed bins in
  let width := Z.max 1 (ceilDiv (Int64.sub mx mn) B) in
  sortedPrices <> [] -> mn <> mx ->
  exists res,
    makeHistogram sortedPrices bins = (mn, mx, res) /\
    len res = B /\
    (forall i, 0 <= i < B ->
      let b := nth (Z.to_nat i) res zeroBin in
      Lo b = Int64.add mn (Int64.mul i width) /\
      Hi b = Int64.add (Lo b) width /\
      Count b = countIf (fun p => clamp 0 (B - 1) (Int64.sub p mn / width) =? i)
                        sortedPrices) /\
    (Forall halfRange sortedPrices -> B <= 2 ^ 62 ->
     width = Z.max 1 (ceilDiv (mx - mn) B) /\
     forall i, 0 <= i < B ->
      let b := nth (Z.to_nat i) res zeroBin in
      Lo b = mn + i * width /\
      Hi b = Lo b + width /\
      Count b = countIf (fun p => clamp 0 (B - 1) ((p - mn) / width) =? i)
                        sortedPrices).
Proof.
  intros ps bins n mn mx B width Hne Hmm.
  destruct (makeHistogram_layout_int64 ps bins Hne Hmm) as (res & Hres & Hlen & Hbins).
  fold n mn mx B width in Hres, Hlen, Hbins.
  exists res. split; [exact Hres|]. split; [exact Hlen|]. split; [exact Hbins|].
  intros Hall HB.
  pose proof (binsUsed_pos bins) as HB0. fold B in HB0.
  destruct (ends_no_wrap ps Hne Hall) as (Hmn & Hmx & Hsub).
  fold n mn mx in Hmn, Hmx, Hsub.
  rewrite Forall_forall in Hall.
  split; [unfold width; now rewrite Hsub|].
  intros i Hrange b. destruct (Hbins i Hrange) as (H1 & H2 & H3). fold b in H1, H2, H3.
  destruct (layout_no_wrap mn mx B i Hmn Hmx Hmm ltac:(lia) Hrange) as [E1 E2].
  rewrite <- Hsub in E1, E2. fold width in E1, E2.
  rewrite H2, H1, E1, E2, H3. split; [reflexivity|]. split; [reflexivity|].
  apply countIf_ext. intros p Hp.
  rewrite halfRange_sub by (auto; apply Hall; exact Hp). reflexivity.
Qed.


Lemma makeHistogram_layout_witness :
  exists res,
    makeHistogram [0; 50; 100] 10 = (0, 100, res) /\ len res = 10 /\
    Lo (nth 5 res zeroBin) = 50 /\ Hi (nth 5 res zeroBin) = 60 /\
    Count (nth 5 res zeroBin) = 1.
Proof.
  destruct (makeHistogram_layout [0; 50; 100] 10) as (res & H1 & H2 & H3 & _);
    [discriminate | vm_compute; discriminate |].
  exists res. split; [exact H1|]. split; [exact H2|].
  destruct (H3 5) as (E1 & E2 & E3); [vm_compute; split; [discriminate|reflexivity]|].
  cbv zeta in E1, E2, E3. change (Z.to_nat 5) with 5%nat in E1, E2, E3.
  rewrite E2, E1, E3. vm_compute. auto.
Defined.

(** C8 as stated fails where the program's arithmetic wraps: with the
    prices [0] and [2^63 - 1] and 5 bins the width is 1844674407370955162,
    the last bin starts at 7378697629483820648, and its upper bound is not
    the sum of the two. *)
Lemma makeHistogram_hi_wraps :
  let '(_, _, res) := makeHistogram [0; 2 ^ 63 - 1] 5 in
  let b := nth 4 res zeroBin in
  binWidth 0 (2 ^ 63 - 1) 5 = 1844674407370955162 /\
  Lo b = 7378697629483820648 /\
  Hi b = - 9223372036854775806 /\
  Hi b <> Lo b + 1844674407370955162.
Proof. vm_compute. repeat split; discriminate. Qed.

(** For prices at or above [min], the clamped quotient names the bin
    whose half-open interval holds the price; the last bin has no upper
    end. *)
Lemma clamp_div_interval : forall mn width B p i,
  1 <= width -> 0 < B -> 0 <= i < B -> mn <= p ->
  (clamp 0 (B - 1) ((p - mn) / width) =? i)
  = (mn + i * width <=? p) && ((p <? mn + i * width + width) || (i =? B - 1)).
Proof.
  intros mn width B p i Hw HB Hrange Hp. unfold clamp.
  pose proof (Z.div_mod (p - mn) width ltac:(lia)) as Hdm.
  pose proof (Z.mod_pos_bound (p - mn) width ltac:(lia)) as Hmb.
  assert (Hk : 0 <= (p - mn) / width) by (apply Z.div_pos; lia).
  set (k := (p - mn) / width) in *. clearbody k.
  destruct (Z.eqb_spec (Z.max 0 (Z.min (B - 1) k)) i) as [E|E];
    destruct (Z.leb_spec (mn + i * width) p);
    destruct (Z.ltb_spec p (mn + i * width + width));
    destruct (Z.eqb_spec i (B - 1)); simpl; try reflexivity; exfalso; nia.
Qed.

Lemma countIf_In : forall f l p, In p l -> f p = true -> 1 <= countIf f l.
Proof.
  intros f l p Hin Hf. induction l as [|x l IH]; [contradiction|].
  rewrite countIf_cons.
  assert (0 <= countIf f l) by (unfold countIf; apply len_nonneg).
  destruct Hin as [->|Hin].
  - rewrite Hf. lia.
  - specialize (IH Hin). destruct (f x); lia.
Qed.

(** C9, as the code has it: the bins lie side by side from [min] on,
    each [width] wide; a bin counts the prices of its half-open interval
    [[lo, hi)], and the last bin counts every price from its [lo] on.  The
    largest price lies in the last bin only when it reaches that bin's
    [lo]; otherwise it lies in the interval of the bin
    [(max - min) / width], an earlier one, and is counted there. *)
Theorem histogram_bin_intervals : forall (sortedPrices : list Z) (bins : Z),
  let n := len sortedPrices in
  let mn := index sortedPrices 0 in
  let mx := index sortedPrices (n - 1) in
  let B := binsUsed bins in
  let width := Z.max 1 (ceilDiv (mx - mn) B) in
  sortedPrices <> [] -> sorted sortedPrices -> mn < mx ->
  Forall halfRange sortedPrices -> B <= 2 ^ 62 ->
  exists res,
    makeHistogram sortedPrices bins = (mn, mx, res) /\
    len res = B /\
    (forall i, 0 <= i < B ->
      let b := nth (Z.to_nat i) res zeroBin in
      Lo b = mn + i * width /\ Hi b = Lo b + width /\
      Count b = countIf (fun p => (Lo b <=? p) && ((p <? Hi b) || (i =? B - 1)))
                        sortedPrices) /\
    (countIf (fun p => Lo (nth (Z.to_nat (B - 1)) res zeroBin) <=? p) [mx] = 1
     <-> mn + (B - 1) * width <= mx) /\
    (mx < mn + (B - 1) * width ->
     let k := (mx - mn) / width in
     let b := nth (Z.to_nat k) res zeroBin in
     0 <= k < B - 1 /\ Lo b <= mx < Hi b /\ 1 <= Count b).
Proof.
  intros ps bins n mn mx B width Hne Hs Hlt Hall HB.
  assert (Hmm : mn <> mx) by lia.
  destruct (makeHistogram_layout_int64 ps bins Hne Hmm) as (res & Hres & Hlen & Hbins).
  fold n mn mx B in Hres, Hlen, Hbins.
  destruct (ends_no_wrap ps Hne Hall) as (Hmn & Hmx & Hsub).
  fold n mn mx in Hmn, Hmx, Hsub. rewrite Hsub in Hbins.
  fold width in Hbins.
  pose proof (binsUsed_pos bins) as HB0. fold B in HB0.
  assert (Hw : 1 <= width) by (unfold width; lia).
  assert (Hex : forall i, 0 <= i < B ->
            Lo (nth (Z.to_nat i) res zeroBin) = mn + i * width /\
            Hi (nth (Z.to_nat i) res zeroBin) = mn + i * width + width).
  { intros i Hrange. destruct (Hbins i Hrange) as (H1 & H2 & _).
    destruct (layout_no_wrap mn mx B i Hmn Hmx Hmm ltac:(lia) Hrange) as [E1 E2].
    fold width in E1, E2. cbv zeta in H1, H2. rewrite H2, H1, E1, E2. auto. }
  assert (Hcount : forall i, 0 <= i < B ->
            let b := nth (Z.to_nat i) res zeroBin in
            Count b = countIf (fun p => (Lo b <=? p) && ((p <? Hi b) || (i =? B - 1))) ps).
  { intros i Hrange b. destruct (Hbins i Hrange) as (_ & _ & H3).
    destruct (Hex i Hrange) as [E1 E2]. fold b in H3, E1, E2.
    rewrite H3, E1, E2. apply countIf_ext. intros p Hp.
    rewrite Forall_forall in Hall.
    rewrite halfRange_sub by (auto; apply Hall; exact Hp).
    apply clamp_div_interval; [lia | lia | lia | apply (sorted_bounds ps p Hs Hp)]. }
  exists res. split; [exact Hres|]. split; [exact Hlen|]. split; [|split].
  - intros i Hrange b. destruct (Hex i Hrange) as [E1 E2]. fold b in E1, E2.
    split; [exact E1|]. split; [rewrite E2, E1; reflexivity|].
    apply Hcount. exact Hrange.
  - destruct (Hex (B - 1) ltac:(lia)) as [E1 _].
    rewrite E1. unfold countIf, len. simpl.
    destruct (Z.leb_spec (mn + (B - 1) * width) mx); simpl; split; intros; lia.
  - intros Hbelow k b.
    pose proof (Z.div_mod (mx - mn) width ltac:(lia)) as Hdm.
    pose proof (Z.mod_pos_bound (mx - mn) width ltac:(lia)) as Hmb.
    fold k in Hdm.
    assert (Hk : 0 <= k < B - 1).
    { split; [apply Z.div_pos; lia|]. apply Z.div_lt_upper_bound; lia. }
    destruct (Hex k ltac:(lia)) as [E1 E2]. fold b in E1, E2.
    split; [exact Hk|]. split; [lia|].
    pose proof (Hcount k ltac:(lia)) as Hc. cbv zeta in Hc. fold b in Hc.
    rewrite Hc. apply countIf_In with (p := mx).
    + apply index_In. pose proof (len_pos ps Hne). fold n. lia.
    + destruct (Z.leb_spec (Lo b) mx); [|lia].
      destruct (Z.ltb_spec mx (Hi b)); [reflexivity|lia].
Qed.

Lemma histogram_bin_intervals_witness :
  exists res,
    makeHistogram [0; 50; 100] 10 = (0, 100, res) /\ len res = 10 /\
    Count (nth 9 res zeroBin) = 1.
Proof.
  destruct (histogram_bin_intervals [0; 50; 100] 10) as (res & H1 & H2 & H3 & _).
  - discriminate.
  - repeat constructor; simpl; lia.
  - vm_compute. reflexivity.
  - repeat constructor; vm_compute; discriminate.
  - vm_compute. discriminate.
  - exists res. split; [exact H1|]. split; [exact H2|].
    assert (Hr : res = snd (makeHistogram [0; 50; 100] 10))
      by (rewrite H1; reflexivity).
    destruct (H3 9 ltac:(vm_compute; split; [discriminate|reflexivity])) as (_ & _ & E).
    cbv zeta in E. change (Z.to_nat 9) with 9%nat in E.
    rewrite E, Hr. vm_compute. reflexivity.
Defined.

(** C9 as stated fails: of the prices [0; 1; 2] in 5 bins the largest is
    counted in the bin of index 2, and the last bin, of index 4, is
    empty. *)
Lemma histogram_max_not_in_last_bin :
  makeHistogram [0; 1; 2] 5
  = (0, 2, [ {| Lo := 0; Hi := 1; Count := 1 |};
             {| Lo := 1; Hi := 2; Count := 1 |};
             {| Lo := 2; Hi := 3; Count := 1 |};
             {| Lo := 3; Hi := 4; Count := 0 |};
             {| Lo := 4; Hi := 5; Count := 0 |} ])
  /\ binIndex 0 (binWidth 0 2 5) 5 2 = 2.
Proof. vm_compute. split; reflexivity. Qed.

(** ** The row loop of handleSeries *)

Lemma collectPoints_flush : forall rows trimPct,
  collectPoints rows trimPct = flush trimPct (fold_left (rowStep trimPct) rows seriesInit).
Proof. reflexivity. Qed.

Lemma groupRows_head : forall r rs, exists g gs, groupRows (r :: rs) = (r :: g) :: gs.
Proof.
  intros r rs. simpl. destruct (groupRows rs) as [|[|r' g] gs].
  - now exists [], [].
  - now exists [], [].
  - destruct (row_scanID r =? row_scanID r'); eauto.
Qed.

Lemma groupRows_single : forall c r g,
  sameScan c (r :: g) -> groupRows (r :: g) = [r :: g].
Proof.
  intros c r g. revert r. induction g as [|x g IH]; intros r H.
  - reflexivity.
  - inversion H as [|? ? Hr Hg]; subst.
    change (groupRows (r :: x :: g)) with
      (match groupRows (x :: g) with
       | (r' :: g') :: gs =>
           if row_scanID r =? row_scanID r' then (r :: r' :: g') :: gs
           else [r] :: (r' :: g') :: gs
       | _ => [[r]]
       end).
    rewrite (IH x Hg). inversion Hg; subst.
    replace (row_scanID x) with (row_scanID r) by congruence.
    now rewrite Z.eqb_refl.
Qed.

Lemma groupRows_closed : forall c r g x rs,
  sameScan c (r :: g) -> row_scanID x <> c ->
  groupRows ((r :: g) ++ x :: rs) = (r :: g) :: groupRows (x :: rs).
Proof.
  intros c r g x rs. revert r. induction g as [|y g IH]; intros r H Hx.
  - inversion H; subst. simpl app.
    change (groupRows (r :: x :: rs)) with
      (match groupRows (x :: rs) with
       | (r' :: g') :: gs =>
           if row_scanID r =? row_scanID r' then (r :: r' :: g') :: gs
           else [r] :: (r' :: g') :: gs
       | _ => [[r]]
       end).
    destruct (groupRows_head x rs) as (g' & gs & ->).
    destruct (Z.eqb_spec (row_scanID r) (row_scanID x)); [congruence|reflexivity].
  - inversion H as [|? ? Hr Hg]; subst.
    change (groupRows ((r :: y :: g) ++ x :: rs)) with
      (match groupRows ((y :: g) ++ x :: rs) with
       | (r' :: g') :: gs =>
           if row_scanID r =? row_scanID r' then (r :: r' :: g') :: gs
           else [r] :: (r' :: g') :: gs
       | _ => [[r]]
       end).
    rewrite (IH y Hg Hx). inversion Hg; subst.
    replace (row_scanID y) with (row_scanID r) by congruence.
    now rewrite Z.eqb_refl.
Qed.

Lemma reduceGroup_openScan : forall trimPct pts r g,
  point (acc (openScan pts r (r :: g))) trimPct = reduceGroup trimPct (r :: g).
Proof. reflexivity. Qed.

(** One row that continues the open scan. *)
Lemma rowStep_same : forall trimPct pts r g x,
  row_scanID r <> -1 -> row_scanID x = row_scanID r ->
  rowStep trimPct (openScan pts r (r :: g)) x = openScan pts r ((r :: g) ++ [x]).
Proof.
  intros trimPct pts r g x Hr Hx. unfold rowStep, openScan.
  cbn [curScanID curTS acc points scanID ts prices].
  destruct (Z.eqb_spec (row_scanID r) (-1)); [contradiction|].
  cbn [curScanID curTS acc points scanID ts prices].
  rewrite Hx, Z.eqb_refl. cbn [negb].
  cbn [curScanID curTS acc points scanID ts prices].
  rewrite last_last. unfold add. cbn [scanID ts prices].
  rewrite map_app. cbn [map].
  destruct (Z.eqb_spec (row_ts x) (row_ts (last (r :: g) r))) as [E|E];
    cbn [negb curScanID curTS acc points scanID ts prices];
    [rewrite <- E|]; reflexivity.
Qed.

(** One row of another scan: the open scan is reduced and appended. *)
Lemma rowStep_other : forall trimPct pts r g x,
  row_scanID r <> -1 -> row_scanID x <> row_scanID r ->
  rowStep trimPct (openScan pts r (r :: g)) x
  = openScan (pts ++ [reduceGroup trimPct (r :: g)]) x [x].
Proof.
  intros trimPct pts r g x Hr Hx. unfold rowStep.
  cbn [curScanID openScan].
  destruct (Z.eqb_spec (row_scanID r) (-1)); [contradiction|].
  cbn [curScanID openScan].
  destruct (Z.eqb_spec (row_scanID x) (row_scanID r)); [contradiction|].
  cbn [negb curScanID curTS acc points scanID ts prices reset].
  rewrite Z.eqb_refl. cbn [negb curScanID curTS acc points scanID ts prices].
  rewrite <- reduceGroup_openScan with (pts := pts).
  unfold openScan, add, slice. cbn [scanID ts prices last map]. reflexivity.
Qed.

Lemma run_open : forall trimPct rs pts r g,
  row_scanID r <> -1 -> sameScan (row_scanID r) (r :: g) ->
  Forall (fun x => row_scanID x <> -1) rs ->
  flush trimPct (fold_left (rowStep trimPct) rs (openScan pts r (r :: g)))
  = pts ++ map (reduceGroup trimPct) (groupRows ((r :: g) ++ rs)).
Proof.
  intros trimPct rs. induction rs as [|x rs IH]; intros pts r g Hr Hg Hall.
  - rewrite app_nil_r, (groupRows_single _ _ _ Hg). cbn [fold_left map].
    unfold flush. cbn [acc openScan prices points].
    unfold len. cbn [length map]. 
    destruct (Z.gtb_spec (Z.of_nat (S (length (map row_price g)))) 0); [|lia].
    now rewrite <- reduceGroup_openScan with (pts := pts).
  - inversion Hall as [|? ? Hx Hrs]; subst. cbn [fold_left].
    destruct (Z.eq_dec (row_scanID x) (row_scanID r)) as [E|E].
    + rewrite rowStep_same by assumption.
      change ((r :: g) ++ [x]) with (r :: (g ++ [x])).
      rewrite IH; auto.
      * change (r :: (g ++ [x])) with ((r :: g) ++ [x]).
        now rewrite <- app_assoc.
      * change (r :: (g ++ [x])) with ((r :: g) ++ [x]).
        apply Forall_app. split; [exact Hg|]. constructor; [exact E|constructor].
    + rewrite rowStep_other by assumption.
      rewrite IH; auto.
      * rewrite (groupRows_closed _ _ _ _ rs Hg E). cbn [map].
        rewrite <- app_assoc. reflexivity.
      * constructor; [reflexivity|constructor].
Qed.

Lemma rowStep_first : forall trimPct x,
  rowStep trimPct seriesInit x = openScan [] x [x].
Proof.
  intros trimPct x. unfold rowStep, seriesInit.
  cbn [curScanID curTS acc points scanID ts prices reset].
  rewrite Z.eqb_refl. cbn [negb curScanID curTS acc points scanID ts prices].
  rewrite Z.eqb_refl. cbn [negb curScanID curTS acc points scanID ts prices].
  reflexivity.
Qed.

(** C5, as the code has it: when no row carries the [scanId] -1, which the
    loop keeps for "no scan is open", the loop and the final flush yield
    one point for each maximal run of rows with one [scanId], in the order
    of the runs; the point carries the timestamp of the last row of its
    run. *)
Theorem collectPoints_groups : forall (rows : list row) (trimPct : Z),
  Forall (fun r => row_scanID r <> -1) rows ->
  collectPoints rows trimPct = map (reduceGroup trimPct) (groupRows rows).
Proof.
  intros rows trimPct Hall. rewrite collectPoints_flush.
  destruct rows as [|x rs]; [reflexivity|].
  inversion Hall; subst. cbn [fold_left]. rewrite rowStep_first.
  rewrite run_open; auto. constructor; [reflexivity|constructor].
Qed.

Lemma collectPoints_groups_witness :
  collectPoints exampleRows 0 = map (reduceGroup 0) (groupRows exampleRows).
Proof.
  apply collectPoints_groups. repeat constructor; discriminate.
Defined.

(** C5 as stated fails on a stream that uses the [scanId] -1: its run is
    never reduced, the stream of two runs yields one point. *)
Lemma collectPoints_scan_minus_one :
  let r1 := {| row_scanID := -1; row_ts := 100; row_price := 10 |} in
  let r2 := {| row_scanID := 2; row_ts := 200; row_price := 5 |} in
  groupRows [r1; r2] = [[r1]; [r2]] /\
  collectPoints [r1; r2] 0 = [reduceGroup 0 [r2]].
Proof. vm_compute. split; reflexivity. Qed.

(** ** Trimming leaves an element *)

Lemma trimSorted_nonempty : forall values trimPct,
  values <> [] -> 1 <= len (trimSorted values trimPct).
Proof.
  intros values trimPct Hne.
  assert (Hn : 1 <= len values).
  { pose proof (len_nonneg values).
    destruct (Z.eq_dec (len values) 0) as [E|E]; [|lia].
    apply len_nil_iff in E. contradiction. }
  unfold trimSorted. destruct (trimPct <=? 0); [exact Hn|].
  destruct (Z.eqb_spec (len values) 0) as [E0|_]; [lia|].
  set (n := len values) in *.
  assert (Hq : 0 <= Z.quot (n - 1) 2 /\ 2 * Z.quot (n - 1) 2 <= n - 1).
  { rewrite Z.quot_div_nonneg by lia.
    pose proof (Z.div_mod (n - 1) 2 ltac:(lia)).
    pose proof (Z.mod_pos_bound (n - 1) 2 ltac:(lia)).
    split; [apply Z.div_pos; lia | lia]. }
  set (t := if trimCount n trimPct >? Z.quot (n - 1) 2
            then Z.quot (n - 1) 2 else trimCount n trimPct).
  assert (Ht : t <= Z.quot (n - 1) 2).
  { unfold t. destruct (Z.gtb_spec (trimCount n trimPct) (Z.quot (n - 1) 2)); lia. }
  unfold slice, len. rewrite length_firstn, length_skipn.
  unfold n, len in *. lia.
Qed.

Lemma point_N : forall a trimPct,
  prices a <> [] -> 1 <= N (point a trimPct).
Proof.
  intros a trimPct Hne. unfold point.
  destruct (Z.eqb_spec (len (prices a)) 0) as [E|E].
  { apply len_nil_iff in E. contradiction. }
  pose proof (trimSorted_nonempty (prices a) trimPct Hne) as Hn.
  destruct (Z.eqb_spec (len (trimSorted (prices a) trimPct)) 0); [lia|].
  destruct (meanLoop binary64 (trimSorted (prices a) trimPct)) as [mean m2].
  match goal with |- context [let '(q1, q3) := ?e in _] => destruct e as [q1 q3] end.
  cbn [N]. exact Hn.
Qed.

Lemma rowInv_init : rowInv seriesInit.
Proof. split; [constructor|reflexivity]. Qed.

Lemma rowInv_step : forall trimPct st r, rowInv st -> rowInv (rowStep trimPct st r).
Proof.
  intros trimPct st r [Hpts Hacc]. unfold rowStep.
  assert (Hadd : forall a p, prices (add a p) <> []).
  { intros a p. unfold add. cbn [prices]. destruct (prices a); discriminate. }
  destruct (Z.eqb_spec (curScanID st) (-1)) as [E|E];
    cbn [curScanID curTS acc points].
  - (* no scan was open: the row opens one, nothing is appended *)
    rewrite Z.eqb_refl. cbn [negb curScanID curTS acc points].
    destruct (negb (row_ts r =? row_ts r)); cbn [curScanID curTS acc points];
      (split; [exact Hpts|]); intros H; exfalso; revert H; apply Hadd.
  - assert (Hne : prices (acc st) <> []) by (intros H; apply E, Hacc, H).
    destruct (Z.eqb_spec (row_scanID r) (curScanID st)) as [E'|E'];
      cbn [negb curScanID curTS acc points].
    + destruct (negb (row_ts r =? curTS st)); cbn [curScanID curTS acc points];
        (split; [exact Hpts|]); intros H; exfalso; revert H; apply Hadd.
    + rewrite Z.eqb_refl. cbn [negb curScanID curTS acc points].
      split.
      * apply Forall_app. split; [exact Hpts|].
        constructor; [apply point_N; exact Hne|constructor].
      * intros H; exfalso; revert H; apply Hadd.
Qed.

Lemma rowInv_fold : forall trimPct rows st,
  rowInv st -> rowInv (fold_left (rowStep trimPct) rows st).
Proof.
  intros trimPct rows. induction rows as [|r rows IH]; intros st H; simpl.
  - exact H.
  - apply IH, rowInv_step, H.
Qed.

Lemma collectPoints_N : forall rows trimPct,
  Forall (fun p => 1 <= N p) (collectPoints rows trimPct).
Proof.
  intros rows trimPct. rewrite collectPoints_flush.
  destruct (rowInv_fold trimPct rows seriesInit rowInv_init) as [Hpts _].
  unfold flush.
  set (st := fold_left (rowStep trimPct) rows seriesInit) in *.
  destruct (Z.gtb_spec (len (prices (acc st))) 0) as [H|H]; [|exact Hpts].
  apply Forall_app. split; [exact Hpts|].
  constructor; [|constructor]. apply point_N.
  intros E. rewrite E in H. unfold len in H. simpl in H. lia.
Qed.

(** ** Sorting and truncating the points *)

Lemma slice_tail : forall [A : Type] (l : list A) k,
  0 <= k -> slice l k (len l) = skipn (Z.to_nat k) l.
Proof.
  intros A l k Hk. unfold slice, len.
  apply firstn_all2. rewrite length_skipn. lia.
Qed.

Lemma StronglySorted_app : forall [A : Type] (R : A -> A -> Prop) l1 l2,
  StronglySorted R (l1 ++ l2) ->
  StronglySorted R l2 /\ forall a b, In a l1 -> In b l2 -> R a b.
Proof.
  intros A R l1 l2. induction l1 as [|x l1 IH]; simpl; intros H.
  - split; [exact H|]. intros a b [].
  - inversion H as [|? ? Hs Hx]; subst. destruct (IH Hs) as [H2 Hab].
    split; [exact H2|]. intros a b [->|Ha] Hb.
    + rewrite Forall_forall in Hx. apply Hx, in_or_app. now right.
    + now apply Hab.
Qed.

Lemma lessTS_false : forall a b, lessTS b a = false <-> TS a <= TS b.
Proof.
  intros a b. unfold lessTS. destruct (Z.ltb_spec (TS b) (TS a)); split; intros; try lia; congruence.
Qed.

(** C6: whatever sort [sort.Slice] performs, for a budget that is not
    negative the points returned are ordered by [ts], are at most
    [maxPoints], are the last [maxPoints] of the sorted points (those left
    out are no newer than any point kept), and none has [n = 0]. *)
Theorem seriesPoints_sorted_bounded :
  forall (sortSlice : (seriesPoint -> seriesPoint -> bool) ->
                      list seriesPoint -> list seriesPoint),
  (forall l, Permutation l (sortSlice lessTS l)) ->
  (forall l, sortedByTS (sortSlice lessTS l)) ->
  forall (rows : list row) (trimPct maxPoints : Z),
  0 <= maxPoints ->
  let all := sortSlice lessTS (collectPoints rows trimPct) in
  let pts := seriesPoints sortSlice rows trimPct maxPoints in
  sortedByTS pts /\
  len pts = Z.min maxPoints (len all) /\
  (exists dropped, all = dropped ++ pts /\
     forall a b, In a dropped -> In b pts -> TS a <= TS b) /\
  Forall (fun p => N p <> 0) pts.
Proof.
  intros sortSlice Hperm Hsorted rows trimPct maxPoints Hmax all pts.
  assert (HN : Forall (fun p => N p <> 0) all).
  { unfold all. eapply Permutation_Forall; [apply Hperm|].
    eapply Forall_impl; [|apply collectPoints_N]. simpl. intros; lia. }
  assert (Hall : sortedByTS all) by apply Hsorted.
  unfold pts, seriesPoints. fold all.
  destruct (Z.gtb_spec (len all) maxPoints) as [Hgt|Hle].
  - rewrite slice_tail by lia.
    set (k := Z.to_nat (len all - maxPoints)).
    pose proof (firstn_skipn k all) as Hsplit.
    rewrite <- Hsplit in Hall. apply StronglySorted_app in Hall.
    destruct Hall as [Hs Hab].
    split; [exact Hs|]. split.
    { unfold len in *. rewrite length_skipn. unfold k. lia. }
    split.
    { exists (firstn k all). split; [now rewrite Hsplit|].
      intros a b Ha Hb. apply lessTS_false. now apply Hab. }
    rewrite <- Hsplit in HN. apply Forall_app in HN. tauto.
  - split; [exact Hall|]. split; [lia|]. split; [|exact HN].
    exists []. split; [reflexivity|]. intros a b [].
Qed.

Lemma insertPoint_perm : forall less x l,
  Permutation (x :: l) (insertPoint less x l).
Proof.
  intros less x l. induction l as [|y l IH]; simpl.
  - apply Permutation_refl.
  - destruct (less x y); [apply Permutation_refl|].
    eapply Permutation_trans; [apply perm_swap|]. now apply perm_skip.
Qed.

Lemma insertionSort_perm : forall less l, Permutation l (insertionSort less l).
Proof.
  intros less l. induction l as [|x l IH]; simpl.
  - apply Permutation_refl.
  - eapply Permutation_trans; [apply perm_skip, IH|]. apply insertPoint_perm.
Qed.

Lemma insertPoint_sorted : forall x l,
  sortedByTS l -> sortedByTS (insertPoint lessTS x l).
Proof.
  intros x l. unfold sortedByTS. induction l as [|y l IH]; simpl; intros H.
  - repeat constructor.
  - inversion H as [|? ? Hs Hy]; subst.
    destruct (lessTS x y) eqn:E.
    + constructor; [exact H|].
      constructor.
      * apply lessTS_false. unfold lessTS in E. apply Z.ltb_lt in E. lia.
      * eapply Forall_impl; [|exact Hy]. simpl. intros a Ha.
        apply lessTS_false. apply lessTS_false in Ha.
        unfold lessTS in E. apply Z.ltb_lt in E. lia.
    + constructor; [apply IH, Hs|].
      eapply Permutation_Forall; [apply insertPoint_perm|].
      constructor; [exact E|exact Hy].
Qed.

Lemma insertionSort_sorted : forall l, sortedByTS (insertionSort lessTS l).
Proof.
  intros l. induction l as [|x l IH]; simpl.
  - constructor.
  - apply insertPoint_sorted, IH.
Qed.

Lemma seriesPoints_sorted_bounded_witness :
  let pts := seriesPoints insertionSort exampleRows 0 10 in
  sortedByTS pts /\ len pts = 2 /\ Forall (fun p => N p <> 0) pts.
Proof.
  destruct (seriesPoints_sorted_bounded insertionSort
              (insertionSort_perm lessTS) insertionSort_sorted
              exampleRows 0 10 ltac:(discriminate)) as (H1 & H2 & _ & H4).
  cbv zeta. split; [exact H1|]. split; [|exact H4].
  rewrite H2. vm_compute. reflexivity.
Defined.

(** ** binary64 arithmetic on small integers *)

Lemma digits2_pos_size : forall m, digits2_pos m = Pos.size m.
Proof. induction m; simpl; congruence. Qed.

Lemma digits2_bounds : forall m,
  2 ^ (Z.pos (digits2_pos m) - 1) <= Z.pos m < 2 ^ Z.pos (digits2_pos m).
Proof.
  intros m. rewrite digits2_pos_size.
  pose proof (Pos.size_gt m) as H1. pose proof (Pos.size_le m) as H2.
  split.
  - assert (H : (2 ^ Pos.size m <= m~0)%positive) by exact H2.
    apply Pos2Z.pos_le_pos in H. rewrite Pos2Z.inj_pow in H.
    replace (Z.pos (Pos.size m)) with (Z.pos (Pos.size m) - 1 + 1) in H by lia.
    rewrite Z.pow_add_r in H by lia. change (2 ^ 1) with 2 in H.
    change (Z.pos m~0) with (2 * Z.pos m) in H. lia.
  - apply Pos2Z.pos_lt_pos in H1. now rewrite Pos2Z.inj_pow in H1.
Qed.


Lemma fexp_normal : forall d, -1021 <= d -> fexp prec emax d = d - 53.
Proof. intros d Hd. unfold fexp, emin, prec, emax. lia. Qed.

(** A mantissa that fits its exponent is not rounded. *)
Lemma binary_round_aux_exact : forall s m e,
  canonical_mantissa prec emax m e = true -> e <= emax - prec ->
  binary_round_aux prec emax s (Z.pos m) e loc_Exact = S754_finite s m e.
Proof.
  intros s m e Hc He. unfold canonical_mantissa in Hc. apply Z.eqb_eq in Hc.
  unfold binary_round_aux, shr_fexp. cbn [Zdigits2 shr_record_of_loc].
  rewrite Hc, Z.sub_diag. cbn [shr shr_m loc_of_shr_record round_nearest_even Zdigits2].
  rewrite Hc, Z.sub_diag. cbn [shr shr_m].
  apply Z.leb_le in He. now rewrite He.
Qed.

Lemma iter_xO_digits : forall k p,
  digits2_pos (Pos.iter xO p k) = (digits2_pos p + k)%positive.
Proof.
  intros k p. induction k as [|k IH] using Pos.peano_ind.
  - simpl. lia.
  - rewrite Pos.iter_succ. simpl. rewrite IH. lia.
Qed.

Lemma iter_xO_value : forall k p,
  Z.pos (Pos.iter xO p k) = Z.pos p * 2 ^ Z.pos k.
Proof.
  intros k p. induction k as [|k IH] using Pos.peano_ind.
  - simpl. lia.
  - rewrite Pos.iter_succ, Pos2Z.inj_succ, Z.pow_succ_r by lia.
    change (Z.pos (Pos.iter xO p k)~0) with (2 * Z.pos (Pos.iter xO p k)).
    rewrite IH. lia.
Qed.

(** Integers below [2^53] are binary64 numbers. *)
Lemma binary_round_small : forall s p, Z.pos p < 2 ^ 53 ->
  exists m e,
    binary_round prec emax s p 0 = S754_finite s m e /\
    digits2_pos m = 53%positive /\ -52 <= e <= 0 /\
    Z.pos m * 2 ^ (e + 1074) = Z.pos p * 2 ^ 1074.
Proof.
  intros s p Hp. unfold binary_round.
  pose proof (digits2_bounds p) as Hd.
  set (d := digits2_pos p) in *.
  assert (Hd53 : Z.pos d <= 53).
  { destruct (Z_le_gt_dec (Z.pos d) 53) as [H|H]; [exact H|].
    assert (2 ^ 53 <= 2 ^ (Z.pos d - 1)) by (apply Z.pow_le_mono_r; lia). lia. }
  rewrite Z.add_0_r, fexp_normal by lia.
  unfold shl_align. rewrite Z.sub_0_r.
  destruct (Z.pos d - 53) as [|q|q] eqn:E; try lia.
  - exists p, 0. split.
    + apply binary_round_aux_exact; [|unfold emax, prec; lia].
      unfold canonical_mantissa. fold d. apply Z.eqb_eq.
      rewrite fexp_normal by lia. lia.
    + fold d. split; [lia|]. split; [lia|]. reflexivity.
  - exists (Pos.iter xO p q), (Z.neg q). split.
    + apply binary_round_aux_exact; [|unfold emax, prec; lia].
      unfold canonical_mantissa. apply Z.eqb_eq.
      rewrite iter_xO_digits. fold d. rewrite fexp_normal by lia. lia.
    + rewrite iter_xO_digits. fold d. split; [lia|]. split; [lia|].
      rewrite iter_xO_value.
      replace 1074 with (Z.pos q + (Z.neg q + 1074)) at 2 by lia.
      rewrite (Z.pow_add_r 2 (Z.pos q) (Z.neg q + 1074)) by lia. ring.
Qed.

(** An even mantissa of 54 digits loses its last digit, exactly. *)
Lemma binary_round_aux_even : forall s m e,
  digits2_pos m = 53%positive -> -1074 <= e + 1 <= emax - prec ->
  binary_round_aux prec emax s (Z.pos m~0) e loc_Exact = S754_finite s m (e + 1).
Proof.
  intros s m e Hd He. unfold binary_round_aux, shr_fexp.
  cbn [Zdigits2 shr_record_of_loc].
  change (digits2_pos m~0) with (Pos.succ (digits2_pos m)). rewrite Hd.
  replace (fexp prec emax (Z.pos (Pos.succ 53) + e) - e) with 1
    by (unfold fexp, emin, prec, emax in *; lia).
  cbn [shr SpecFloat.iter_pos shr_1 shr_m loc_of_shr_record orb
       round_nearest_even Zdigits2].
  rewrite Hd.
  replace (fexp prec emax (Z.pos 53 + (e + 1)) - (e + 1)) with 0
    by (unfold fexp, emin, prec, emax in *; lia).
  cbn [shr shr_m].
  destruct He as [_ He]. apply Z.leb_le in He. now rewrite He.
Qed.

(** Division of a normal number by a power of two only moves the
    exponent. *)
Lemma SFdiv_pow2 : forall s m e ey,
  digits2_pos m = 53%positive ->
  -1021 <= e - ey -> e - ey - 52 <= emax - prec ->
  SF64div (S754_finite s m e) (S754_finite false 4503599627370496 ey)
  = S754_finite s m (e - ey - 52).
Proof.
  intros s m e ey Hd Hlo Hhi. unfold SF64div, SFdiv, SFdiv_core_binary.
  cbn [Zdigits2]. rewrite Hd.
  change (digits2_pos 4503599627370496) with 53%positive.
  replace (Z.pos 53 + e - (Z.pos 53 + ey)) with (e - ey) by lia.
  rewrite fexp_normal by lia.
  rewrite Z.min_l by lia.
  replace (e - ey - (e - ey - 53)) with 53 by lia.
  assert (Hq : Z.div_eucl (Z.shiftl (Z.pos m) 53) 4503599627370496 = (Z.pos m~0, 0)).
  { rewrite Z.shiftl_mul_pow2 by lia.
    pose proof (Z_div_mod (Z.pos m * 2 ^ 53) 4503599627370496 ltac:(lia)) as H.
    destruct (Z.div_eucl (Z.pos m * 2 ^ 53) 4503599627370496) as [q r].
    change (2 ^ 53) with (2 * 4503599627370496) in H.
    change (Z.pos m~0) with (2 * Z.pos m).
    assert (q = 2 * Z.pos m) by nia. assert (r = 0) by nia. congruence. }
  rewrite Hq. cbn [new_location Z.even new_location_even Z.eqb].
  rewrite xorb_false_r.
  rewrite binary_round_aux_even by (auto; unfold emax, prec in *; lia).
  f_equal. lia.
Qed.

Lemma Prim2SF_two : Prim2SF 2 = S754_finite false 4503599627370496 (-51).
Proof. reflexivity. Qed.

Lemma Prim2SF_one : Prim2SF 1 = S754_finite false 4503599627370496 (-52).
Proof. reflexivity. Qed.

Lemma pow_1074 : 2 ^ 1074 = 2 * 2 ^ 1073.
Proof. reflexivity. Qed.

Lemma to_Z_of_Z_small : forall n, 0 <= n < 2 ^ 63 -> Uint63.to_Z (Uint63.of_Z n) = n.
Proof.
  intros n Hn. rewrite of_Z_spec. apply Z.mod_small. exact Hn.
Qed.

Lemma of_uint63_halves : forall n, 0 <= n <= 2 ^ 53 ->
  halves (-52) (Prim2SF (of_uint63 (Uint63.of_Z n))) (2 * n) /\
  (0 < n -> exists m e, Prim2SF (of_uint63 (Uint63.of_Z n)) = S754_finite false m e).
Proof.
  intros n Hn. rewrite of_uint63_spec, to_Z_of_Z_small by lia.
  destruct (Z.eq_dec n (2 ^ 53)) as [->|Hne].
  { assert (E : binary_normalize prec emax (2 ^ 53) 0 false
                 = S754_finite false 4503599627370496 1) by reflexivity.
    rewrite E. split; [|intros _; eexists; eexists; reflexivity].
    split; [split; [reflexivity|lia]|reflexivity]. }
  destruct n as [|p|p]; try lia.
  - split; [|lia]. split; reflexivity.
  - destruct (binary_round_small false p ltac:(lia)) as (m & e & Hr & Hd & He & Hv).
    cbn [binary_normalize]. rewrite Hr. split; [|intros _; eauto].
    split; [split; [exact Hd|lia]|].
    cbn [scaled]. rewrite Hv, pow_1074. ring.
Qed.

Lemma of_int_halves : forall z, - 2 ^ 53 <= z <= 2 ^ 53 ->
  halves (-52) (Prim2SF (Float64.of_int z)) (2 * z).
Proof.
  intros z Hz. unfold Float64.of_int.
  destruct (Z.eqb_spec z Int64.min_int) as [E|_].
  { unfold Int64.min_int in E. lia. }
  destruct (Z.ltb_spec z 0) as [Hneg|Hpos].
  - rewrite FloatAxioms.opp_spec.
    destruct (of_uint63_halves (- z) ltac:(lia)) as [[Hn Hs] Hf].
    destruct (Hf ltac:(lia)) as (m & e & Hx). rewrite Hx in *.
    cbn [SFopp negb]. split; [exact Hn|].
    cbn [scaled] in *. lia.
  - apply of_uint63_halves. lia.
Qed.

Lemma div2_halves : forall lo x t, -1020 <= lo ->
  halves lo (Prim2SF x) (2 * t) -> halves (lo - 1) (Prim2SF (x / 2)) t.
Proof.
  intros lo x t Hlo [Hn Hs]. rewrite FloatAxioms.div_spec, Prim2SF_two.
  destruct (Prim2SF x) as [s| | |s m e]; cbn [normalOrZero] in Hn; try contradiction.
  - subst s. cbn [SF64div SFdiv xorb]. split; [reflexivity|].
    cbn [scaled] in *. lia.
  - destruct Hn as [Hd He].
    rewrite SFdiv_pow2 by (auto; unfold emax, prec; lia).
    replace (e - -51 - 52) with (e - 1) by lia.
    split; [split; [exact Hd|lia]|].
    cbn [scaled] in *.
    replace (e + 1074) with (Z.succ (e - 1 + 1074)) in Hs by lia.
    rewrite Z.pow_succ_r in Hs by lia. lia.
Qed.

(** Normal numbers compare as their multiples of [2^-1074] do. *)
Lemma normal_lt : forall m1 e1 m2 e2,
  digits2_pos m1 = 53%positive -> digits2_pos m2 = 53%positive ->
  -1074 <= e1 -> e1 < e2 ->
  Z.pos m1 * 2 ^ (e1 + 1074) < Z.pos m2 * 2 ^ (e2 + 1074).
Proof.
  intros m1 e1 m2 e2 H1 H2 He Hlt.
  pose proof (digits2_bounds m1) as B1. pose proof (digits2_bounds m2) as B2.
  rewrite H1 in B1. rewrite H2 in B2.
  change (2 ^ (53 - 1)) with 4503599627370496 in *.
  change (2 ^ 53) with (2 * 4503599627370496) in *.
  replace (e2 + 1074) with ((e2 - e1) + (e1 + 1074)) by lia.
  rewrite (Z.pow_add_r 2 (e2 - e1) (e1 + 1074)) by lia.
  assert (Hp : 0 < 2 ^ (e1 + 1074)) by (apply Z.pow_pos_nonneg; lia).
  assert (Hq : 2 ^ 1 <= 2 ^ (e2 - e1)) by (apply Z.pow_le_mono_r; lia).
  change (2 ^ 1) with 2 in Hq.
  set (P := 2 ^ (e1 + 1074)) in *. set (Q := 2 ^ (e2 - e1)) in *.
  clearbody P Q.
  assert (S1 : Z.pos m1 * P < 2 * 4503599627370496 * P)
    by (apply Z.mul_lt_mono_pos_r; lia).
  assert (S2 : 2 * P <= Q * P) by (apply Z.mul_le_mono_nonneg_r; lia).
  assert (S3 : 4503599627370496 * (Q * P) <= Z.pos m2 * (Q * P))
    by (apply Z.mul_le_mono_nonneg_r; nia).
  lia.
Qed.

Lemma SFcompare_scaled : forall lo1 lo2 x y,
  -1074 <= lo1 -> -1074 <= lo2 ->
  normalOrZero lo1 x -> normalOrZero lo2 y ->
  SFcompare x y = Some (scaled x ?= scaled y).
Proof.
  intros lo1 lo2 x y Hlo1 Hlo2 Hx Hy.
  destruct x as [sx| | |sx mx ex]; cbn [normalOrZero] in Hx; try contradiction;
  destruct y as [sy| | |sy my ey]; cbn [normalOrZero] in Hy; try contradiction.
  - reflexivity.
  - destruct Hy as [Hd He]. cbn [SFcompare scaled].
    assert (0 < 2 ^ (ey + 1074)) by (apply Z.pow_pos_nonneg; lia).
    f_equal. symmetry. destruct sy.
    + apply Z.compare_gt_iff. nia.
    + apply Z.compare_lt_iff. nia.
  - destruct Hx as [Hd He]. cbn [SFcompare scaled].
    assert (0 < 2 ^ (ex + 1074)) by (apply Z.pow_pos_nonneg; lia).
    f_equal. symmetry. destruct sx.
    + apply Z.compare_lt_iff. nia.
    + apply Z.compare_gt_iff. nia.
  - destruct Hx as [Hdx Hex]. destruct Hy as [Hdy Hey].
    cbn [SFcompare scaled].
    assert (Px : 0 < 2 ^ (ex + 1074)) by (apply Z.pow_pos_nonneg; lia).
    assert (Py : 0 < 2 ^ (ey + 1074)) by (apply Z.pow_pos_nonneg; lia).
    f_equal. symmetry.
    destruct sx, sy.
    + (* both negative *)
      destruct (Z.compare_spec ex ey) as [E|E|E].
      * subst ey. rewrite Pos.compare_cont_spec.
        destruct (Pos.compare_spec mx my) as [C|C|C]; cbn [Pos.switch_Eq CompOpp];
          [apply Z.compare_eq_iff|apply Z.compare_gt_iff|apply Z.compare_lt_iff];
          nia.
      * apply Z.compare_gt_iff.
        pose proof (normal_lt mx ex my ey Hdx Hdy ltac:(lia) E). lia.
      * apply Z.compare_lt_iff.
        pose proof (normal_lt my ey mx ex Hdy Hdx ltac:(lia) E). lia.
    + apply Z.compare_lt_iff. nia.
    + apply Z.compare_gt_iff. nia.
    + destruct (Z.compare_spec ex ey) as [E|E|E].
      * subst ey. rewrite Pos.compare_cont_spec.
        destruct (Pos.compare_spec mx my) as [C|C|C]; cbn [Pos.switch_Eq];
          [apply Z.compare_eq_iff|apply Z.compare_lt_iff|apply Z.compare_gt_iff];
          nia.
      * apply Z.compare_lt_iff.
        pose proof (normal_lt mx ex my ey Hdx Hdy ltac:(lia) E). lia.
      * apply Z.compare_gt_iff.
        pose proof (normal_lt my ey mx ex Hdy Hdx ltac:(lia) E). lia.
Qed.

Lemma halves_leb : forall lo1 lo2 x y a b,
  -1074 <= lo1 -> -1074 <= lo2 ->
  halves lo1 (Prim2SF x) a -> halves lo2 (Prim2SF y) b ->
  (x <=? y)%float = (a <=? b).
Proof.
  intros lo1 lo2 x y a b H1 H2 [Nx Sx] [Ny Sy].
  rewrite FloatAxioms.leb_spec. unfold SFleb.
  rewrite (SFcompare_scaled lo1 lo2 _ _ H1 H2 Nx Ny), Sx, Sy.
  assert (P : 0 < 2 ^ 1073) by (apply Z.pow_pos_nonneg; lia).
  destruct (Z.compare_spec (a * 2 ^ 1073) (b * 2 ^ 1073));
    destruct (Z.leb_spec a b); try reflexivity; nia.
Qed.

(** ** Rounding to 53 digits *)

Lemma roundAt_0 : forall z, roundAt 0 z = z.
Proof.
  intros z. unfold roundAt. change (2 ^ 0) with 1.
  rewrite Z.mod_1_r, Z.div_1_r. simpl. lia.
Qed.

Lemma roundAt_bounds : forall k z, 0 <= k ->
  z / 2 ^ k * 2 ^ k <= roundAt k z <= (z / 2 ^ k + 1) * 2 ^ k.
Proof.
  intros k z Hk. unfold roundAt.
  assert (P : 0 < 2 ^ k) by (apply Z.pow_pos_nonneg; lia).
  destruct (_ || _); nia.
Qed.

Lemma roundAt_mono : forall k a b, 0 <= k -> a <= b -> roundAt k a <= roundAt k b.
Proof.
  intros k a b Hk Hab.
  assert (P : 0 < 2 ^ k) by (apply Z.pow_pos_nonneg; lia).
  pose proof (Z.div_le_mono a b (2 ^ k) P Hab) as Hq.
  destruct (Z.eq_dec (a / 2 ^ k) (b / 2 ^ k)) as [E|E].
  - unfold roundAt. rewrite <- E.
    pose proof (Z.div_mod a (2 ^ k) ltac:(lia)) as Da.
    pose proof (Z.div_mod b (2 ^ k) ltac:(lia)) as Db.
    rewrite <- E in Db.
    assert (Hr : a mod 2 ^ k <= b mod 2 ^ k) by lia.
    set (q := a / 2 ^ k) in *. set (h := 2 ^ k) in *.
    set (ra := a mod h) in *. set (rb := b mod h) in *.
    destruct (Z.odd q);
      destruct (Z.ltb_spec h (2 * ra)); destruct (Z.eqb_spec (2 * ra) h);
      destruct (Z.ltb_spec h (2 * rb)); destruct (Z.eqb_spec (2 * rb) h);
      cbn [orb andb]; nia.
  - pose proof (roundAt_bounds k a Hk) as [_ Ba].
    pose proof (roundAt_bounds k b Hk) as [Bb _].
    assert (a / 2 ^ k + 1 <= b / 2 ^ k) by lia. nia.
Qed.

Lemma roundAt_double : forall k z, 0 <= k -> roundAt (k + 1) (2 * z) = 2 * roundAt k z.
Proof.
  intros k z Hk. unfold roundAt.
  assert (P : 0 < 2 ^ k) by (apply Z.pow_pos_nonneg; lia).
  rewrite Z.pow_add_r by lia. change (2 ^ 1) with 2.
  replace (2 ^ k * 2) with (2 * 2 ^ k) by ring.
  rewrite Z.mul_mod_distr_l, Z.div_mul_cancel_l by lia.
  set (q := z / 2 ^ k). set (h := 2 ^ k) in *. set (r := z mod h).
  assert (E1 : (2 * h <? 2 * (2 * r)) = (h <? 2 * r)).
  { destruct (Z.ltb_spec (2 * h) (2 * (2 * r))); destruct (Z.ltb_spec h (2 * r));
      try reflexivity; lia. }
  assert (E2 : (2 * (2 * r) =? 2 * h) = (2 * r =? h)).
  { destruct (Z.eqb_spec (2 * (2 * r)) (2 * h)); destruct (Z.eqb_spec (2 * r) h);
      try reflexivity; lia. }
  rewrite E1, E2. ring.
Qed.

Lemma roundPos_small : forall z, 0 <= z < 2 ^ 53 -> roundPos z = z.
Proof.
  intros z Hz. unfold roundPos.
  assert (L : Z.log2 z <= 52).
  { destruct (Z.eq_dec z 0) as [->|Hne]; [simpl; lia|].
    assert (Z.log2 z < 53) by (apply Z.log2_lt_pow2; lia). lia. }
  rewrite Z.max_l by lia. apply roundAt_0.
Qed.

Lemma roundPos_at : forall k z, 0 <= k -> 2 ^ (52 + k) <= z < 2 ^ (53 + k) ->
  roundPos z = roundAt k z.
Proof.
  intros k z Hk Hz. unfold roundPos.
  assert (P : 0 < 2 ^ (52 + k)) by (apply Z.pow_pos_nonneg; lia).
  assert (L : Z.log2 z = 52 + k).
  { apply Z.log2_unique; [lia|]. replace (Z.succ (52 + k)) with (53 + k) by lia. exact Hz. }
  rewrite L. f_equal. lia.
Qed.

(** The quotient of a number of [53 + k] digits by [2^k] has 53 digits. *)
Lemma quot_53_digits : forall k z, 0 <= k -> 2 ^ (52 + k) <= z < 2 ^ (53 + k) ->
  2 ^ 52 <= z / 2 ^ k < 2 ^ 53.
Proof.
  intros k z Hk Hz.
  assert (P : 0 < 2 ^ k) by (apply Z.pow_pos_nonneg; lia).
  rewrite !Z.pow_add_r in Hz by lia. split.
  - apply Z.div_le_lower_bound; lia.
  - apply Z.div_lt_upper_bound; lia.
Qed.

(** Where a positive number lies among the powers of two. *)
Lemma log2_window : forall z, 0 < z ->
  let k := Z.max 0 (Z.log2 z - 52) in
  0 <= k /\ z < 2 ^ (53 + k) /\ (1 <= k -> 2 ^ (52 + k) <= z).
Proof.
  intros z Hz k. pose proof (Z.log2_spec z Hz) as [L1 L2].
  pose proof (Z.log2_nonneg z) as L0.
  split; [lia|]. split.
  - apply Z.lt_le_trans with (1 := L2). apply Z.pow_le_mono_r; lia.
  - intros Hk. replace (52 + k) with (Z.log2 z) by lia. exact L1.
Qed.

Lemma roundPos_window : forall z, 0 < z ->
  let k := Z.max 0 (Z.log2 z - 52) in
  roundPos z <= 2 ^ (53 + k) /\ (1 <= k -> 2 ^ (52 + k) <= roundPos z).
Proof.
  intros z Hz k. destruct (log2_window z Hz) as (Hk & Hu & Hl). fold k in Hk, Hu, Hl.
  assert (P : 0 < 2 ^ k) by (apply Z.pow_pos_nonneg; lia).
  pose proof (roundAt_bounds k z Hk) as [B1 B2]. fold (roundPos z) in B1, B2.
  unfold roundPos. fold k. split.
  - rewrite Z.pow_add_r by lia.
    assert (z / 2 ^ k < 2 ^ 53).
    { apply Z.div_lt_upper_bound; [lia|]. rewrite Z.pow_add_r in Hu by lia. lia. }
    nia.
  - intros H1. specialize (Hl H1). rewrite Z.pow_add_r in * by lia.
    assert (2 ^ 52 <= z / 2 ^ k) by (apply Z.div_le_lower_bound; lia).
    nia.
Qed.

Lemma roundPos_mono : forall a b, 0 <= a <= b -> roundPos a <= roundPos b.
Proof.
  intros a b [Ha Hab].
  destruct (Z.eq_dec a 0) as [->|Hne].
  { rewrite roundPos_small by (simpl; lia).
    unfold roundPos. pose proof (roundAt_bounds (Z.max 0 (Z.log2 b - 52)) b ltac:(lia)) as [B _].
    assert (P : 0 < 2 ^ Z.max 0 (Z.log2 b - 52)) by (apply Z.pow_pos_nonneg; lia).
    assert (0 <= b / 2 ^ Z.max 0 (Z.log2 b - 52)) by (apply Z.div_pos; lia).
    nia. }
  pose proof (Z.log2_le_mono a b Hab) as Hl.
  destruct (roundPos_window a ltac:(lia)) as [Ua _].
  destruct (roundPos_window b ltac:(lia)) as [_ Lb].
  set (ka := Z.max 0 (Z.log2 a - 52)) in *. set (kb := Z.max 0 (Z.log2 b - 52)) in *.
  destruct (Z.eq_dec ka kb) as [E|E].
  - unfold roundPos. fold ka kb. rewrite E. apply roundAt_mono; lia.
  - assert (H : ka + 1 <= kb) by lia.
    specialize (Lb ltac:(lia)).
    assert (2 ^ (53 + ka) <= 2 ^ (52 + kb)) by (apply Z.pow_le_mono_r; lia).
    lia.
Qed.

Lemma roundPos_nonneg : forall z, 0 <= z -> 0 <= roundPos z.
Proof.
  intros z Hz. change 0 with (roundPos 0) at 1. apply roundPos_mono. lia.
Qed.

Lemma roundPos_double : forall z, 0 <= z -> roundPos (2 * z) = 2 * roundPos z.
Proof.
  intros z Hz. destruct (Z.eq_dec z 0) as [->|Hne]; [reflexivity|].
  unfold roundPos. rewrite Z.log2_double by lia.
  destruct (Z_lt_le_dec (Z.log2 z) 52) as [H|H].
  - rewrite !Z.max_l by lia. now rewrite !roundAt_0.
  - rewrite !Z.max_r by lia.
    replace (Z.succ (Z.log2 z) - 52) with (Z.log2 z - 52 + 1) by lia.
    apply roundAt_double. lia.
Qed.

Lemma round53_small : forall z, - 2 ^ 53 <= z <= 2 ^ 53 -> round53 z = z.
Proof.
  intros z Hz. unfold round53.
  assert (E : roundPos (2 ^ 53) = 2 ^ 53) by reflexivity.
  destruct (Z.ltb_spec z 0).
  - destruct (Z.eq_dec (- z) (2 ^ 53)) as [Ez|Hne]; [rewrite Ez, E; lia|].
    rewrite roundPos_small by lia. lia.
  - destruct (Z.eq_dec z (2 ^ 53)) as [->|Hne]; [exact E|].
    apply roundPos_small. lia.
Qed.

Lemma round53_mono : forall a b, a <= b -> round53 a <= round53 b.
Proof.
  intros a b Hab. unfold round53.
  destruct (Z.ltb_spec a 0); destruct (Z.ltb_spec b 0); try lia.
  - pose proof (roundPos_mono (- b) (- a) ltac:(lia)). lia.
  - pose proof (roundPos_nonneg (- a) ltac:(lia)).
    pose proof (roundPos_nonneg b ltac:(lia)). lia.
  - apply roundPos_mono. lia.
Qed.

Lemma round53_double : forall z, round53 (2 * z) = 2 * round53 z.
Proof.
  intros z. unfold round53.
  destruct (Z.ltb_spec z 0); destruct (Z.ltb_spec (2 * z) 0); try lia.
  - replace (- (2 * z)) with (2 * - z) by ring.
    rewrite roundPos_double by lia. ring.
  - apply roundPos_double. lia.
Qed.

(** ** Conversion of large integers *)

Lemma iter_pos_nat : forall (A : Type) (f : A -> A) p x,
  SpecFloat.iter_pos f p x = Nat.iter (Pos.to_nat p) f x.
Proof.
  intros A f p. induction p as [p IH|p IH|]; intros x; cbn [SpecFloat.iter_pos].
  - rewrite !IH, Pos2Nat.inj_xI.
    replace (2 * Pos.to_nat p)%nat with (Pos.to_nat p + Pos.to_nat p)%nat by lia.
    now rewrite Nat.iter_succ_r, Nat.iter_add.
  - rewrite !IH, Pos2Nat.inj_xO.
    replace (2 * Pos.to_nat p)%nat with (Pos.to_nat p + Pos.to_nat p)%nat by lia.
    now rewrite Nat.iter_add.
  - reflexivity.
Qed.

Lemma shr_1_spec : forall m r s, 0 <= m ->
  shr_1 {| shr_m := m; shr_r := r; shr_s := s |}
  = {| shr_m := m / 2; shr_r := Z.odd m; shr_s := r || s |}.
Proof.
  intros m r s Hm. destruct m as [|p|p]; [reflexivity| |lia].
  destruct p as [p|p|]; cbn [shr_1].
  - f_equal. change (Z.pos p~1) with (2 * Z.pos p + 1).
    apply Z.div_unique with (r := 1); lia.
  - f_equal. change (Z.pos p~0) with (2 * Z.pos p).
    apply Z.div_unique with (r := 0); lia.
  - reflexivity.
Qed.

(** After [k + 1] shifts to the right: the quotient, whether the remainder
    reaches the half, and whether anything lies below the half bit. *)
Lemma shr_iter : forall k m, 0 <= m ->
  Nat.iter (S k) shr_1 {| shr_m := m; shr_r := false; shr_s := false |}
  = {| shr_m := m / 2 ^ Z.of_nat (S k);
       shr_r := 2 ^ Z.of_nat k <=? m mod 2 ^ Z.of_nat (S k);
       shr_s := negb (m mod 2 ^ Z.of_nat k =? 0) |}.
Proof.
  induction k as [|k IH]; intros m Hm.
  - cbn [Nat.iter]. rewrite shr_1_spec by exact Hm.
    change (2 ^ Z.of_nat 1) with 2. change (2 ^ Z.of_nat 0) with 1.
    rewrite Z.mod_1_r. cbn [Z.eqb negb orb].
    rewrite (Zmod_odd m). destruct (Z.odd m); reflexivity.
  - rewrite Nat.iter_succ, IH by exact Hm.
    assert (P : 0 < 2 ^ Z.of_nat k) by (apply Z.pow_pos_nonneg; lia).
    rewrite shr_1_spec by (apply Z.div_pos; [lia|apply Z.pow_pos_nonneg; lia]).
    rewrite !Nat2Z.inj_succ, !Z.pow_succ_r by lia.
    set (h := 2 ^ Z.of_nat k) in *.
    assert (F1 : m / (2 * h) / 2 = m / (2 * (2 * h))).
    { rewrite Z.div_div by lia. f_equal. ring. }
    assert (F2 : m mod (2 * (2 * h))
                 = m mod (2 * h) + 2 * h * (if Z.odd (m / (2 * h)) then 1 else 0)).
    { replace (2 * (2 * h)) with ((2 * h) * 2) by ring.
      rewrite Z.rem_mul_r by lia. now rewrite (Zmod_odd (m / (2 * h))). }
    assert (F3 : m mod (2 * h) = m mod h + h * (if Z.odd (m / h) then 1 else 0)).
    { replace (2 * h) with (h * 2) by ring.
      rewrite Z.rem_mul_r by lia. now rewrite (Zmod_odd (m / h)). }
    pose proof (Z.mod_pos_bound m (2 * h) ltac:(lia)) as B1.
    pose proof (Z.mod_pos_bound m h ltac:(lia)) as B0.
    rewrite F1, F2. f_equal.
    + destruct (Z.odd (m / (2 * h)));
        match goal with |- _ = (?a <=? ?b) => destruct (Z.leb_spec a b) end;
        try reflexivity; lia.
    + rewrite F3 in *. destruct (Z.odd (m / h));
        match goal with |- (?a <=? ?b) || _ = _ => destruct (Z.leb_spec a b) end;
        destruct (Z.eqb_spec (m mod h) 0);
        match goal with |- _ = negb (?a =? 0) => destruct (Z.eqb_spec a 0) end;
        cbn [negb orb]; try reflexivity; lia.
Qed.

Lemma digits2_unique : forall p n,
  2 ^ (n - 1) <= Z.pos p < 2 ^ n -> Z.pos (digits2_pos p) = n.
Proof.
  intros p n [H1 H2]. pose proof (digits2_bounds p) as [B1 B2].
  set (d := Z.pos (digits2_pos p)) in *.
  assert (Hn : 0 < n).
  { destruct (Z_lt_le_dec 0 n) as [H|H]; [exact H|].
    destruct (Z.eq_dec n 0) as [->|Hne]; [simpl in H2; lia|].
    rewrite Z.pow_neg_r in H2 by lia. lia. }
  destruct (Z.lt_trichotomy d n) as [H|[H|H]]; [|exact H|].
  - assert (2 ^ d <= 2 ^ (n - 1)) by (apply Z.pow_le_mono_r; lia). lia.
  - assert (2 ^ n <= 2 ^ (d - 1)) by (apply Z.pow_le_mono_r; lia). lia.
Qed.

(** The second shift of [binary_round_aux]: a mantissa of 53 digits is
    kept, [2^53] becomes [2^52] with the next exponent. *)
Lemma shr_fexp_renormalize : forall m e,
  2 ^ 52 <= m <= 2 ^ 53 -> -1074 <= e ->
  exists m' e', shr_fexp prec emax m e loc_Exact
                = ({| shr_m := Z.pos m'; shr_r := false; shr_s := false |}, e') /\
    digits2_pos m' = 53%positive /\ e <= e' <= e + 1 /\
    Z.pos m' * 2 ^ (e' - e) = m.
Proof.
  intros m e Hm He. destruct m as [|p|p]; try lia.
  unfold shr_fexp. cbn [Zdigits2 shr_record_of_loc].
  destruct (Z.eq_dec (Z.pos p) (2 ^ 53)) as [E|E].
  - injection E as ->. change (digits2_pos 9007199254740992) with 54%positive.
    rewrite fexp_normal by lia.
    replace (54 + e - 53 - e) with 1 by lia.
    exists 4503599627370496%positive, (e + 1). split; [reflexivity|].
    split; [reflexivity|]. split; [lia|].
    replace (e + 1 - e) with 1 by lia. reflexivity.
  - assert (D : Z.pos (digits2_pos p) = 53) by (apply digits2_unique; lia).
    rewrite D, fexp_normal by lia.
    replace (53 + e - 53 - e) with 0 by lia.
    exists p, e. split; [reflexivity|]. split; [lia|]. split; [lia|].
    rewrite Z.sub_diag. simpl. lia.
Qed.

(** The rounding decision of [binary_round_aux] after a shift by [k >= 1]
    digits is the one of [roundPos]. *)
Lemma round_nearest_even_shifted : forall k z, 0 <= z -> 1 <= k ->
  let q := z / 2 ^ k in
  let r := z mod 2 ^ k in
  round_nearest_even q
    (loc_of_shr_record {| shr_m := q;
                          shr_r := 2 ^ (k - 1) <=? r;
                          shr_s := negb (z mod 2 ^ (k - 1) =? 0) |})
  = if (2 ^ k <? 2 * r) || ((2 * r =? 2 ^ k) && Z.odd q) then q + 1 else q.
Proof.
  intros k z Hz Hk q r. unfold r. clearbody q. clear r.
  assert (E : 2 ^ k = 2 * 2 ^ (k - 1)).
  { rewrite <- Z.pow_succ_r by lia. f_equal. lia. }
  rewrite E. clear E.
  assert (P : 0 < 2 ^ (k - 1)) by (apply Z.pow_pos_nonneg; lia).
  set (h := 2 ^ (k - 1)) in *.
  assert (F : z mod (2 * h) = z mod h + h * (if Z.odd (z / h) then 1 else 0)).
  { replace (2 * h) with (h * 2) by ring.
    rewrite Z.rem_mul_r by lia. now rewrite (Zmod_odd (z / h)). }
  pose proof (Z.mod_pos_bound z h ltac:(lia)) as B.
  assert (Ev : Z.even q = negb (Z.odd q)) by (symmetry; apply Z.negb_odd).
  rewrite F.
  destruct (Z.odd (z / h)), (Z.odd q);
    match goal with |- context [?a <=? ?b] => destruct (Z.leb_spec a b) end;
    match goal with |- context [?a <? ?b] => destruct (Z.ltb_spec a b) end;
    destruct (Z.eqb_spec (z mod h) 0);
    match goal with |- context [?a =? 2 * h] => destruct (Z.eqb_spec a (2 * h)) end;
    cbn [negb orb andb loc_of_shr_record round_nearest_even];
    rewrite ?Ev; cbn [negb]; try reflexivity; lia.
Qed.


(** A mantissa of [53 + k] digits, [k >= 1], is rounded to 53 digits. *)
Lemma binary_round_aux_long : forall s p e k,
  1 <= k -> 2 ^ (52 + k) <= Z.pos p < 2 ^ (53 + k) ->
  -1074 <= e + k -> e + k + 1 <= emax - prec ->
  exists m e',
    binary_round_aux prec emax s (Z.pos p) e loc_Exact = S754_finite s m e' /\
    digits2_pos m = 53%positive /\ e + k <= e' <= e + k + 1 /\
    Z.pos m * 2 ^ (e' - e) = roundAt k (Z.pos p).
Proof.
  intros s p e k Hk Hp Hlo Hhi.
  assert (D : Z.pos (digits2_pos p) = 53 + k).
  { apply digits2_unique. replace (53 + k - 1) with (52 + k) by lia. exact Hp. }
  unfold binary_round_aux, shr_fexp at 1. cbn [Zdigits2 shr_record_of_loc].
  rewrite D, fexp_normal by lia.
  replace (53 + k + e - 53 - e) with k by lia.
  destruct k as [|kp|kp]; try lia.
  cbn [shr]. rewrite iter_pos_nat.
  destruct (Pos.to_nat kp) as [|k'] eqn:Ek'; [lia|].
  rewrite shr_iter by lia.
  assert (Hk0 : Z.of_nat (S k') = Z.pos kp) by lia.
  assert (Hk1 : Z.of_nat k' = Z.pos kp - 1) by lia.
  rewrite Hk0, Hk1. cbn [shr_m].
  rewrite (round_nearest_even_shifted (Z.pos kp) (Z.pos p)) by lia.
  pose proof (quot_53_digits (Z.pos kp) (Z.pos p) ltac:(lia) Hp) as Hq.
  unfold roundAt.
  set (m1 := if (2 ^ Z.pos kp <? 2 * (Z.pos p mod 2 ^ Z.pos kp))
                || ((2 * (Z.pos p mod 2 ^ Z.pos kp) =? 2 ^ Z.pos kp)
                    && Z.odd (Z.pos p / 2 ^ Z.pos kp))
             then Z.pos p / 2 ^ Z.pos kp + 1 else Z.pos p / 2 ^ Z.pos kp).
  assert (Hm1 : 2 ^ 52 <= m1 <= 2 ^ 53).
  { unfold m1. destruct (_ || _); lia. }
  destruct (shr_fexp_renormalize m1 (e + Z.pos kp) Hm1 ltac:(lia))
    as (m' & e' & -> & Hd' & He' & Hv).
  cbn [shr_m].
  destruct (Z.leb_spec e' (emax - prec)) as [_|E]; [|lia].
  exists m', e'. split; [reflexivity|]. split; [exact Hd'|]. split; [lia|].
  rewrite <- Hv.
  replace (e' - e) with ((e' - (e + Z.pos kp)) + Z.pos kp) by lia.
  rewrite Z.pow_add_r by lia. ring.
Qed.

(** Integers from [2^53] on are rounded to 53 digits. *)
Lemma binary_round_large : forall s p, 2 ^ 53 <= Z.pos p < 2 ^ 63 ->
  exists m e,
    binary_round prec emax s p 0 = S754_finite s m e /\
    digits2_pos m = 53%positive /\ 1 <= e <= 11 /\
    Z.pos m * 2 ^ e = roundPos (Z.pos p).
Proof.
  intros s p Hp. unfold binary_round.
  pose proof (digits2_bounds p) as Hd.
  set (d := Z.pos (digits2_pos p)) in *.
  assert (Hd54 : 54 <= d <= 63).
  { split.
    - destruct (Z_lt_le_dec d 54) as [H|H]; [|exact H].
      assert (2 ^ d <= 2 ^ 53) by (apply Z.pow_le_mono_r; lia). lia.
    - destruct (Z_lt_le_dec 63 d) as [H|H]; [|exact H].
      assert (2 ^ 63 <= 2 ^ (d - 1)) by (apply Z.pow_le_mono_r; lia). lia. }
  rewrite Z.add_0_r, fexp_normal by lia.
  unfold shl_align. rewrite Z.sub_0_r.
  destruct (d - 53) as [|kp|kp] eqn:Ek; try lia.
  assert (Hw : 2 ^ (52 + Z.pos kp) <= Z.pos p < 2 ^ (53 + Z.pos kp)).
  { replace (52 + Z.pos kp) with (d - 1) by lia.
    replace (53 + Z.pos kp) with d by lia. exact Hd. }
  destruct (binary_round_aux_long s p 0 (Z.pos kp) ltac:(lia) Hw ltac:(lia)
              ltac:(unfold emax, prec; lia))
    as (m & e' & Hr & Hdm & He' & Hv).
  exists m, e'. split; [exact Hr|]. split; [exact Hdm|]. split; [lia|].
  rewrite Z.sub_0_r in Hv. rewrite Hv. symmetry. apply roundPos_at; [lia|exact Hw].
Qed.

(** [float64] of a non-negative integer below [2^63] is the integer
    rounded to 53 digits. *)
Lemma of_uint63_round : forall n, 0 <= n < 2 ^ 63 ->
  halves (-52) (Prim2SF (of_uint63 (Uint63.of_Z n))) (2 * roundPos n) /\
  (0 < n -> exists m e, Prim2SF (of_uint63 (Uint63.of_Z n)) = S754_finite false m e).
Proof.
  intros n Hn. destruct (Z_lt_le_dec n (2 ^ 53)) as [Hs|Hl].
  - rewrite roundPos_small by lia. apply of_uint63_halves. lia.
  - rewrite of_uint63_spec, to_Z_of_Z_small by lia.
    destruct n as [|p|p]; try lia.
    destruct (binary_round_large false p ltac:(lia)) as (m & e & Hr & Hd & He & Hv).
    cbn [binary_normalize]. rewrite Hr. split; [|intros _; eauto].
    split; [split; [exact Hd|lia]|].
    cbn [scaled]. rewrite <- Hv.
    rewrite (Z.pow_add_r 2 e 1074) by lia. rewrite pow_1074. ring.
Qed.

Lemma of_int_round : forall z, Int64.in_range z ->
  halves (-52) (Prim2SF (Float64.of_int z)) (2 * round53 z).
Proof.
  intros z [Hlo Hhi]. unfold Int64.min_int, Int64.max_int in *.
  unfold Float64.of_int.
  destruct (Z.eqb_spec z Int64.min_int) as [E|Hne].
  { subst z. split; [split; [reflexivity|split; discriminate]|reflexivity]. }
  unfold Int64.min_int in Hne. unfold round53.
  destruct (Z.ltb_spec z 0) as [Hneg|Hpos].
  - rewrite FloatAxioms.opp_spec.
    destruct (of_uint63_round (- z) ltac:(lia)) as [[Hn Hs] Hf].
    destruct (Hf ltac:(lia)) as (m & e & Hx). rewrite Hx in *.
    cbn [SFopp negb]. split; [exact Hn|].
    cbn [scaled] in *. lia.
  - apply of_uint63_round. lia.
Qed.

(** ** The fields of a point *)


Lemma half_facts : forall n, 0 <= n ->
  Z.quot n 2 = n / 2 /\ Z.rem n 2 = n mod 2 /\
  n = 2 * (n / 2) + n mod 2 /\ 0 <= n mod 2 < 2.
Proof.
  intros n Hn. rewrite Z.quot_div_nonneg, Z.rem_mod_nonneg by lia.
  pose proof (Z.div_mod n 2 ltac:(lia)). pose proof (Z.mod_pos_bound n 2 ltac:(lia)).
  auto.
Qed.

(** What [point] stores for an accumulator that holds prices. *)
Lemma point_fields : forall a trimPct,
  prices a <> [] ->
  let ps := trimSorted (prices a) trimPct in
  let n := len ps in
  let h := n / 2 in
  let pt := point a trimPct in
  ScanID pt = scanID a /\ TS pt = ts a /\ N pt = n /\
  Min pt = Float64.of_int (index ps 0) /\
  Max pt = Float64.of_int (index ps (n - 1)) /\
  Median pt = medianSorted ps /\
  Q1 pt = (if n >? 1 then medianSorted (slice ps 0 h) else medianSorted ps) /\
  Q3 pt = (if n >? 1 then medianSorted (slice ps (n - h) n) else medianSorted ps) /\
  Mean pt = fst (meanLoop binary64 ps) /\
  Stddev pt = Float64.Sqrt (snd (meanLoop binary64 ps) / Float64.of_int n)%float.
Proof.
  intros a trimPct Hne ps n h pt.
  pose proof (trimSorted_nonempty (prices a) trimPct Hne) as Hn. fold ps n in Hn.
  destruct (half_facts n ltac:(lia)) as (Hq & Hr & Hdm & Hmb). fold h in Hq, Hdm.
  unfold pt, point.
  destruct (Z.eqb_spec (len (prices a)) 0) as [E|_].
  { apply len_nil_iff in E. contradiction. }
  fold ps n. destruct (Z.eqb_spec n 0) as [E|_]; [lia|].
  destruct (meanLoop binary64 ps) as [mean m2].
  rewrite Hq, Hr.
  destruct (Z.gtb_spec n 0) as [_|E]; [|lia].
  destruct (Z.gtb_spec n 1) as [H1|H1].
  - assert (Hh : 1 <= h) by lia.
    destruct (Z.eqb_spec (n mod 2) 0) as [Ev|Od].
    + rewrite !len_slice by (fold n; lia).
      destruct (Z.gtb_spec (h - 0) 0) as [_|E]; [|lia].
      destruct (Z.gtb_spec (n - h) 0) as [_|E]; [|lia].
      cbn [ScanID TS N Min Max Median Q1 Q3 Mean Stddev fst snd].
      replace (n - h) with h by lia. repeat split; reflexivity.
    + rewrite !len_slice by (fold n; lia).
      destruct (Z.gtb_spec (h - 0) 0) as [_|E]; [|lia].
      destruct (Z.gtb_spec (n - (h + 1)) 0) as [_|E]; [|lia].
      cbn [ScanID TS N Min Max Median Q1 Q3 Mean Stddev fst snd].
      replace (n - h) with (h + 1) by lia. repeat split; reflexivity.
  - cbn [ScanID TS N Min Max Median Q1 Q3 Mean Stddev fst snd].
    repeat split; reflexivity.
Qed.

Lemma index_slice : forall l a b i,
  0 <= a -> 0 <= i -> i < b - a -> b <= len l ->
  index (slice l a b) i = index l (a + i).
Proof.
  intros l a b i Ha Hi Hlt Hb. unfold index, slice, len in *.
  rewrite nth_firstn.
  destruct (Nat.ltb_spec (Z.to_nat i) (Z.to_nat (b - a))) as [_|E]; [|lia].
  rewrite nth_skipn. f_equal. lia.
Qed.

Lemma In_slice : forall [A : Type] (l : list A) a b x, In x (slice l a b) -> In x l.
Proof.
  intros A l a b x H. unfold slice in H.
  apply (In_nth _ _ x) in H. destruct H as (k & Hk & <-).
  rewrite length_firstn in Hk. rewrite nth_firstn.
  destruct (Nat.ltb_spec k (Z.to_nat (b - a))) as [_|E]; [|lia].
  rewrite nth_skipn. apply nth_In. rewrite length_skipn in Hk. lia.
Qed.

Lemma Forall_slice : forall [A : Type] (P : A -> Prop) (l : list A) a b,
  Forall P l -> Forall P (slice l a b).
Proof.
  intros A P l a b H. rewrite Forall_forall in *. intros x Hx.
  apply H. eapply In_slice. exact Hx.
Qed.

(** ** The median as a rounded half *)

Lemma halves_weaken : forall lo lo' x t, lo' <= lo -> halves lo x t -> halves lo' x t.
Proof.
  intros lo lo' x t Hlo [Hn Hs]. split; [|exact Hs].
  destruct x as [s| | |s m e]; cbn [normalOrZero] in *; auto.
  destruct Hn as [Hd He]. split; [exact Hd|lia].
Qed.

Lemma exactRange_sum : forall a b, exactRange a -> exactRange b ->
  Int64.add a b = a + b /\ - 2 ^ 53 <= a + b <= 2 ^ 53.
Proof.
  intros a b Ha Hb. unfold exactRange in *. split; [|lia].
  apply wrap_id. unfold Int64.in_range, Int64.min_int, Int64.max_int. lia.
Qed.

Lemma medianSorted_halves : forall l,
  Forall exactRange l ->
  halves (-53) (Prim2SF (medianSorted l)) (twiceMedian l).
Proof.
  intros l Hall. unfold medianSorted, twiceMedian.
  destruct (Z.eqb_spec (len l) 0) as [E|E].
  { split; reflexivity. }
  pose proof (len_nonneg l) as Hn.
  destruct (half_facts (len l) Hn) as (Hq & Hr & Hdm & Hmb).
  rewrite Hq, Hr. rewrite Forall_forall in Hall.
  rewrite (Zmod_odd (len l)) in *.
  destruct (Z.odd (len l)); cbn [Z.eqb].
  - apply halves_weaken with (lo := -52); [lia|].
    apply of_int_halves.
    assert (exactRange (index l (len l / 2))) as Hx by (apply Hall, index_In; lia).
    unfold exactRange in Hx. lia.
  - assert (exactRange (index l (len l / 2 - 1))) as Ha by (apply Hall, index_In; lia).
    assert (exactRange (index l (len l / 2))) as Hb by (apply Hall, index_In; lia).
    destruct (exactRange_sum _ _ Ha Hb) as [Hs Hr'].
    rewrite Hs. apply (div2_halves (-52)); [lia|].
    apply of_int_halves. exact Hr'.
Qed.

Lemma halfRange_sum : forall a b, halfRange a -> halfRange b ->
  Int64.add a b = a + b /\ Int64.in_range (a + b).
Proof.
  intros a b Ha Hb. unfold halfRange in *.
  assert (R : Int64.in_range (a + b)).
  { unfold Int64.in_range, Int64.min_int, Int64.max_int. lia. }
  split; [apply wrap_id; exact R|exact R].
Qed.

Lemma halfRange_in_range : forall a, halfRange a -> Int64.in_range a.
Proof.
  intros a Ha. unfold halfRange in Ha.
  unfold Int64.in_range, Int64.min_int, Int64.max_int. lia.
Qed.

(** The median of prices whose sums do not wrap is half of twice the
    median rounded to 53 digits. *)
Lemma medianSorted_round : forall l,
  Forall halfRange l ->
  halves (-53) (Prim2SF (medianSorted l)) (round53 (twiceMedian l)).
Proof.
  intros l Hall. unfold medianSorted, twiceMedian.
  destruct (Z.eqb_spec (len l) 0) as [E|E].
  { split; reflexivity. }
  pose proof (len_nonneg l) as Hn.
  destruct (half_facts (len l) Hn) as (Hq & Hr & Hdm & Hmb).
  rewrite Hq, Hr. rewrite Forall_forall in Hall.
  rewrite (Zmod_odd (len l)) in *.
  destruct (Z.odd (len l)); cbn [Z.eqb].
  - apply halves_weaken with (lo := -52); [lia|].
    rewrite round53_double. apply of_int_round, halfRange_in_range.
    apply Hall, index_In; lia.
  - assert (halfRange (index l (len l / 2 - 1))) as Ha by (apply Hall, index_In; lia).
    assert (halfRange (index l (len l / 2))) as Hb by (apply Hall, index_In; lia).
    destruct (halfRange_sum _ _ Ha Hb) as [Hs Hr'].
    rewrite Hs. apply (div2_halves (-52)); [lia|].
    apply of_int_round. exact Hr'.
Qed.

(** The median of a stretch of a sorted list lies between the ends of
    the stretch. *)
Lemma twiceMedian_slice_bounds : forall l a b,
  sorted l -> 0 <= a -> a < b -> b <= len l ->
  2 * index l a <= twiceMedian (slice l a b) <= 2 * index l (b - 1).
Proof.
  intros l a b Hs Ha Hab Hb. unfold twiceMedian.
  rewrite len_slice by lia.
  destruct (Z.eqb_spec (b - a) 0) as [E|_]; [lia|].
  destruct (half_facts (b - a) ltac:(lia)) as (_ & _ & Hdm & Hmb).
  rewrite (Zmod_odd (b - a)) in *.
  set (h := (b - a) / 2) in *.
  destruct (Z.odd (b - a)).
  - rewrite index_slice by lia.
    pose proof (sorted_index_le l a (a + h) Hs ltac:(lia) ltac:(lia) ltac:(lia)).
    pose proof (sorted_index_le l (a + h) (b - 1) Hs ltac:(lia) ltac:(lia) ltac:(lia)).
    lia.
  - rewrite !index_slice by lia.
    pose proof (sorted_index_le l a (a + (h - 1)) Hs ltac:(lia) ltac:(lia) ltac:(lia)).
    pose proof (sorted_index_le l (a + (h - 1)) (a + h) Hs ltac:(lia) ltac:(lia) ltac:(lia)).
    pose proof (sorted_index_le l (a + h) (b - 1) Hs ltac:(lia) ltac:(lia) ltac:(lia)).
    lia.
Qed.

Lemma slice_all : forall [A : Type] (l : list A), slice l 0 (len l) = l.
Proof.
  intros A l. unfold slice, len. rewrite Z.sub_0_r, Nat2Z.id. simpl.
  apply firstn_all.
Qed.

(** The median of a sorted list lies between the elements next to the
    middle. *)
Lemma twiceMedian_middle : forall l,
  sorted l -> 2 <= len l ->
  2 * index l (len l / 2 - 1) <= twiceMedian l <= 2 * index l (len l - len l / 2).
Proof.
  intros l Hs Hn. unfold twiceMedian.
  destruct (Z.eqb_spec (len l) 0) as [E|_]; [lia|].
  destruct (half_facts (len l) ltac:(lia)) as (_ & _ & Hdm & Hmb).
  rewrite (Zmod_odd (len l)) in *.
  set (n := len l) in *. set (h := n / 2) in *.
  destruct (Z.odd n).
  - pose proof (sorted_index_le l (h - 1) h Hs ltac:(lia) ltac:(lia) ltac:(fold n; lia)).
    pose proof (sorted_index_le l h (n - h) Hs ltac:(lia) ltac:(lia) ltac:(fold n; lia)).
    lia.
  - replace (n - h) with h by lia.
    pose proof (sorted_index_le l (h - 1) h Hs ltac:(lia) ltac:(lia) ltac:(fold n; lia)).
    lia.
Qed.

(** ** Trimming keeps a stretch of the list *)

Lemma trimSorted_is_slice : forall values trimPct,
  exists a b, trimSorted values trimPct = slice values a b.
Proof.
  intros values trimPct. unfold trimSorted.
  destruct (trimPct <=? 0).
  { exists 0, (len values). now rewrite slice_all. }
  destruct (len values =? 0).
  { exists 0, (len values). now rewrite slice_all. }
  eauto.
Qed.

Lemma StronglySorted_app_l : forall [A : Type] (R : A -> A -> Prop) l1 l2,
  StronglySorted R (l1 ++ l2) -> StronglySorted R l1.
Proof.
  intros A R l1 l2. induction l1 as [|x l1 IH]; simpl; intros H.
  - constructor.
  - inversion H as [|? ? Hs Hx]; subst. constructor; [apply IH, Hs|].
    apply Forall_app in Hx. tauto.
Qed.

Lemma sorted_slice : forall l a b, sorted l -> sorted (slice l a b).
Proof.
  intros l a b Hs. unfold sorted in *.
  apply Sorted_StronglySorted in Hs; [|exact Z.le_trans].
  apply StronglySorted_Sorted. unfold slice.
  rewrite <- (firstn_skipn (Z.to_nat a) l) in Hs.
  apply StronglySorted_app in Hs. destruct Hs as [Hs _].
  rewrite <- (firstn_skipn (Z.to_nat (b - a)) (skipn (Z.to_nat a) l)) in Hs.
  eapply StronglySorted_app_l. exact Hs.
Qed.

Lemma trimSorted_sorted : forall values trimPct,
  sorted values -> sorted (trimSorted values trimPct).
Proof.
  intros values trimPct Hs.
  destruct (trimSorted_is_slice values trimPct) as (a & b & ->).
  now apply sorted_slice.
Qed.

Lemma trimSorted_Forall : forall (P : Z -> Prop) values trimPct,
  Forall P values -> Forall P (trimSorted values trimPct).
Proof.
  intros P values trimPct H.
  destruct (trimSorted_is_slice values trimPct) as (a & b & ->).
  now apply Forall_slice.
Qed.

(** C1, as the code has it: for a non-empty sorted price list whose
    prices lie in [[-2^62, 2^62)] (so that no sum of two prices wraps),
    the point satisfies [min <= q1 <= median <= q3 <= max] in the order
    of [float64]. *)
Theorem point_order : forall (a : scanAccumulator) (trimPct : Z),
  prices a <> [] -> sorted (prices a) -> Forall halfRange (prices a) ->
  let pt := point a trimPct in
  (Min pt <=? Q1 pt)%float = true /\
  (Q1 pt <=? Median pt)%float = true /\
  (Median pt <=? Q3 pt)%float = true /\
  (Q3 pt <=? Max pt)%float = true.
Proof.
  intros a trimPct Hne Hsorted Hrange pt.
  destruct (point_fields a trimPct Hne)
    as (_ & _ & _ & Hmin & Hmax & Hmed & Hq1 & Hq3 & _).
  fold pt in Hmin, Hmax, Hmed, Hq1, Hq3.
  set (ps := trimSorted (prices a) trimPct) in *.
  set (n := len ps) in *. set (h := n / 2) in *.
  assert (Hn : 1 <= n) by (apply trimSorted_nonempty; exact Hne).
  assert (Hs : sorted ps) by (apply trimSorted_sorted; exact Hsorted).
  assert (Hr : Forall halfRange ps) by (apply trimSorted_Forall; exact Hrange).
  destruct (half_facts n ltac:(lia)) as (_ & _ & Hdm & Hmb). fold h in Hdm.
  assert (Hel : forall i, 0 <= i < n ->
            halves (-53) (Prim2SF (Float64.of_int (index ps i)))
                   (round53 (2 * index ps i))).
  { intros i Hi. apply halves_weaken with (lo := -52); [lia|].
    rewrite round53_double. apply of_int_round, halfRange_in_range.
    rewrite Forall_forall in Hr. apply Hr, index_In. exact Hi. }
  pose proof (medianSorted_round ps Hr) as Hm.
  pose proof (twiceMedian_slice_bounds ps 0 n Hs ltac:(lia) ltac:(lia) ltac:(lia)) as Bm.
  rewrite slice_all in Bm.
  rewrite Hmin, Hmax, Hmed, Hq1, Hq3. clear Hmin Hmax Hmed Hq1 Hq3.
  destruct (Z.gtb_spec n 1) as [H1|H1].
  - pose proof (medianSorted_round (slice ps 0 h) (Forall_slice _ _ _ _ Hr)) as Hl.
    pose proof (medianSorted_round (slice ps (n - h) n) (Forall_slice _ _ _ _ Hr)) as Hu.
    pose proof (twiceMedian_slice_bounds ps 0 h Hs ltac:(lia) ltac:(lia) ltac:(fold n; lia)) as Bl.
    pose proof (twiceMedian_slice_bounds ps (n - h) n Hs ltac:(lia) ltac:(lia) ltac:(fold n; lia)) as Bu.
    pose proof (twiceMedian_middle ps Hs ltac:(fold n; lia)) as Bmid.
    fold n h in Bmid.
    rewrite (halves_leb (-53) (-53) _ _ _ _ ltac:(lia) ltac:(lia) (Hel 0 ltac:(lia)) Hl).
    rewrite (halves_leb (-53) (-53) _ _ _ _ ltac:(lia) ltac:(lia) Hl Hm).
    rewrite (halves_leb (-53) (-53) _ _ _ _ ltac:(lia) ltac:(lia) Hm Hu).
    rewrite (halves_leb (-53) (-53) _ _ _ _ ltac:(lia) ltac:(lia) Hu (Hel (n - 1) ltac:(lia))).
    repeat split; apply Z.leb_le, round53_mono; lia.
  - rewrite (halves_leb (-53) (-53) _ _ _ _ ltac:(lia) ltac:(lia) (Hel 0 ltac:(lia)) Hm).
    rewrite (halves_leb (-53) (-53) _ _ _ _ ltac:(lia) ltac:(lia) Hm Hm).
    rewrite (halves_leb (-53) (-53) _ _ _ _ ltac:(lia) ltac:(lia) Hm (Hel (n - 1) ltac:(lia))).
    repeat split; apply Z.leb_le, round53_mono; lia.
Qed.

Lemma point_order_witness :
  let pt := point {| scanID := 1; ts := 100; prices := [10; 20; 30] |} 0 in
  (Min pt <=? Q1 pt)%float = true /\
  (Q1 pt <=? Median pt)%float = true /\
  (Median pt <=? Q3 pt)%float = true /\
  (Q3 pt <=? Max pt)%float = true.
Proof.
  apply (point_order {| scanID := 1; ts := 100; prices := [10; 20; 30] |} 0).
  - discriminate.
  - repeat constructor; simpl; lia.
  - repeat constructor; vm_compute; discriminate.
Defined.

(** C1 as stated fails where the sum of the two middle prices wraps: for
    the sorted prices [2^62; 2^62] the median is [-2^62], below the first
    quartile and the minimum, which are [2^62]. *)
Lemma point_order_wraps :
  let pt := point {| scanID := 1; ts := 100; prices := [2 ^ 62; 2 ^ 62] |} 0 in
  sorted [2 ^ 62; 2 ^ 62] /\
  Min pt = Float64.of_int (2 ^ 62) /\
  Q1 pt = Float64.of_int (2 ^ 62) /\
  Median pt = Float64.of_int (- 2 ^ 62) /\
  (Q1 pt <=? Median pt)%float = false.
Proof.
  split; [repeat constructor; simpl; lia|].
  vm_compute. repeat split; reflexivity.
Qed.

(** ** Quartiles *)

Lemma toR_halves : forall lo f t, halves lo (Prim2SF f) t -> toR f = (IZR t / 2)%R.
Proof.
  intros lo f t [_ Hs]. unfold toR. rewrite Hs, pow_1074, !mult_IZR.
  assert (H : IZR (2 ^ 1073) <> 0%R).
  { apply not_0_IZR. pose proof (Z.pow_pos_nonneg 2 1073 ltac:(lia) ltac:(lia)). lia. }
  set (u := IZR (2 ^ 1073)) in *. clearbody u. field. exact H.
Qed.

Lemma medianSorted_cases : forall l,
  medianSorted l =
  if len l =? 0 then 0%float
  else if Z.odd (len l) then Float64.of_int (index l (len l / 2))
  else (Float64.of_int (Int64.add (index l (len l / 2 - 1)) (index l (len l / 2))) / 2)%float.
Proof.
  intros l. unfold medianSorted.
  destruct (Z.eqb_spec (len l) 0) as [E|E]; [reflexivity|].
  destruct (half_facts (len l) (len_nonneg l)) as (Hq & Hr & _ & _).
  rewrite Hq, Hr, (Zmod_odd (len l)).
  destruct (Z.odd (len l)); reflexivity.
Qed.

Lemma skipn_cons_nth : forall (l : list Z) k,
  (k < length l)%nat -> skipn k l = nth k l 0 :: skipn (S k) l.
Proof.
  induction l as [|x l IH]; intros [|k] H; simpl in *; try lia; auto.
  apply IH. lia.
Qed.

(** The two halves and the middle element make up the list. *)
Lemma halves_split : forall l,
  let n := len l in
  let h := n / 2 in
  l = slice l 0 h ++ (if Z.odd n then [index l h] else []) ++ slice l (n - h) n.
Proof.
  intros l n h. pose proof (len_nonneg l) as Hn. fold n in Hn.
  destruct (half_facts n Hn) as (_ & _ & Hdm & Hmb). fold h in Hdm.
  rewrite (Zmod_odd n) in *.
  assert (H1 : slice l 0 h = firstn (Z.to_nat h) l).
  { unfold slice. rewrite Z.sub_0_r. reflexivity. }
  remember (Z.odd n) as odd eqn:Eo.
  assert (H2 : slice l (n - h) n = skipn (Z.to_nat (n - h)) l).
  { apply slice_tail. destruct odd; lia. }
  rewrite H1, H2. destruct odd.
  - replace (Z.to_nat (n - h)) with (S (Z.to_nat h)) by lia.
    unfold index. cbn [app]. rewrite <- skipn_cons_nth by (unfold n, len in *; lia).
    symmetry. apply firstn_skipn.
  - replace (n - h) with h by lia. cbn [app]. symmetry. apply firstn_skipn.
Qed.

(** Where the sum of the two middle prices leaves the 64 bit range, the
    wrapped sum has the opposite sign: the median is not their average. *)
Lemma medianSorted_not_average : forall l,
  len l <> 0 -> Z.odd (len l) = false ->
  Int64.in_range (index l (len l / 2 - 1)) -> Int64.in_range (index l (len l / 2)) ->
  ~ Int64.in_range (index l (len l / 2 - 1) + index l (len l / 2)) ->
  toR (medianSorted l)
  = (IZR (round53 (Int64.wrap (index l (len l / 2 - 1) + index l (len l / 2)))) / 2)%R /\
  toR (medianSorted l) <> (IZR (twiceMedian l) / 2)%R.
Proof.
  intros l Hn Hodd Ha Hb Hw.
  set (a := index l (len l / 2 - 1)) in *. set (b := index l (len l / 2)) in *.
  assert (Ht : twiceMedian l = a + b).
  { unfold twiceMedian. destruct (Z.eqb_spec (len l) 0); [contradiction|].
    rewrite Hodd. reflexivity. }
  assert (Hm : medianSorted l = (Float64.of_int (Int64.add a b) / 2)%float).
  { rewrite medianSorted_cases. destruct (Z.eqb_spec (len l) 0); [contradiction|].
    rewrite Hodd. reflexivity. }
  unfold Int64.add in Hm.
  pose proof (wrap_in_range (a + b)) as Hr.
  set (w := Int64.wrap (a + b)) in *.
  pose proof (of_int_round w Hr) as H.
  apply div2_halves in H; [|lia]. rewrite <- Hm in H.
  apply toR_halves in H.
  split; [exact H|]. rewrite H, Ht. intros E.
  assert (E' : IZR (round53 w) = IZR (a + b)) by lra.
  apply eq_IZR in E'.
  assert (R0 : round53 0 = 0) by reflexivity.
  unfold Int64.in_range, Int64.min_int, Int64.max_int in *.
  destruct (Z_lt_le_dec (a + b) 0) as [C|C].
  - assert (0 <= w).
    { unfold w, Int64.wrap.
      replace (a + b + 2 ^ 63) with (a + b + 2 ^ 64 + 2 ^ 63 + -1 * 2 ^ 64) by ring.
      rewrite Z.mod_add by lia. rewrite Z.mod_small by lia. lia. }
    pose proof (round53_mono 0 w ltac:(lia)). lia.
  - assert (w < 0).
    { unfold w, Int64.wrap.
      replace (a + b + 2 ^ 63) with (a + b - 2 ^ 63 + 1 * 2 ^ 64) by ring.
      rewrite Z.mod_add by lia. rewrite Z.mod_small by lia. lia. }
    pose proof (round53_mono w 0 ltac:(lia)). lia.
Qed.

(** C4, as the code has it: the median of the trimmed prices, and for
    more than one price the medians of the first and of the last [n/2]
    of them, which leave out the middle one when [n] is odd.  The median is
    the middle element converted to [float64], or half the converted sum
    of the two middle elements.  The sum is taken in 64 bit integers:
    for prices in [[-2^62, 2^62)] it does not wrap and the result is the
    median rounded to 53 digits, which is the median itself for prices
    in [[-2^52, 2^52]]; where the sum of the two middle prices wraps, the
    result is half the wrapped sum, rounded, and never their average. *)
Theorem point_quartiles : forall (a : scanAccumulator) (trimPct : Z),
  prices a <> [] ->
  let ps := trimSorted (prices a) trimPct in
  let n := len ps in
  let h := n / 2 in
  let pt := point a trimPct in
  Median pt = medianSorted ps /\
  (if n >? 1
   then Q1 pt = medianSorted (slice ps 0 h) /\
        Q3 pt = medianSorted (slice ps (n - h) n) /\
        len (slice ps 0 h) = h /\ len (slice ps (n - h) n) = h /\
        ps = slice ps 0 h ++ (if Z.odd n then [index ps h] else [])
                          ++ slice ps (n - h) n
   else Q1 pt = Median pt /\ Q3 pt = Median pt) /\
  (forall l : list Z,
     medianSorted l =
     if len l =? 0 then 0%float
     else if Z.odd (len l) then Float64.of_int (index l (len l / 2))
     else (Float64.of_int (Int64.add (index l (len l / 2 - 1))
                                     (index l (len l / 2))) / 2)%float) /\
  (forall l : list Z,
     Forall halfRange l ->
     toR (medianSorted l) = (IZR (round53 (twiceMedian l)) / 2)%R) /\
  (forall l : list Z,
     Forall exactRange l -> toR (medianSorted l) = (IZR (twiceMedian l) / 2)%R) /\
  (forall l : list Z,
     len l <> 0 -> Z.odd (len l) = false ->
     Int64.in_range (index l (len l / 2 - 1)) ->
     Int64.in_range (index l (len l / 2)) ->
     ~ Int64.in_range (index l (len l / 2 - 1) + index l (len l / 2)) ->
     toR (medianSorted l)
     = (IZR (round53 (Int64.wrap (index l (len l / 2 - 1) + index l (len l / 2)))) / 2)%R /\
     toR (medianSorted l) <> (IZR (twiceMedian l) / 2)%R).
Proof.
  intros a trimPct Hne ps n h pt.
  destruct (point_fields a trimPct Hne)
    as (_ & _ & _ & _ & _ & Hmed & Hq1 & Hq3 & _).
  fold ps n h pt in Hmed, Hq1, Hq3.
  assert (Hn : 1 <= n) by (apply trimSorted_nonempty; exact Hne).
  destruct (half_facts n ltac:(lia)) as (_ & _ & Hdm & Hmb). fold h in Hdm.
  split; [exact Hmed|]. split; [|split; [|split; [|split]]].
  - destruct (Z.gtb_spec n 1) as [H1|H1].
    + split; [exact Hq1|]. split; [exact Hq3|].
      rewrite !len_slice by (fold n; lia).
      split; [lia|]. split; [lia|]. apply halves_split.
    + rewrite Hmed. split; assumption.
  - exact medianSorted_cases.
  - intros l Hl. eapply toR_halves. apply medianSorted_round. exact Hl.
  - intros l Hl. eapply toR_halves. apply medianSorted_halves. exact Hl.
  - exact medianSorted_not_average.
Qed.

Lemma point_quartiles_witness :
  let pt := point {| scanID := 1; ts := 100; prices := [10; 20; 30; 40; 50] |} 0 in
  Median pt = 30%float /\ Q1 pt = 15%float /\ Q3 pt = 45%float.
Proof.
  destruct (point_quartiles {| scanID := 1; ts := 100; prices := [10; 20; 30; 40; 50] |} 0)
    as (H1 & H2 & _); [discriminate|].
  cbv zeta in H1, H2.
  change (len (trimSorted (prices {| scanID := 1; ts := 100; prices := [10; 20; 30; 40; 50] |}) 0) >? 1)
    with true in H2. cbv iota in H2.
  destruct H2 as (H2 & H3 & _).
  cbv zeta. rewrite H1, H2, H3. vm_compute. repeat split; reflexivity.
Defined.

(** C4 as stated fails where the sum of the two middle prices wraps: the
    median the code gives for [2^62; 2^62] is [-2^62]; their average is
    [2^62]. *)
Lemma medianSorted_wraps :
  medianSorted [2 ^ 62; 2 ^ 62] = Float64.of_int (- 2 ^ 62) /\
  toR (medianSorted [2 ^ 62; 2 ^ 62]) = IZR (- 2 ^ 62) /\
  toR (medianSorted [2 ^ 62; 2 ^ 62]) <> (IZR (2 ^ 62 + 2 ^ 62) / 2)%R.
Proof.
  assert (H : halves (-53) (Prim2SF (medianSorted [2 ^ 62; 2 ^ 62])) (2 * - 2 ^ 62)).
  { split; [split; [reflexivity|split; discriminate]|reflexivity]. }
  apply toR_halves in H.
  split; [reflexivity|].
  assert (E : toR (medianSorted [2 ^ 62; 2 ^ 62]) = IZR (- 2 ^ 62)).
  { rewrite H, mult_IZR. field. }
  split; [exact E|]. rewrite E.
  change (2 ^ 62 + 2 ^ 62) with (2 * 2 ^ 62). rewrite mult_IZR.
  change (- 2 ^ 62) with (- (2 ^ 62)). rewrite opp_IZR.
  assert (P : (0 < IZR (2 ^ 62))%R) by (apply IZR_lt; reflexivity).
  set (u := IZR (2 ^ 62)) in *. clearbody u. lra.
Qed.

(** ** The empty accumulator *)

(** C10: for every trim percentage, an accumulator without prices, be it
    fresh or just reset, is reduced to the point whose fields are all
    zero. *)
Theorem point_empty_buffer : forall (id t trimPct : Z) (a : scanAccumulator),
  point {| scanID := id; ts := t; prices := [] |} trimPct
  = {| ScanID := 0; TS := 0; N := 0; Min := 0; Q1 := 0; Q3 := 0; Max := 0;
       Mean := 0; Median := 0; Stddev := 0 |}
  /\ point (reset a id t) trimPct = seriesPoint_zero
  /\ trimSorted [] trimPct = [].
Proof.
  intros id t trimPct a. split; [reflexivity|]. split.
  - unfold point, reset, slice. cbn [prices]. rewrite firstn_O. reflexivity.
  - unfold trimSorted. destruct (trimPct <=? 0); reflexivity.
Qed.

(** ** The number of prices trimmed *)

Lemma In_upto : forall n i, 0 <= i < n -> In i (upto n).
Proof.
  intros n i Hi. unfold upto. apply in_map_iff. exists (Z.to_nat i).
  split; [lia|]. apply in_seq. lia.
Qed.

Lemma pct_table :
  forallb (fun p => pctOk (Float64.of_int (1 + p) / 100)) (upto 100) = true.
Proof. vm_compute. reflexivity. Qed.

(** [float64(trimPct) / 100.0] for a percentage: a normal number between
    [2^-7] and [1]. *)
Lemma pct_normal : forall p, 0 < p <= 100 ->
  exists m e, Prim2SF (Float64.of_int p / 100) = S754_finite false m e /\
              digits2_pos m = 53%positive /\ -59 <= e <= -52.
Proof.
  intros p Hp. pose proof pct_table as T. rewrite forallb_forall in T.
  specialize (T (p - 1) (In_upto 100 (p - 1) ltac:(lia))).
  replace (1 + (p - 1)) with p in T by lia.
  unfold pctOk in T.
  destruct (Prim2SF (Float64.of_int p / 100)) as [| | |s m e]; try discriminate.
  destruct s; [discriminate|].
  apply andb_prop in T. destruct T as [T T3].
  apply andb_prop in T. destruct T as [T1 T2].
  exists m, e. split; [reflexivity|]. split; lia.
Qed.

(** [float64(n)] for a length below [2^53]. *)
Lemma of_int_length : forall n, 0 < n < 2 ^ 53 ->
  exists m e, Prim2SF (Float64.of_int n) = S754_finite false m e /\
              digits2_pos m = 53%positive /\ -52 <= e <= 0.
Proof.
  intros n Hn. unfold Float64.of_int.
  destruct (Z.eqb_spec n Int64.min_int) as [E|_].
  { unfold Int64.min_int in E. lia. }
  destruct (Z.ltb_spec n 0) as [E|_]; [lia|].
  destruct (of_uint63_halves n ltac:(lia)) as [[Hnz Hs] Hf].
  destruct (Hf ltac:(lia)) as (m & e & Hx). rewrite Hx in *.
  cbn [normalOrZero scaled] in *. destruct Hnz as [Hd He].
  exists m, e. split; [reflexivity|]. split; [exact Hd|]. split; [lia|].
  destruct (Z_le_gt_dec e 0) as [H|H]; [exact H|exfalso].
  pose proof (digits2_bounds m) as B. rewrite Hd in B.
  change (2 ^ (53 - 1)) with 4503599627370496 in B.
  assert (P : 2 * 2 ^ 1074 <= 2 ^ (e + 1074)).
  { change (2 * 2 ^ 1074) with (2 ^ 1075). apply Z.pow_le_mono_r; lia. }
  rewrite pow_1074 in *.
  assert (Q : 0 < 2 ^ 1073) by (apply Z.pow_pos_nonneg; lia).
  change (2 ^ 53) with 9007199254740992 in Hn. nia.
Qed.

(** The product of two normal numbers is rounded to a normal number. *)
Lemma SFmul_normal : forall mx ex my ey,
  digits2_pos mx = 53%positive -> digits2_pos my = 53%positive ->
  -1074 <= ex + ey + 52 -> ex + ey + 54 <= emax - prec ->
  exists m e, SF64mul (S754_finite false mx ex) (S754_finite false my ey)
              = S754_finite false m e /\
              digits2_pos m = 53%positive /\
              ex + ey + 52 <= e <= ex + ey + 54.
Proof.
  intros mx ex my ey Hx Hy Hlo Hhi.
  pose proof (digits2_bounds mx) as Bx. pose proof (digits2_bounds my) as By.
  rewrite Hx in Bx. rewrite Hy in By.
  change (2 ^ (53 - 1)) with 4503599627370496 in *.
  change (2 ^ 53) with 9007199254740992 in *.
  unfold SF64mul, SFmul. cbn [xorb].
  assert (Hp : 2 ^ 104 <= Z.pos (mx * my) < 2 ^ 106).
  { rewrite Pos2Z.inj_mul.
    change (2 ^ 104) with (4503599627370496 * 4503599627370496).
    change (2 ^ 106) with (9007199254740992 * 9007199254740992). nia. }
  destruct (Z_lt_le_dec (Z.pos (mx * my)) (2 ^ 105)) as [H|H].
  - destruct (binary_round_aux_long false (mx * my) (ex + ey) 52 ltac:(lia)
                ltac:(change (2 ^ (52 + 52)) with (2 ^ 104);
                      change (2 ^ (53 + 52)) with (2 ^ 105); lia)
                ltac:(lia) ltac:(lia)) as (m & e & Hr & Hd & He & _).
    exists m, e. split; [exact Hr|]. split; [exact Hd|lia].
  - destruct (binary_round_aux_long false (mx * my) (ex + ey) 53 ltac:(lia)
                ltac:(change (2 ^ (52 + 53)) with (2 ^ 105);
                      change (2 ^ (53 + 53)) with (2 ^ 106); lia)
                ltac:(lia) ltac:(lia)) as (m & e & Hr & Hd & He & _).
    exists m, e. split; [exact Hr|]. split; [exact Hd|lia].
Qed.

(** [int(f)] of a float that stands for an integer. *)
Lemma to_int_halves : forall lo f j, -1074 <= lo ->
  halves lo (Prim2SF f) (2 * j) -> Int64.in_range j -> Float64.to_int f = j.
Proof.
  intros lo f j Hlo [Hn Hs] Hj. unfold Float64.to_int.
  assert (Q : 0 < 2 ^ 1073) by (apply Z.pow_pos_nonneg; lia).
  assert (R : forall v, Float64.truncZ (Prim2SF f) = Some v -> v = j ->
              (if (Int64.min_int <=? v) && (v <=? Int64.max_int) then v else Int64.min_int) = j).
  { intros v _ ->. destruct Hj as [H1 H2].
    apply Z.leb_le in H1. apply Z.leb_le in H2. now rewrite H1, H2. }
  destruct (Prim2SF f) as [s| | |s m e]; cbn [normalOrZero] in Hn; try contradiction.
  - cbn [scaled] in Hs. cbn [Float64.truncZ] in *. apply (R 0 eq_refl). lia.
  - destruct Hn as [Hd He]. cbn [scaled] in Hs. cbn [Float64.truncZ] in *.
    set (v := if s then Z.neg m else Z.pos m) in *.
    destruct (Z.leb_spec 0 e) as [E|E].
    + apply (R _ eq_refl).
      rewrite (Z.pow_add_r 2 e 1074), pow_1074 in Hs by lia.
      assert (P : 0 < 2 ^ e) by (apply Z.pow_pos_nonneg; lia). nia.
    + apply (R _ eq_refl).
      assert (E2 : 2 ^ 1074 = 2 ^ (- e) * 2 ^ (e + 1074)).
      { rewrite <- Z.pow_add_r by lia. f_equal. lia. }
      assert (P : 0 < 2 ^ (e + 1074)) by (apply Z.pow_pos_nonneg; lia).
      assert (P2 : 0 < 2 ^ (- e)) by (apply Z.pow_pos_nonneg; lia).
      assert (Hv : v = j * 2 ^ (- e)).
      { replace (2 * j * 2 ^ 1073) with (j * 2 ^ 1074) in Hs by (rewrite pow_1074; ring).
        rewrite E2 in Hs. nia. }
      rewrite Hv. apply Z.quot_mul. lia.
Qed.

(** The number of prices to trim is not negative: the conversion back to
    an integer is in range for every percentage and every length below
    [2^53]. *)
Lemma trimCount_nonneg : forall n p, 0 < n < 2 ^ 53 -> 0 < p <= 100 ->
  0 <= trimCount n p.
Proof.
  intros n p Hn Hp. unfold trimCount.
  destruct (of_int_length n Hn) as (mx & ex & Hx & Hdx & Hex).
  destruct (pct_normal p Hp) as (my & ey & Hy & Hdy & Hey).
  destruct (SFmul_normal mx ex my ey Hdx Hdy ltac:(lia) ltac:(unfold emax, prec; lia))
    as (m & e & Hm & Hd & He).
  set (f := (Float64.of_int n * (Float64.of_int p / 100))%float).
  assert (Hf : Prim2SF f = S754_finite false m e).
  { unfold f. rewrite FloatAxioms.mul_spec, Hx, Hy. exact Hm. }
  pose proof (digits2_bounds m) as B. rewrite Hd in B.
  change (2 ^ (53 - 1)) with 4503599627370496 in B.
  change (2 ^ 53) with 9007199254740992 in B.
  unfold Float64.Floor. rewrite Hf.
  destruct (Z.leb_spec 0 e) as [E|E].
  - unfold Float64.to_int. rewrite Hf. cbn [Float64.truncZ].
    destruct (Z.leb_spec 0 e) as [_|E']; [|lia].
    assert (P : 0 < 2 ^ e <= 2 ^ 2).
    { split; [apply Z.pow_pos_nonneg; lia|apply Z.pow_le_mono_r; lia]. }
    change (2 ^ 2) with 4 in P.
    destruct (Z.leb_spec Int64.min_int (Z.pos m * 2 ^ e)) as [_|E1];
      [|unfold Int64.min_int in E1; nia].
    destruct (Z.leb_spec (Z.pos m * 2 ^ e) Int64.max_int) as [_|E2];
      [|unfold Int64.max_int in E2; nia].
    cbn [andb]. nia.
  - cbn [Float64.floorZ]. destruct (Z.leb_spec 0 e) as [E'|_]; [lia|].
    assert (P : 0 < 2 ^ (- e)) by (apply Z.pow_pos_nonneg; lia).
    assert (Hj : 0 <= Z.pos m / 2 ^ (- e) <= Z.pos m).
    { split; [apply Z.div_pos; lia|].
      apply Z.div_le_upper_bound; [lia|]. nia. }
    destruct (Z.pos m / 2 ^ (- e)) as [|j|j] eqn:Ej; [reflexivity| |lia].
    rewrite (to_int_halves (-52) (Float64.of_int (Z.pos j)) (Z.pos j)); [lia|lia| |].
    + apply of_int_halves. change (2 ^ 53) with 9007199254740992. lia.
    + unfold Int64.in_range, Int64.min_int, Int64.max_int.
      change (2 ^ 63) with 9223372036854775808. lia.
Qed.

(** For the percentages of the handlers ([0] to [50]) and beyond, the
    bounds of the slice taken by [trimSorted] lie within the list. *)
Lemma trimSorted_in_bounds : forall values trimPct,
  0 < trimPct <= 100 -> 0 < len values < 2 ^ 53 ->
  let n := len values in
  let t := Z.min (trimCount n trimPct) ((n - 1) / 2) in
  0 <= t /\ t <= n - t <= n /\
  trimSorted values trimPct = slice values t (n - t) /\
  len (trimSorted values trimPct) = n - 2 * t.
Proof.
  intros values trimPct Hp Hn n t. fold n in Hn.
  pose proof (trimCount_nonneg n trimPct Hn Hp) as Hc.
  assert (Hq : Z.quot (n - 1) 2 = (n - 1) / 2) by (apply Z.quot_div_nonneg; lia).
  pose proof (Z.div_mod (n - 1) 2 ltac:(lia)) as Hdm.
  pose proof (Z.mod_pos_bound (n - 1) 2 ltac:(lia)) as Hmb.
  assert (Ht : 0 <= t <= (n - 1) / 2) by (unfold t; lia).
  assert (E : trimSorted values trimPct = slice values t (n - t)).
  { unfold trimSorted. destruct (Z.leb_spec trimPct 0) as [H|_]; [lia|].
    fold n. destruct (Z.eqb_spec n 0) as [H|_]; [lia|].
    rewrite Hq. unfold t.
    destruct (Z.gtb_spec (trimCount n trimPct) ((n - 1) / 2)).
    - now rewrite Z.min_r by lia.
    - now rewrite Z.min_l by lia. }
  split; [lia|]. split; [lia|]. split; [exact E|].
  rewrite E, len_slice by (fold n; lia). lia.
Qed.

(** There [trimSorted] does not panic. *)
Lemma trimSorted_no_panic : forall values trimPct,
  trimPct <= 100 -> len values < 2 ^ 53 ->
  trimSorted_panics values trimPct = false.
Proof.
  intros values trimPct Hp Hn. unfold trimSorted_panics.
  destruct (Z.leb_spec trimPct 0) as [H|H]; [reflexivity|].
  destruct (Z.eqb_spec (len values) 0) as [E|E]; [reflexivity|].
  pose proof (len_nonneg values) as H0.
  destruct (trimSorted_in_bounds values trimPct ltac:(lia) ltac:(lia)) as (H1 & H2 & _).
  cbv zeta in H1, H2.
  set (n := len values) in *.
  assert (Hq : Z.quot (n - 1) 2 = (n - 1) / 2) by (apply Z.quot_div_nonneg; lia).
  rewrite Hq.
  destruct (Z.gtb_spec (trimCount n trimPct) ((n - 1) / 2)) as [C|C].
  - rewrite Z.min_r in H1, H2 by lia.
    destruct (Z.leb_spec 0 ((n - 1) / 2)); [|lia].
    destruct (Z.leb_spec ((n - 1) / 2) (n - (n - 1) / 2)); [reflexivity|lia].
  - rewrite Z.min_l in H1, H2 by lia.
    destruct (Z.leb_spec 0 (trimCount n trimPct)); [|lia].
    destruct (Z.leb_spec (trimCount n trimPct) (n - trimCount n trimPct));
      [reflexivity|lia].
Qed.

Lemma trimCount_table :
  forallb (fun k =>
    forallb (fun i => trimCount (1 + i) (5 * (1 + k)) =? (1 + i) * (5 * (1 + k)) / 100)
            (upto 179))
    (upto 10) = true.
Proof. vm_compute. reflexivity. Qed.

(** Below 180 prices the count computed in [float64] is the one of the
    integers, for every percentage the handlers accept. *)
Lemma trimCount_below_180 : forall n p,
  0 < n < 180 -> 0 < p <= 50 -> p mod 5 = 0 ->
  trimCount n p = n * p / 100.
Proof.
  intros n p Hn Hp H5. pose proof trimCount_table as T.
  rewrite forallb_forall in T.
  pose proof (Z.div_mod p 5 ltac:(lia)) as Hdm. rewrite H5 in Hdm.
  specialize (T (p / 5 - 1) (In_upto 10 (p / 5 - 1) ltac:(lia))).
  rewrite forallb_forall in T.
  specialize (T (n - 1) (In_upto 179 (n - 1) ltac:(lia))).
  apply Z.eqb_eq in T.
  replace (1 + (n - 1)) with n in T by lia.
  replace (5 * (1 + (p / 5 - 1))) with p in T by lia.
  exact T.
Qed.

(** C3, as the code has it: a percentage of at most 0 or an empty list
    leaves the list as it is; otherwise (for a percentage up to 100 and
    fewer than [2^53] prices) [t] prices are cut from each end, where [t]
    is the smaller of [trimCount n trimPct] and [(n - 1) / 2], and at
    least one price is left.  [trimCount] is computed on [float64]: it is
    [floor (n * trimPct / 100)] for fewer than 180 prices and the
    percentages the handlers accept (the multiples of 5 up to 50), but
    not always: for 180 prices and 35 percent, [float64(35) / 100.0] is a
    little below 35/100, the product with 180 is 62.99999999999999, and
    62 prices are cut from each end, not 63. *)
Theorem trimSorted_rounds_down :
  (forall (values : list Z) (trimPct : Z),
     trimPct <= 0 \/ values = [] -> trimSorted values trimPct = values) /\
  (forall (values : list Z) (trimPct : Z),
     0 < trimPct <= 100 -> 0 < len values < 2 ^ 53 ->
     let n := len values in
     let t := Z.min (trimCount n trimPct) ((n - 1) / 2) in
     0 <= t /\ t <= n - t <= n /\
     trimSorted values trimPct = slice values t (n - t) /\
     len (trimSorted values trimPct) = n - 2 * t /\
     1 <= len (trimSorted values trimPct)) /\
  (forall n p : Z,
     0 < n < 180 -> 0 < p <= 50 -> p mod 5 = 0 -> trimCount n p = n * p / 100) /\
  (Float64.of_int 180 * (Float64.of_int 35 / 100))%float = 0x1.f7fffffffffffp+5%float /\
  trimCount 180 35 = 62 /\
  180 * 35 / 100 = 63 /\
  Z.min (180 * 35 / 100) ((180 - 1) / 2) = 63 /\
  trimSorted (upto 180) 35 = slice (upto 180) 62 (180 - 62) /\
  len (trimSorted (upto 180) 35) = 56.
Proof.
  split; [|split; [|split]].
  - intros values trimPct [H|H]; unfold trimSorted.
    + destruct (Z.leb_spec trimPct 0); [reflexivity|lia].
    + subst values. destruct (trimPct <=? 0); reflexivity.
  - intros values trimPct Hp Hn n t.
    destruct (trimSorted_in_bounds values trimPct Hp Hn) as (H1 & H2 & H3 & H4).
    fold n t in H1, H2, H3, H4.
    repeat split; try assumption; try lia.
    apply trimSorted_nonempty. intros ->. unfold len in Hn. simpl in Hn. lia.
  - exact trimCount_below_180.
  - vm_compute. repeat split; reflexivity.
Qed.

(** ** The loop on equal values, in binary64 *)

Lemma Prim2SF_zero : Prim2SF 0 = S754_zero false.
Proof. reflexivity. Qed.

Lemma float_sub_self : forall lo x,
  normalOrZero lo (Prim2SF x) -> (x - x)%float = 0%float.
Proof.
  intros lo x Hx. apply Prim2SF_inj. rewrite FloatAxioms.sub_spec, Prim2SF_zero.
  destruct (Prim2SF x) as [s| | |s m e]; cbn [normalOrZero] in Hx; try contradiction.
  - subst s. reflexivity.
  - unfold SF64sub, SFsub. rewrite Z.sub_diag. reflexivity.
Qed.

Lemma float_sub_zero : forall lo x,
  normalOrZero lo (Prim2SF x) -> (x - 0)%float = x.
Proof.
  intros lo x Hx. apply Prim2SF_inj. rewrite FloatAxioms.sub_spec, Prim2SF_zero.
  destruct (Prim2SF x) as [s| | |s m e]; cbn [normalOrZero] in Hx; try contradiction.
  - subst s. reflexivity.
  - reflexivity.
Qed.

Lemma float_div_one : forall lo x, -1073 <= lo ->
  normalOrZero lo (Prim2SF x) -> (x / 1)%float = x.
Proof.
  intros lo x Hlo Hx. apply Prim2SF_inj. rewrite FloatAxioms.div_spec, Prim2SF_one.
  destruct (Prim2SF x) as [s| | |s m e]; cbn [normalOrZero] in Hx; try contradiction.
  - subst s. reflexivity.
  - destruct Hx as [Hd He].
    rewrite SFdiv_pow2 by (auto; unfold emax, prec; lia). f_equal. lia.
Qed.

Lemma float_add_zero_l : forall lo x,
  normalOrZero lo (Prim2SF x) -> (0 + x)%float = x.
Proof.
  intros lo x Hx. apply Prim2SF_inj. rewrite FloatAxioms.add_spec, Prim2SF_zero.
  destruct (Prim2SF x) as [s| | |s m e]; cbn [normalOrZero] in Hx; try contradiction.
  - subst s. reflexivity.
  - reflexivity.
Qed.

Lemma float_add_zero_r : forall lo x,
  normalOrZero lo (Prim2SF x) -> (x + 0)%float = x.
Proof.
  intros lo x Hx. apply Prim2SF_inj. rewrite FloatAxioms.add_spec, Prim2SF_zero.
  destruct (Prim2SF x) as [s| | |s m e]; cbn [normalOrZero] in Hx; try contradiction.
  - subst s. reflexivity.
  - reflexivity.
Qed.

Lemma float_mul_zero_acc : forall lo x,
  normalOrZero lo (Prim2SF x) -> (0 + x * 0)%float = 0%float.
Proof.
  intros lo x Hx. apply Prim2SF_inj.
  rewrite FloatAxioms.add_spec, FloatAxioms.mul_spec, Prim2SF_zero.
  destruct (Prim2SF x) as [s| | |s m e]; cbn [normalOrZero] in Hx; try contradiction.
  - subst s. reflexivity.
  - destruct s; reflexivity.
Qed.

Lemma float_zero_div : forall y m e,
  Prim2SF y = S754_finite false m e -> (0 / y)%float = 0%float.
Proof.
  intros y m e Hy. apply Prim2SF_inj.
  rewrite FloatAxioms.div_spec, Prim2SF_zero, Hy. reflexivity.
Qed.

Lemma of_int_positive : forall n, 0 < n <= Int64.max_int ->
  exists m e, Prim2SF (Float64.of_int n) = S754_finite false m e.
Proof.
  intros n Hn. unfold Int64.max_int in Hn. unfold Float64.of_int.
  destruct (Z.eqb_spec n Int64.min_int) as [E|_].
  { unfold Int64.min_int in E. lia. }
  destruct (Z.ltb_spec n 0) as [E|_]; [lia|].
  apply of_uint63_round; lia.
Qed.

Lemma of_int_one : Float64.of_int (0 + 1) = 1%float.
Proof. reflexivity. Qed.

(** The first pass of the loop. *)
Lemma meanStep_first : forall v, Int64.in_range v ->
  meanStep binary64 0 v (0%float, 0%float) = (Float64.of_int v, 0%float).
Proof.
  intros v Hv. destruct (of_int_round v Hv) as [Hn _].
  unfold meanStep. cbn [a_of_int a_sub a_add a_div a_mul binary64].
  rewrite of_int_one.
  rewrite (float_sub_zero _ _ Hn), (float_div_one (-52) _ ltac:(lia) Hn),
    (float_add_zero_l _ _ Hn), (float_sub_self _ _ Hn), (float_mul_zero_acc _ _ Hn).
  reflexivity.
Qed.

(** A later pass that meets the value again. *)
Lemma meanStep_again : forall v i, Int64.in_range v -> 0 < i + 1 <= Int64.max_int ->
  meanStep binary64 i v (Float64.of_int v, 0%float) = (Float64.of_int v, 0%float).
Proof.
  intros v i Hv Hi. destruct (of_int_round v Hv) as [Hn _].
  destruct (of_int_positive (i + 1) Hi) as (m & e & Hk).
  unfold meanStep. cbn [a_of_int a_sub a_add a_div a_mul binary64].
  rewrite (float_sub_self _ _ Hn), (float_zero_div _ _ _ Hk),
    (float_add_zero_r _ _ Hn), (float_sub_self _ _ Hn).
  reflexivity.
Qed.

Lemma meanLoopFrom_again : forall v l i,
  Int64.in_range v -> 0 < i -> i + len l <= Int64.max_int ->
  Forall (eq v) l ->
  meanLoopFrom binary64 i l (Float64.of_int v, 0%float) = (Float64.of_int v, 0%float).
Proof.
  intros v l. induction l as [|p l IH]; intros i Hv Hi Hlen Hall.
  - reflexivity.
  - inversion Hall; subst. cbn [meanLoopFrom].
    unfold len in Hlen. cbn [length] in Hlen.
    rewrite meanStep_again by (assumption || lia).
    apply IH; auto; unfold len; lia.
Qed.

Lemma meanLoop_equal_values : forall v l,
  Int64.in_range v -> l <> [] -> len l <= Int64.max_int -> Forall (eq v) l ->
  meanLoop binary64 l = (Float64.of_int v, 0%float).
Proof.
  intros v l Hv Hne Hlen Hall. destruct l as [|p l]; [contradiction|].
  inversion Hall; subst. unfold meanLoop. cbn [meanLoopFrom a_zero binary64].
  rewrite meanStep_first by exact Hv.
  unfold len in Hlen. cbn [length] in Hlen.
  apply meanLoopFrom_again; auto; unfold len; lia.
Qed.

(** ** Rounding in general: the two neighbours *)

Lemma loc_of_shr_record_of_loc : forall m l,
  loc_of_shr_record (shr_record_of_loc m l) = l.
Proof. intros m [|[| |]]; reflexivity. Qed.

Lemma shr_m_record_of_loc : forall m l, shr_m (shr_record_of_loc m l) = m.
Proof. intros m [|[| |]]; reflexivity. Qed.

(** [n] shifts to the right leave the quotient by [2^n], and report an
    exact result when nothing was lost. *)
Lemma shr_iter_any : forall n m l, 0 <= m ->
  let R := Nat.iter n shr_1 (shr_record_of_loc m l) in
  shr_m R = m / 2 ^ Z.of_nat n /\
  (l = loc_Exact -> m mod 2 ^ Z.of_nat n = 0 -> loc_of_shr_record R = loc_Exact).
Proof.
  induction n as [|n IH]; intros m l Hm.
  - cbn zeta. unfold Nat.iter. cbn [nat_rect]. rewrite shr_m_record_of_loc, loc_of_shr_record_of_loc.
    change (2 ^ Z.of_nat 0) with 1. rewrite Z.div_1_r. auto.
  - cbn zeta. rewrite Nat.iter_succ.
    destruct (IH m l Hm) as [Em Ex].
    destruct (Nat.iter n shr_1 (shr_record_of_loc m l)) as [m' r' s'] eqn:ER.
    cbn [shr_m] in Em. subst m'.
    assert (P : 0 < 2 ^ Z.of_nat n) by (apply Z.pow_pos_nonneg; lia).
    rewrite shr_1_spec by (apply Z.div_pos; lia).
    rewrite Nat2Z.inj_succ, Z.pow_succ_r by lia. cbn [shr_m]. split.
    + rewrite Z.div_div by lia. f_equal. ring.
    + intros El E0.
      replace (2 * 2 ^ Z.of_nat n) with (2 ^ Z.of_nat n * 2) in E0 by ring.
      rewrite Z.rem_mul_r in E0 by lia.
      pose proof (Z.mod_pos_bound m (2 ^ Z.of_nat n) P) as B.
      pose proof (Z.mod_pos_bound (m / 2 ^ Z.of_nat n) 2 ltac:(lia)) as B2.
      assert (E1 : m mod 2 ^ Z.of_nat n = 0) by nia.
      assert (E2 : (m / 2 ^ Z.of_nat n) mod 2 = 0) by nia.
      specialize (Ex El E1). cbn [loc_of_shr_record] in Ex.
      rewrite (Zmod_odd (m / 2 ^ Z.of_nat n)) in E2.
      destruct (Z.odd (m / 2 ^ Z.of_nat n)); [discriminate|].
      destruct r'; [destruct s'; discriminate|]. destruct s'; [discriminate|].
      reflexivity.
Qed.

Lemma shr_any : forall m l e k, 0 <= m -> 0 <= k ->
  exists R, shr (shr_record_of_loc m l) e k = (R, e + k) /\
    shr_m R = m / 2 ^ k /\
    (l = loc_Exact -> m mod 2 ^ k = 0 -> loc_of_shr_record R = loc_Exact).
Proof.
  intros m l e k Hm Hk. destruct k as [|p|p]; [| |lia].
  - exists (shr_record_of_loc m l). cbn [shr]. rewrite Z.add_0_r.
    split; [reflexivity|].
    exact (shr_iter_any 0 m l Hm).
  - cbn [shr]. rewrite iter_pos_nat.
    exists (Nat.iter (Pos.to_nat p) shr_1 (shr_record_of_loc m l)).
    split; [reflexivity|].
    pose proof (shr_iter_any (Pos.to_nat p) m l Hm) as H.
    rewrite positive_nat_Z in H. exact H.
Qed.

Lemma round_nearest_even_cases : forall m l,
  round_nearest_even m l = m \/
  (round_nearest_even m l = m + 1 /\ l <> loc_Exact).
Proof.
  intros m [|[| |]]; cbn [round_nearest_even]; auto.
  - destruct (Z.even m); [left; reflexivity|right; split; [reflexivity|discriminate]].
  - right. split; [reflexivity|discriminate].
Qed.

Lemma Zdigits2_bounds : forall q, 0 < q ->
  2 ^ (Zdigits2 q - 1) <= q < 2 ^ Zdigits2 q.
Proof.
  intros q Hq. destruct q as [|p|p]; try lia. exact (digits2_bounds p).
Qed.

Lemma fexp_ge_emin : forall d, -1074 <= fexp prec emax d.
Proof. intros d. unfold fexp, emin, prec, emax. lia. Qed.

Lemma fexp_spec : forall d, fexp prec emax d = Z.max (d - 53) (-1074).
Proof. intros d. reflexivity. Qed.

(** The mantissa left by the first shift of [binary_round_aux]: at most 53
    digits, and exactly 53 above the least exponent. *)
Lemma shifted_mantissa : forall q e, 0 <= q ->
  let E := fexp prec emax (Zdigits2 q + e) in
  e <= E ->
  0 <= q / 2 ^ (E - e) < 2 ^ 53 /\ (E = -1074 \/ 2 ^ 52 <= q / 2 ^ (E - e)).
Proof.
  intros q e Hq E HE. unfold E in *. rewrite fexp_spec in *.
  set (k := Z.max (Zdigits2 q + e - 53) (-1074) - e) in *.
  assert (Hk : 0 <= k) by lia.
  assert (P : 0 < 2 ^ k) by (apply Z.pow_pos_nonneg; lia).
  destruct (Z.eq_dec q 0) as [->|Hne].
  { rewrite Z.div_0_l by lia. cbn [Zdigits2] in *. split; [lia|]. left. lia. }
  pose proof (Zdigits2_bounds q ltac:(lia)) as [B1 B2].
  set (d := Zdigits2 q) in *.
  assert (Hd : 1 <= d).
  { unfold d. destruct q; try lia; cbn [Zdigits2]; lia. }
  split; [split|].
  - apply Z.div_pos; lia.
  - apply Z.div_lt_upper_bound; [lia|].
    apply Z.lt_le_trans with (1 := B2).
    rewrite <- Z.pow_add_r by lia. apply Z.pow_le_mono_r; lia.
  - destruct (Z_le_gt_dec (d + e - 53) (-1074)) as [H|H]; [left; lia|right].
    assert (Ek : k = d - 53) by lia.
    apply Z.div_le_lower_bound; [lia|].
    apply Z.le_trans with (2 := B1).
    rewrite <- Z.pow_add_r by lia. apply Z.pow_le_mono_r; lia.
Qed.

(** What [binary_round_aux] returns for a mantissa [q >= 0] that is to be
    shifted right: with [lowm] the mantissa after the shift, the result
    is [lowm] or [lowm + 1] at the exponent [E], and [lowm + 1] only if
    something was lost. *)
Lemma binary_round_aux_neighbours : forall s q e l, 0 <= q ->
  let E := fexp prec emax (Zdigits2 q + e) in
  e <= E -> E + 1 <= emax - prec ->
  let lowm := q / 2 ^ (E - e) in
  exists v,
    (v = lowm \/ (v = lowm + 1 /\ (l <> loc_Exact \/ q mod 2 ^ (E - e) <> 0))) /\
    finiteSF (binary_round_aux prec emax s q e l) /\
    scaled (binary_round_aux prec emax s q e l)
    = (if s then - v else v) * 2 ^ (E + 1074).
Proof.
  intros s q e l Hq E HE Hmax lowm.
  destruct (shifted_mantissa q e Hq HE) as [Hlow Hnorm]. fold E lowm in Hlow, Hnorm.
  pose proof (fexp_ge_emin (Zdigits2 q + e)) as Hmin. fold E in Hmin.
  destruct (shr_any q l e (E - e) Hq ltac:(lia)) as (R & HR & Rm & Rx).
  fold lowm in Rm.
  assert (Hb : binary_round_aux prec emax s q e l
               = let '(mrs, e2) :=
                   shr_fexp prec emax
                     (round_nearest_even lowm (loc_of_shr_record R)) E loc_Exact in
                 match shr_m mrs with
                 | Z0 => S754_zero s
                 | Zpos m => if e2 <=? emax - prec then S754_finite s m e2
                             else S754_infinity s
                 | Zneg _ => S754_nan
                 end).
  { unfold binary_round_aux, shr_fexp at 1. fold E. rewrite HR, Rm.
    replace (e + (E - e)) with E by lia. reflexivity. }
  rewrite Hb. clear Hb HR.
  set (v := round_nearest_even lowm (loc_of_shr_record R)).
  assert (Hv : v = lowm \/ (v = lowm + 1 /\ (l <> loc_Exact \/ q mod 2 ^ (E - e) <> 0))).
  { destruct (round_nearest_even_cases lowm (loc_of_shr_record R)) as [H|[H Hl]];
      [left; exact H|right; split; [exact H|]].
    destruct l as [|c]; [|left; discriminate].
    right. intros H0. apply Hl. apply Rx; [reflexivity|exact H0]. }
  exists v. split; [exact Hv|].
  assert (Hv53 : 0 <= v <= 2 ^ 53) by (destruct Hv as [->|[-> _]]; lia).
  assert (Hvn : E = -1074 \/ 2 ^ 52 <= v) by (destruct Hv as [->|[-> _]]; lia).
  destruct (Z.eq_dec v 0) as [E0|Hv0].
  { rewrite E0. assert (EE : E = -1074) by lia.
    unfold shr_fexp. cbn [Zdigits2 shr_record_of_loc]. rewrite EE.
    cbn. destruct s; split; reflexivity || exact I. }
  destruct (Z_lt_le_dec v (2 ^ 52)) as [Hs|Hl].
  - assert (EE : E = -1074) by lia.
    destruct v as [|p|p]; try lia.
    assert (Hd : Z.pos (digits2_pos p) <= 52).
    { pose proof (digits2_bounds p) as [B _].
      destruct (Z_le_gt_dec (Z.pos (digits2_pos p)) 52) as [H|H]; [exact H|].
      assert (2 ^ 52 <= 2 ^ (Z.pos (digits2_pos p) - 1)) by (apply Z.pow_le_mono_r; lia).
      lia. }
    unfold shr_fexp. cbn [Zdigits2 shr_record_of_loc]. rewrite EE.
    replace (fexp prec emax (Z.pos (digits2_pos p) + -1074) - -1074) with 0
      by (rewrite fexp_spec; lia).
    cbn [shr shr_m]. change (-1074 <=? emax - prec) with true. cbn iota.
    split.
    + cbn [finiteSF]. unfold SpecFloat.bounded, canonical_mantissa.
      rewrite fexp_spec. apply andb_true_iff. split; [apply Z.eqb_eq; lia|reflexivity].
    + cbn [scaled]. destruct s; reflexivity.
  - destruct (shr_fexp_renormalize v E ltac:(lia) Hmin) as (m' & e' & -> & Hd' & He' & Hval).
    cbn [shr_m].
    destruct (Z.leb_spec e' (emax - prec)) as [Hle|Hgt]; [|lia].
    split.
    + cbn [finiteSF]. unfold SpecFloat.bounded, canonical_mantissa. rewrite Hd'.
      rewrite fexp_spec. apply andb_true_iff.
      split; [apply Z.eqb_eq; lia|apply Z.leb_le; exact Hle].
    + cbn [scaled]. rewrite <- Hval.
      replace (e' + 1074) with ((e' - E) + (E + 1074)) by lia.
      rewrite Z.pow_add_r by lia. destruct s; rewrite <- ?Pos2Z.opp_pos; ring.
Qed.

(** ** The binary64 numbers among the multiples of [2^-1074] *)

Lemma finite_canonical : forall s m e, finiteSF (S754_finite s m e) ->
  -1074 <= e <= 971 /\ Z.pos m < 2 ^ 53 /\ (e = -1074 \/ 2 ^ 52 <= Z.pos m).
Proof.
  intros s m e H. cbn [finiteSF] in H. unfold SpecFloat.bounded, canonical_mantissa in H.
  apply andb_true_iff in H. destruct H as [Hc He].
  apply Z.eqb_eq in Hc. apply Z.leb_le in He. rewrite fexp_spec in Hc.
  unfold emax, prec in He.
  pose proof (digits2_bounds m) as [B1 B2].
  set (d := Z.pos (digits2_pos m)) in *.
  split; [lia|]. split.
  - apply Z.lt_le_trans with (1 := B2). apply Z.pow_le_mono_r; lia.
  - destruct (Z.eq_dec e (-1074)) as [E|E]; [left; exact E|right].
    replace 52 with (d - 1) by lia. exact B1.
Qed.

Lemma representable_0 : representable 0.
Proof. exists (S754_zero false). split; [exact I|reflexivity]. Qed.

Lemma representable_opp : forall y, representable y -> representable (- y).
Proof.
  intros y (x & Hf & <-). exists (SFopp x). destruct x as [s|s| |s m e]; try contradiction.
  - split; [exact I|reflexivity].
  - split; [exact Hf|]. cbn [SFopp scaled]. destruct s; cbn [negb];
      rewrite <- ?Pos2Z.opp_pos; ring.
Qed.

Lemma representable_scaled : forall x, finiteSF x -> representable (scaled x).
Proof. intros x H. exists x. auto. Qed.

(** No binary64 number lies strictly between two neighbours. *)
Lemma representable_gap : forall lowm E y,
  -1074 <= E -> 0 <= lowm < 2 ^ 53 -> (E = -1074 \/ 2 ^ 52 <= lowm) ->
  representable y ->
  lowm * 2 ^ (E + 1074) < y -> (lowm + 1) * 2 ^ (E + 1074) <= y.
Proof.
  intros lowm E y HE Hl Hn (x & Hf & <-) Hlt.
  assert (P : 0 < 2 ^ (E + 1074)) by (apply Z.pow_pos_nonneg; lia).
  destruct x as [s|s| |s m e]; try contradiction.
  - cbn [scaled] in *. nia.
  - destruct (finite_canonical s m e Hf) as (He & Hm & Hc).
    assert (Pe : 0 < 2 ^ (e + 1074)) by (apply Z.pow_pos_nonneg; lia).
    cbn [scaled] in *. destruct s; [nia|].
    destruct (Z_le_gt_dec E e) as [Hge|Hlt'].
    + assert (EQ : 2 ^ (e + 1074) = 2 ^ (e - E) * 2 ^ (E + 1074)).
      { rewrite <- Z.pow_add_r by lia. f_equal. lia. }
      rewrite EQ in Hlt |- *. clear EQ Pe.
      assert (Pd : 0 < 2 ^ (e - E)) by (apply Z.pow_pos_nonneg; lia).
      set (D := 2 ^ (e - E)) in *. set (Q := 2 ^ (E + 1074)) in *. clearbody D Q.
      rewrite Z.mul_assoc in Hlt |- *.
      apply Z.mul_lt_mono_pos_r in Hlt; [|exact P].
      apply Z.mul_le_mono_nonneg_r; lia.
    + exfalso. assert (H52 : 2 ^ 52 <= lowm) by lia.
      assert (EQ : 2 ^ (E + 1074) = 2 ^ (E - e) * 2 ^ (e + 1074)).
      { rewrite <- Z.pow_add_r by lia. f_equal. lia. }
      rewrite EQ in Hlt. clear EQ P.
      assert (Pd : 2 ^ 1 <= 2 ^ (E - e)) by (apply Z.pow_le_mono_r; lia).
      change (2 ^ 1) with 2 in Pd. change (2 ^ 53) with (2 * 2 ^ 52) in Hm.
      set (Q := 2 ^ (e + 1074)) in *. set (D := 2 ^ (E - e)) in *.
      clearbody Q D.
      assert (S1 : Z.pos m * Q < 2 * 2 ^ 52 * Q) by (apply Z.mul_lt_mono_pos_r; lia).
      assert (S2 : 2 ^ 52 * (2 * Q) <= lowm * (D * Q)).
      { apply Z.mul_le_mono_nonneg; try lia.
        apply Z.mul_le_mono_nonneg_r; lia. }
      lia.
Qed.

Lemma roundedQ_refl : forall a, roundedQ a 1 a.
Proof. intros a y _. lia. Qed.

Lemma roundedQ_opp : forall a b z, roundedQ a b z -> roundedQ (- a) b (- z).
Proof.
  intros a b z H y Hy. destruct (H (- y) (representable_opp y Hy)) as [H1 H2].
  split; intros; [assert (z <= - y) by (apply H2; lia)|assert (- y <= z) by (apply H1; lia)];
    lia.
Qed.

(** The lower neighbour of a quotient, or the upper one of a quotient
    that is not the lower one, is a rounding of it. *)
Lemma neighbours_rounded : forall a b lowm E v,
  0 < b -> -1074 <= E -> 0 <= lowm < 2 ^ 53 -> (E = -1074 \/ 2 ^ 52 <= lowm) ->
  lowm * 2 ^ (E + 1074) * b <= a < (lowm + 1) * 2 ^ (E + 1074) * b ->
  (v = lowm \/ (v = lowm + 1 /\ lowm * 2 ^ (E + 1074) * b < a)) ->
  roundedQ a b (v * 2 ^ (E + 1074)).
Proof.
  intros a b lowm E v Hb HE Hl Hn [A1 A2] Hv y Hy.
  assert (P : 0 < 2 ^ (E + 1074)) by (apply Z.pow_pos_nonneg; lia).
  pose proof (representable_gap lowm E y HE Hl Hn Hy) as G.
  set (Q := 2 ^ (E + 1074)) in *. clearbody Q.
  split; intros H.
  - destruct (Z_le_gt_dec y (lowm * Q)) as [C|C].
    + destruct Hv as [->|[-> _]]; nia.
    + specialize (G ltac:(lia)). exfalso.
      assert ((lowm + 1) * Q * b <= y * b) by (apply Z.mul_le_mono_nonneg_r; lia).
      lia.
  - destruct Hv as [->|[-> Hs]].
    + assert (lowm * Q * b <= y * b) by lia.
      apply Z.mul_le_mono_pos_r in H0; lia.
    + apply G. assert (lowm * Q * b < y * b) by lia.
      apply Z.mul_lt_mono_pos_r in H0; lia.
Qed.

(** ** Signs *)

Lemma shr_1_nonneg : forall R, 0 <= shr_m R -> 0 <= shr_m (shr_1 R).
Proof.
  intros [m r s] H. cbn [shr_m] in H. rewrite shr_1_spec by exact H.
  cbn [shr_m]. apply Z.div_pos; lia.
Qed.

Lemma shr_nonneg : forall R e n, 0 <= shr_m R -> 0 <= shr_m (fst (shr R e n)).
Proof.
  intros R e n H. destruct n as [|p|p]; cbn [shr fst]; try exact H.
  rewrite iter_pos_nat. induction (Pos.to_nat p) as [|k IH].
  - exact H.
  - rewrite Nat.iter_succ. apply shr_1_nonneg, IH.
Qed.

(** Rounding keeps the sign. *)
Lemma binary_round_aux_signed : forall s q e l, 0 <= q ->
  signedSF s (binary_round_aux prec emax s q e l).
Proof.
  intros s q e l Hq. unfold binary_round_aux, shr_fexp.
  pose proof (shr_nonneg (shr_record_of_loc q l) e
                (fexp prec emax (Zdigits2 q + e) - e)) as H1.
  rewrite shr_m_record_of_loc in H1. specialize (H1 Hq).
  destruct (shr (shr_record_of_loc q l) e _) as [R1 e1]. cbn [fst] in H1.
  set (v := round_nearest_even (shr_m R1) (loc_of_shr_record R1)).
  assert (Hv : 0 <= v).
  { unfold v. destruct (round_nearest_even_cases (shr_m R1) (loc_of_shr_record R1))
      as [->|[-> _]]; lia. }
  pose proof (shr_nonneg (shr_record_of_loc v loc_Exact) e1
                (fexp prec emax (Zdigits2 v + e1) - e1)) as H2.
  rewrite shr_m_record_of_loc in H2. specialize (H2 Hv).
  destruct (shr (shr_record_of_loc v loc_Exact) e1 _) as [R2 e2]. cbn [fst] in H2.
  destruct (shr_m R2) as [|m|m]; [reflexivity| |lia].
  destruct (e2 <=? emax - prec); reflexivity.
Qed.

Lemma signedSF_nonneg : forall x, signedSF false x -> nonnegSF x.
Proof. intros [s|s| |s m e] H; exact H || exact I. Qed.

(** ** The operations *)

Lemma shl_align_spec : forall m e e',
  snd (shl_align m e e') = Z.min e e' /\
  Z.pos (fst (shl_align m e e')) = Z.pos m * 2 ^ (e - Z.min e e') /\
  Z.pos (digits2_pos (fst (shl_align m e e')))
  = Z.pos (digits2_pos m) + (e - Z.min e e').
Proof.
  intros m e e'. unfold shl_align.
  destruct (e' - e) as [|d|d] eqn:Ed; cbn [fst snd].
  - replace (Z.min e e') with e by lia. rewrite Z.sub_diag. cbn. lia.
  - replace (Z.min e e') with e by lia. rewrite Z.sub_diag. cbn. lia.
  - replace (Z.min e e') with e' by lia.
    replace (e - e') with (Z.pos d) by lia.
    rewrite iter_xO_value, iter_xO_digits. lia.
Qed.

(** [binary_round] rounds [p * 2^e] to a neighbour. *)
Lemma binary_round_rounded : forall s p e,
  -1074 <= e -> Z.pos (digits2_pos p) + e <= 1023 ->
  exists v, 0 <= v /\
    finiteSF (binary_round prec emax s p e) /\
    scaled (binary_round prec emax s p e) = (if s then - v else v) /\
    roundedQ (Z.pos p * 2 ^ (e + 1074)) 1 v.
Proof.
  intros s p e He Hd. unfold binary_round.
  set (F := fexp prec emax (Z.pos (digits2_pos p) + e)).
  destruct (shl_align_spec p e F) as (Es & Em & Edg).
  destruct (shl_align p e F) as [mz ez]. cbn [fst snd] in *.
  pose proof (fexp_ge_emin (Z.pos (digits2_pos p) + e)) as HF. fold F in HF.
  assert (EF : fexp prec emax (Zdigits2 (Z.pos mz) + ez) = F).
  { cbn [Zdigits2]. rewrite Edg, Es. unfold F. f_equal. lia. }
  assert (Hez : -1074 <= ez <= F) by lia.
  assert (HFmax : F + 1 <= emax - prec).
  { unfold F. rewrite fexp_spec. unfold emax, prec. lia. }
  destruct (binary_round_aux_neighbours s (Z.pos mz) ez loc_Exact ltac:(lia)
              ltac:(rewrite EF; lia) ltac:(rewrite EF; exact HFmax))
    as (v & Hv & Hfin & Hsc).
  destruct (shifted_mantissa (Z.pos mz) ez ltac:(lia) ltac:(rewrite EF; lia))
    as [Hlow Hnorm].
  rewrite EF in *.
  set (lowm := Z.pos mz / 2 ^ (F - ez)) in *.
  assert (P : 0 < 2 ^ (F + 1074)) by (apply Z.pow_pos_nonneg; lia).
  exists (v * 2 ^ (F + 1074)). split; [destruct Hv as [->|[-> _]]; nia|].
  split; [exact Hfin|]. split; [rewrite Hsc; destruct s; ring|].
  assert (K : 0 < 2 ^ (F - ez)) by (apply Z.pow_pos_nonneg; lia).
  assert (W : 0 < 2 ^ (ez + 1074)) by (apply Z.pow_pos_nonneg; lia).
  assert (EP : 2 ^ (F + 1074) = 2 ^ (F - ez) * 2 ^ (ez + 1074)).
  { rewrite <- Z.pow_add_r by lia. f_equal. lia. }
  assert (EA : Z.pos p * 2 ^ (e + 1074) = Z.pos mz * 2 ^ (ez + 1074)).
  { rewrite Em. rewrite <- Z.mul_assoc, <- Z.pow_add_r by lia. do 2 f_equal. lia. }
  pose proof (Z.div_mod (Z.pos mz) (2 ^ (F - ez)) ltac:(lia)) as DM.
  pose proof (Z.mod_pos_bound (Z.pos mz) (2 ^ (F - ez)) K) as MB.
  fold lowm in DM.
  apply neighbours_rounded with (lowm := lowm); try lia.
  - rewrite EA, EP. nia.
  - destruct Hv as [->|[-> [Hx|Hx]]]; [left; reflexivity|congruence|].
    right. split; [reflexivity|]. rewrite EA, EP. nia.
Qed.

Lemma digits2_le : forall p j, 0 <= j -> Z.pos p < 2 ^ j -> Z.pos (digits2_pos p) <= j.
Proof.
  intros p j Hj H. pose proof (digits2_bounds p) as [B _].
  assert (L : 2 ^ (Z.pos (digits2_pos p) - 1) < 2 ^ j) by lia.
  apply Z.pow_lt_mono_r_iff in L; lia.
Qed.

Lemma digits2_ge : forall p j, 0 <= j -> 2 ^ j <= Z.pos p -> j + 1 <= Z.pos (digits2_pos p).
Proof.
  intros p j Hj H. pose proof (digits2_bounds p) as [_ B].
  assert (L : 2 ^ j < 2 ^ Z.pos (digits2_pos p)) by lia.
  apply Z.pow_lt_mono_r_iff in L; lia.
Qed.

(** [binary_normalize] rounds [z * 2^e] to a neighbour. *)
Lemma binary_normalize_rounded : forall z e,
  -1074 <= e -> Z.abs z * 2 ^ (e + 1074) < 2 ^ 2000 ->
  finiteSF (binary_normalize prec emax z e false) /\
  roundedQ (z * 2 ^ (e + 1074)) 1 (scaled (binary_normalize prec emax z e false)).
Proof.
  intros z e He Hz.
  assert (Hd : forall p, Z.pos p * 2 ^ (e + 1074) < 2 ^ 2000 ->
                         Z.pos (digits2_pos p) + e <= 1023).
  { intros p Hp. pose proof (digits2_bounds p) as [B _].
    assert (W : 0 < 2 ^ (e + 1074)) by (apply Z.pow_pos_nonneg; lia).
    assert (L : 2 ^ (Z.pos (digits2_pos p) - 1 + (e + 1074)) < 2 ^ 2000).
    { rewrite Z.pow_add_r by lia. nia. }
    apply Z.pow_lt_mono_r_iff in L; lia. }
  destruct z as [|p|p]; cbn [binary_normalize].
  - split; [exact I|]. cbn [scaled]. rewrite Z.mul_0_l. apply roundedQ_refl.
  - destruct (binary_round_rounded false p e He (Hd p Hz)) as (v & _ & Hf & Hs & Hr).
    split; [exact Hf|]. rewrite Hs. exact Hr.
  - change (Z.abs (Z.neg p)) with (Z.pos p) in Hz.
    destruct (binary_round_rounded true p e He (Hd p Hz)) as (v & _ & Hf & Hs & Hr).
    split; [exact Hf|]. rewrite Hs.
    replace (Z.neg p * 2 ^ (e + 1074)) with (- (Z.pos p * 2 ^ (e + 1074)))
      by (rewrite <- Pos2Z.opp_pos; ring).
    apply roundedQ_opp. exact Hr.
Qed.

Lemma aligned_scaled : forall s m e ez, -1074 <= ez -> ez <= e ->
  cond_Zopp s (Z.pos (fst (shl_align m e ez))) * 2 ^ (ez + 1074)
  = scaled (S754_finite s m e).
Proof.
  intros s m e ez Hz He. destruct (shl_align_spec m e ez) as (_ & Em & _).
  rewrite Em, Z.min_r by lia. cbn [scaled].
  replace (e + 1074) with ((e - ez) + (ez + 1074)) by lia.
  rewrite (Z.pow_add_r 2 (e - ez) (ez + 1074)) by lia.
  destruct s; cbn [cond_Zopp]; rewrite <- ?Pos2Z.opp_pos; ring.
Qed.

Lemma scaled_abs_bound : forall s m e, -1074 <= e ->
  Z.abs (scaled (S754_finite s m e)) = Z.pos m * 2 ^ (e + 1074).
Proof.
  intros s m e He. cbn [scaled].
  assert (W : 0 < 2 ^ (e + 1074)) by (apply Z.pow_pos_nonneg; lia).
  destruct s; [rewrite <- Pos2Z.opp_pos|]; nia.
Qed.

(** Addition and subtraction round the sum and the difference. *)
Lemma SFadd_rounded : forall x y, finiteSF x -> finiteSF y ->
  Z.abs (scaled x) + Z.abs (scaled y) < 2 ^ 2000 ->
  finiteSF (SFadd prec emax x y) /\
  roundedQ (scaled x + scaled y) 1 (scaled (SFadd prec emax x y)).
Proof.
  intros x y Hx Hy Hb.
  destruct x as [sx|sx| |sx mx ex]; try contradiction;
  destruct y as [sy|sy| |sy my ey]; try contradiction.
  - destruct sx, sy; cbn [SFadd scaled]; split; try exact I; apply roundedQ_refl.
  - cbn [SFadd]. split; [exact Hy|]. cbn [scaled]. rewrite Z.add_0_l. apply roundedQ_refl.
  - cbn [SFadd]. split; [exact Hx|]. cbn [scaled]. rewrite Z.add_0_r. apply roundedQ_refl.
  - destruct (finite_canonical sx mx ex Hx) as (Hex & _).
    destruct (finite_canonical sy my ey Hy) as (Hey & _).
    cbn [SFadd]. set (ez := Z.min ex ey).
    pose proof (aligned_scaled sx mx ex ez ltac:(lia) ltac:(lia)) as Ax.
    pose proof (aligned_scaled sy my ey ez ltac:(lia) ltac:(lia)) as Ay.
    set (zx := cond_Zopp sx (Z.pos (fst (shl_align mx ex ez)))) in *.
    set (zy := cond_Zopp sy (Z.pos (fst (shl_align my ey ez)))) in *.
    assert (W : 0 < 2 ^ (ez + 1074)) by (apply Z.pow_pos_nonneg; lia).
    assert (E : (zx + zy) * 2 ^ (ez + 1074)
                = scaled (S754_finite sx mx ex) + scaled (S754_finite sy my ey))
      by (rewrite <- Ax, <- Ay; ring).
    rewrite <- E. apply binary_normalize_rounded; [lia|].
    rewrite <- Ax, <- Ay, !Z.abs_mul, (Z.abs_eq (2 ^ (ez + 1074))) in Hb by lia.
    assert (T : Z.abs (zx + zy) <= Z.abs zx + Z.abs zy) by lia.
    apply Z.le_lt_trans with (2 := Hb). rewrite <- Z.mul_add_distr_r.
    apply Z.mul_le_mono_nonneg_r; lia.
Qed.

Lemma SFsub_rounded : forall x y, finiteSF x -> finiteSF y ->
  Z.abs (scaled x) + Z.abs (scaled y) < 2 ^ 2000 ->
  finiteSF (SFsub prec emax x y) /\
  roundedQ (scaled x - scaled y) 1 (scaled (SFsub prec emax x y)).
Proof.
  intros x y Hx Hy Hb.
  destruct x as [sx|sx| |sx mx ex]; try contradiction;
  destruct y as [sy|sy| |sy my ey]; try contradiction.
  - destruct sx, sy; cbn [SFsub scaled]; split; try exact I; apply roundedQ_refl.
  - cbn [SFsub]. split; [exact Hy|].
    replace (scaled (S754_zero sx) - scaled (S754_finite sy my ey))
      with (scaled (S754_finite (negb sy) my ey))
      by (cbn [scaled]; destruct sy; cbn [negb]; rewrite <- ?Pos2Z.opp_pos; ring).
    apply roundedQ_refl.
  - cbn [SFsub]. split; [exact Hx|]. cbn [scaled]. rewrite Z.sub_0_r. apply roundedQ_refl.
  - destruct (finite_canonical sx mx ex Hx) as (Hex & _).
    destruct (finite_canonical sy my ey Hy) as (Hey & _).
    cbn [SFsub]. set (ez := Z.min ex ey).
    pose proof (aligned_scaled sx mx ex ez ltac:(lia) ltac:(lia)) as Ax.
    pose proof (aligned_scaled sy my ey ez ltac:(lia) ltac:(lia)) as Ay.
    set (zx := cond_Zopp sx (Z.pos (fst (shl_align mx ex ez)))) in *.
    set (zy := cond_Zopp sy (Z.pos (fst (shl_align my ey ez)))) in *.
    assert (W : 0 < 2 ^ (ez + 1074)) by (apply Z.pow_pos_nonneg; lia).
    assert (E : (zx - zy) * 2 ^ (ez + 1074)
                = scaled (S754_finite sx mx ex) - scaled (S754_finite sy my ey))
      by (rewrite <- Ax, <- Ay; ring).
    rewrite <- E. apply binary_normalize_rounded; [lia|].
    rewrite <- Ax, <- Ay, !Z.abs_mul, (Z.abs_eq (2 ^ (ez + 1074))) in Hb by lia.
    assert (T : Z.abs (zx - zy) <= Z.abs zx + Z.abs zy) by lia.
    apply Z.le_lt_trans with (2 := Hb). rewrite <- Z.mul_add_distr_r.
    apply Z.mul_le_mono_nonneg_r; lia.
Qed.

Lemma Zdigits2_le : forall q j, 0 <= j -> 0 <= q < 2 ^ j -> Zdigits2 q <= j.
Proof.
  intros q j Hj [H0 H]. destruct q as [|p|p]; try lia.
  - cbn [Zdigits2]. exact Hj.
  - cbn [Zdigits2]. apply digits2_le; assumption.
Qed.

Lemma Zdigits2_ge : forall q j, 0 <= j -> 2 ^ j <= q -> j + 1 <= Zdigits2 q.
Proof.
  intros q j Hj H. assert (0 < 2 ^ j) by (apply Z.pow_pos_nonneg; lia).
  destruct q as [|p|p]; try lia.
  cbn [Zdigits2]. apply digits2_ge; assumption.
Qed.

Lemma new_location_exact : forall n r, r = 0 -> new_location n r = loc_Exact.
Proof.
  intros n r ->. unfold new_location, new_location_even, new_location_odd.
  destruct (Z.even n); reflexivity.
Qed.

(** Division by a number that is at least 1 rounds the quotient. *)
Lemma SFdiv_rounded : forall x m2 e2,
  finiteSF x -> finiteSF (S754_finite false m2 e2) ->
  Z.abs (scaled x) < 2 ^ 1500 -> 2 ^ 1074 <= scaled (S754_finite false m2 e2) ->
  finiteSF (SFdiv prec emax x (S754_finite false m2 e2)) /\
  roundedQ (scaled x * 2 ^ 1074) (scaled (S754_finite false m2 e2))
           (scaled (SFdiv prec emax x (S754_finite false m2 e2))).
Proof.
  intros x m2 e2 Hx Hy Hbx Hby.
  destruct (finite_canonical false m2 e2 Hy) as (He2 & Hm2 & _).
  assert (W2 : 0 < 2 ^ (e2 + 1074)) by (apply Z.pow_pos_nonneg; lia).
  assert (Hb : 0 < scaled (S754_finite false m2 e2)) by (cbn [scaled]; nia).
  destruct x as [sx|sx| |sx m1 e1]; try contradiction.
  { cbn [SFdiv]. split; [exact I|]. cbn [scaled]. rewrite Z.mul_0_l.
    intros y _. split; intros H; nia. }
  destruct (finite_canonical sx m1 e1 Hx) as (He1 & Hm1 & _).
  assert (W1 : 0 < 2 ^ (e1 + 1074)) by (apply Z.pow_pos_nonneg; lia).
  rewrite scaled_abs_bound in Hbx by lia.
  pose proof (digits2_bounds m1) as [B1 B1'].
  pose proof (digits2_bounds m2) as [B2 B2'].
  set (d1 := Z.pos (digits2_pos m1)) in *. set (d2 := Z.pos (digits2_pos m2)) in *.
  assert (Hd1 : 1 <= d1) by (unfold d1; lia).
  assert (Hd2 : 1 <= d2) by (unfold d2; lia).
  assert (Hde1 : d1 + e1 <= 427).
  { assert (L : 2 ^ (d1 - 1 + (e1 + 1074)) < 2 ^ 1500).
    { rewrite Z.pow_add_r by lia.
      apply Z.le_lt_trans with (2 := Hbx). apply Z.mul_le_mono_nonneg_r; lia. }
    apply Z.pow_lt_mono_r_iff in L; lia. }
  assert (Hde2 : 1 <= d2 + e2).
  { cbn [scaled] in Hby.
    assert (L : 2 ^ 1074 < 2 ^ (d2 + (e2 + 1074))).
    { rewrite Z.pow_add_r by lia.
      apply Z.le_lt_trans with (1 := Hby). apply Z.mul_lt_mono_pos_r; lia. }
    apply Z.pow_lt_mono_r_iff in L; lia. }
  cbn [SFdiv]. unfold SFdiv_core_binary. cbn [Zdigits2]. fold d1 d2.
  set (X0 := d1 + e1 - (d2 + e2)).
  set (e' := Z.min (fexp prec emax X0) (e1 - e2)).
  assert (He' : e' <= fexp prec emax X0 /\ e' <= e1 - e2) by (unfold e'; lia).
  assert (He'' : e' = fexp prec emax X0 \/ e' = e1 - e2) by (unfold e'; lia).
  clearbody e'.
  set (s := e1 - e2 - e').
  assert (Hs : 0 <= s) by (unfold s; lia).
  set (m' := match s with
             | 0 => Z.pos m1
             | Z.pos _ => Z.shiftl (Z.pos m1) s
             | Z.neg _ => 0
             end).
  assert (Em' : m' = Z.pos m1 * 2 ^ s).
  { unfold m'. destruct s as [|ps|ps] eqn:Es; [cbn; lia| |lia].
    rewrite Z.shiftl_mul_pow2 by lia. reflexivity. }
  clearbody m'.
  assert (Ps : 0 < 2 ^ s) by (apply Z.pow_pos_nonneg; lia).
  assert (Bm' : 2 ^ (d1 - 1 + s) <= m' < 2 ^ (d1 + s)).
  { rewrite Em', !Z.pow_add_r by lia. split.
    - apply Z.mul_le_mono_nonneg_r; lia.
    - apply Z.mul_lt_mono_pos_r; lia. }
  pose proof (Z_div_mod m' (Z.pos m2) ltac:(lia)) as DM.
  destruct (Z.div_eucl m' (Z.pos m2)) as [q r]. destruct DM as [DM Hr].
  rewrite xorb_false_r.
  assert (Hq : 0 <= q) by nia.
  (* the size of the quotient *)
  assert (Hqhi : Zdigits2 q + e' <= 1023).
  { rewrite fexp_spec in He'.
    destruct (Z_le_gt_dec 0 (d1 + s - d2 + 1)) as [C|C].
    - assert (q < 2 ^ (d1 + s - d2 + 1)).
      { assert (L : 2 ^ (d2 - 1) * q < 2 ^ (d2 - 1) * 2 ^ (d1 + s - d2 + 1)).
        { rewrite <- Z.pow_add_r by lia. replace (d2 - 1 + (d1 + s - d2 + 1)) with (d1 + s) by lia.
          apply Z.le_lt_trans with (2 := proj2 Bm'). nia. }
        apply Z.mul_lt_mono_pos_l in L; [exact L|]. apply Z.pow_pos_nonneg; lia. }
      pose proof (Zdigits2_le q (d1 + s - d2 + 1) C ltac:(lia)). unfold s, X0 in *. lia.
    - assert (q = 0).
      { assert (L : 2 ^ (d1 + s) <= 2 ^ (d2 - 1)) by (apply Z.pow_le_mono_r; lia).
        nia. }
      subst q. cbn [Zdigits2]. unfold X0 in *. lia. }
  assert (Hk : e' <= fexp prec emax (Zdigits2 q + e')).
  { rewrite fexp_spec. destruct (Z_le_gt_dec e' (-1074)) as [C|C]; [lia|].
    rewrite fexp_spec in He', He''.
    assert (Hge : 0 <= d1 + s - 1 - d2) by (unfold s, X0 in *; lia).
    assert (2 ^ (d1 + s - 1 - d2) <= q).
    { destruct (Z_le_gt_dec (2 ^ (d1 + s - 1 - d2)) q) as [L|L]; [exact L|exfalso].
      assert (Z.pos m2 * (q + 1) <= Z.pos m2 * 2 ^ (d1 + s - 1 - d2))
        by (apply Z.mul_le_mono_nonneg_l; lia).
      assert (Z.pos m2 * 2 ^ (d1 + s - 1 - d2) < 2 ^ d2 * 2 ^ (d1 + s - 1 - d2)).
      { apply Z.mul_lt_mono_pos_r; [apply Z.pow_pos_nonneg; lia|lia]. }
      rewrite <- Z.pow_add_r in H0 by lia.
      replace (d2 + (d1 + s - 1 - d2)) with (d1 - 1 + s) in H0 by lia. lia. }
    pose proof (Zdigits2_ge q (d1 + s - 1 - d2) Hge H). unfold s, X0 in *. lia. }
  set (E := fexp prec emax (Zdigits2 q + e')) in *.
  assert (HEmax : E + 1 <= emax - prec).
  { unfold E. rewrite fexp_spec. unfold emax, prec. lia. }
  pose proof (fexp_ge_emin (Zdigits2 q + e')) as HEmin. fold E in HEmin.
  destruct (binary_round_aux_neighbours sx q e' (new_location (Z.pos m2) r) Hq Hk HEmax)
    as (v & Hv & Hfin & Hsc).
  destruct (shifted_mantissa q e' Hq Hk) as [Hlow Hnorm].
  fold E in Hv, Hsc, Hlow, Hnorm.
  set (lowm := q / 2 ^ (E - e')) in *.
  split; [exact Hfin|]. rewrite Hsc.
  assert (P : 0 < 2 ^ (E + 1074)) by (apply Z.pow_pos_nonneg; lia).
  assert (K : 0 < 2 ^ (E - e')) by (apply Z.pow_pos_nonneg; lia).
  pose proof (Z.div_mod q (2 ^ (E - e')) ltac:(lia)) as QM.
  pose proof (Z.mod_pos_bound q (2 ^ (E - e')) K) as QB. fold lowm in QM.
  (* the quotient, in multiples of [2^-1074] *)
  set (A := Z.pos m1 * 2 ^ (e1 + 1074) * 2 ^ 1074).
  set (b := Z.pos m2 * 2 ^ (e2 + 1074)).
  assert (Pb : 0 < b) by (unfold b; nia).
  assert (EAT : A * (Z.pos m2 * 2 ^ (E - e')) = m' * (2 ^ (E + 1074) * b)).
  { unfold A, b. rewrite Em'.
    assert (X : 2 ^ (e1 + 1074) * 2 ^ 1074 * 2 ^ (E - e')
                = 2 ^ s * 2 ^ (E + 1074) * 2 ^ (e2 + 1074)).
    { rewrite <- !Z.pow_add_r by lia. f_equal. unfold s. lia. }
    transitivity (Z.pos m1 * Z.pos m2 * (2 ^ (e1 + 1074) * 2 ^ 1074 * 2 ^ (E - e')));
      [ring|]. rewrite X. ring. }
  set (T := Z.pos m2 * 2 ^ (E - e')) in *.
  assert (PT : 0 < T) by (unfold T; nia).
  set (Q := 2 ^ (E + 1074)) in *.
  set (rm := Z.pos m2 * (q mod 2 ^ (E - e')) + r).
  assert (EM : m' = lowm * T + rm).
  { unfold T, rm. rewrite DM. rewrite QM at 1. ring. }
  assert (Hrm : 0 <= rm < T).
  { unfold rm, T. split.
    { assert (0 <= Z.pos m2 * (q mod 2 ^ (E - e'))) by (apply Z.mul_nonneg_nonneg; lia).
      lia. }
    assert (Z.pos m2 * (q mod 2 ^ (E - e')) <= Z.pos m2 * (2 ^ (E - e') - 1))
      by (apply Z.mul_le_mono_nonneg_l; lia).
    lia. }
  assert (Hlo : lowm * T <= m') by lia.
  assert (Hhi : m' < (lowm + 1) * T) by lia.
  assert (PQb : 0 < Q * b) by (apply Z.mul_pos_pos; assumption).
  assert (R : roundedQ A b (v * Q)).
  { apply neighbours_rounded with (lowm := lowm); try assumption.
    - split.
      + apply (Z.mul_le_mono_pos_r _ _ T PT). rewrite EAT.
        assert (lowm * T * (Q * b) <= m' * (Q * b))
          by (apply Z.mul_le_mono_nonneg_r; lia). lia.
      + apply (Z.mul_lt_mono_pos_r T _ _ PT). rewrite EAT.
        assert (m' * (Q * b) < (lowm + 1) * T * (Q * b))
          by (apply Z.mul_lt_mono_pos_r; lia). lia.
    - destruct Hv as [->|[-> Hvx]]; [left; reflexivity|right; split; [reflexivity|]].
      assert (Hlo' : lowm * T < m').
      { assert (0 < rm); [|lia]. unfold rm. destruct Hvx as [Hvx|Hvx].
        - assert (r <> 0) by (intros Hr0; apply Hvx, new_location_exact; exact Hr0).
          assert (0 <= Z.pos m2 * (q mod 2 ^ (E - e'))) by (apply Z.mul_nonneg_nonneg; lia).
          lia.
        - assert (0 < Z.pos m2 * (q mod 2 ^ (E - e'))) by (apply Z.mul_pos_pos; lia).
          lia. }
      apply (Z.mul_lt_mono_pos_r T _ _ PT). rewrite EAT.
      assert (lowm * T * (Q * b) < m' * (Q * b))
        by (apply Z.mul_lt_mono_pos_r; lia). lia. }
  cbn [scaled]. fold b. destruct sx.
  - replace (Z.neg m1 * 2 ^ (e1 + 1074) * 2 ^ 1074) with (- A)
      by (unfold A; rewrite <- Pos2Z.opp_pos; ring).
    replace (- v * Q) with (- (v * Q)) by ring.
    apply roundedQ_opp. exact R.
  - exact R.
Qed.

(** ** Signs of the results *)

Lemma SFmul_nonneg : forall x y, finiteSF x -> finiteSF y ->
  0 <= scaled x * scaled y -> nonnegSF (SFmul prec emax x y).
Proof.
  intros x y Hx Hy H.
  destruct x as [sx|sx| |sx mx ex]; try contradiction;
  destruct y as [sy|sy| |sy my ey]; try contradiction; try exact I.
  destruct (finite_canonical sx mx ex Hx) as (Hex & _).
  destruct (finite_canonical sy my ey Hy) as (Hey & _).
  assert (Wx : 0 < 2 ^ (ex + 1074)) by (apply Z.pow_pos_nonneg; lia).
  assert (Wy : 0 < 2 ^ (ey + 1074)) by (apply Z.pow_pos_nonneg; lia).
  cbn [SFmul]. apply signedSF_nonneg.
  replace (xorb sx sy) with false.
  - apply binary_round_aux_signed. lia.
  - cbn [scaled] in H. destruct sx, sy; try reflexivity; exfalso.
    + assert (Z.neg mx * 2 ^ (ex + 1074) < 0) by (apply Z.mul_neg_pos; lia).
      assert (0 < Z.pos my * 2 ^ (ey + 1074)) by (apply Z.mul_pos_pos; lia).
      nia.
    + assert (Z.neg my * 2 ^ (ey + 1074) < 0) by (apply Z.mul_neg_pos; lia).
      assert (0 < Z.pos mx * 2 ^ (ex + 1074)) by (apply Z.mul_pos_pos; lia).
      nia.
Qed.

Lemma SFadd_nonneg : forall x y,
  nonnegSF x -> nonnegSF y -> nonnegSF (SFadd prec emax x y).
Proof.
  intros x y Hx Hy.
  destruct x as [sx|sx| |sx mx ex]; try contradiction;
  destruct y as [sy|sy| |sy my ey]; try contradiction;
  cbn [nonnegSF] in Hx, Hy; subst; try exact I; try reflexivity.
  - destruct sx, sy; exact I.
  - cbn [SFadd cond_Zopp Z.add binary_normalize]. unfold binary_round.
    destruct (shl_align _ _ _) as [mz ez].
    apply signedSF_nonneg, binary_round_aux_signed. lia.
Qed.

Lemma SFdiv_nonneg : forall x m e,
  nonnegSF x -> nonnegSF (SFdiv prec emax x (S754_finite false m e)).
Proof.
  intros x m e Hx.
  destruct x as [sx|sx| |sx mx ex]; try contradiction;
  cbn [nonnegSF] in Hx; subst; try exact I; try reflexivity.
  cbn [SFdiv xorb]. unfold SFdiv_core_binary.
  set (m' := match _ with 0 => Z.pos mx | Z.pos _ => Z.shiftl (Z.pos mx) _ | Z.neg _ => 0 end).
  assert (Hm' : 0 <= m').
  { unfold m'. destruct (_ - _ - _); try lia. apply Z.shiftl_nonneg. lia. }
  pose proof (Z_div_mod m' (Z.pos m) ltac:(lia)) as DM.
  destruct (Z.div_eucl m' (Z.pos m)) as [q r]. destruct DM as [DM Hr].
  apply signedSF_nonneg, binary_round_aux_signed. nia.
Qed.

Lemma SFsqrt_nonneg : forall x, nonnegSF x -> nonnegSF (SFsqrt prec emax x).
Proof.
  intros x Hx.
  destruct x as [sx|sx| |sx mx ex]; try contradiction;
  cbn [nonnegSF] in Hx; subst; try exact I; try reflexivity.
  cbn [SFsqrt]. unfold SFsqrt_core_binary.
  set (m' := match _ with 0 => Z.pos mx | Z.pos _ => Z.shiftl (Z.pos mx) _ | Z.neg _ => 0 end).
  pose proof (Z.sqrtrem_sqrt m') as Hs.
  destruct (Z.sqrtrem m') as [q r]. cbn [fst] in Hs.
  apply signedSF_nonneg, binary_round_aux_signed.
  rewrite Hs. apply Z.sqrt_nonneg.
Qed.

Lemma leb_zero_nonneg : forall f, nonnegSF (Prim2SF f) -> (0 <=? f)%float = true.
Proof.
  intros f H. rewrite FloatAxioms.leb_spec.
  change (Prim2SF 0) with (S754_zero false).
  destruct (Prim2SF f) as [s|s| |s m e]; try contradiction; cbn [nonnegSF] in H;
    subst; reflexivity.
Qed.

(** ** Powers of two *)

Lemma representable_pos_small : forall h, 0 < h < 2 ^ 53 -> representable h.
Proof.
  intros h Hh. exists (S754_finite false (Z.to_pos h) (-1074)). split.
  - cbn [finiteSF]. unfold SpecFloat.bounded, canonical_mantissa.
    apply andb_true_iff. split; [|reflexivity]. apply Z.eqb_eq.
    rewrite fexp_spec.
    pose proof (digits2_le (Z.to_pos h) 53 ltac:(lia)) as L.
    rewrite Z2Pos.id in L by lia. specialize (L ltac:(lia)). lia.
  - cbn [scaled]. rewrite Z2Pos.id by lia. change (2 ^ (-1074 + 1074)) with 1. lia.
Qed.

Lemma representable_pow2 : forall j, 0 <= j <= 2000 -> representable (2 ^ j).
Proof.
  intros j Hj. destruct (Z_le_gt_dec j 52) as [H|H].
  - apply representable_pos_small. split; [apply Z.pow_pos_nonneg; lia|].
    apply Z.pow_lt_mono_r; lia.
  - exists (S754_finite false 4503599627370496 (j - 52 - 1074)). split.
    + cbn [finiteSF]. unfold SpecFloat.bounded, canonical_mantissa.
      change (digits2_pos 4503599627370496) with 53%positive.
      apply andb_true_iff. split; [apply Z.eqb_eq; rewrite fexp_spec; lia|].
      apply Z.leb_le. unfold emax, prec. lia.
    + cbn [scaled]. change (Z.pos 4503599627370496) with (2 ^ 52).
      rewrite <- Z.pow_add_r by lia. f_equal. lia.
Qed.

(** ** One pass of the loop, in multiples of [2^-1074] *)

Lemma roundedQ_exact : forall a b z, 0 < b -> representable a ->
  roundedQ (a * b) b z -> z = a.
Proof.
  intros a b z Hb Ha H. destruct (H a Ha) as [H1 H2].
  specialize (H1 ltac:(lia)). specialize (H2 ltac:(lia)). lia.
Qed.

(** The quotient [delta / n] added to the mean: for a difference
    [D >= 0] it lies between [0] and [D]. *)
Lemma quotient_within_pos : forall D delta n Q,
  0 <= D <= 2 ^ 1999 -> 1 <= n -> (2 <= n \/ representable D) ->
  roundedQ D 1 delta ->
  roundedQ (delta * 2 ^ 1074) (n * 2 ^ 1074) Q ->
  0 <= delta /\ 0 <= Q <= D /\ (n = 1 -> representable D -> Q = D).
Proof.
  intros D delta n Q HD Hn Hcase Hd Hq.
  assert (W : 0 < 2 ^ 1074) by (apply Z.pow_pos_nonneg; lia).
  set (u := 2 ^ 1074) in *. clearbody u.
  assert (Hd0 : 0 <= delta).
  { destruct (Hd 0 representable_0) as [H _]. apply H. lia. }
  assert (HQ0 : 0 <= Q).
  { destruct (Hq 0 representable_0) as [H _]. apply H. nia. }
  assert (Hrep : representable D -> delta = D).
  { intros R. apply (roundedQ_exact D 1 delta); [lia|exact R|].
    rewrite Z.mul_1_r. exact Hd. }
  split; [exact Hd0|]. split; [split; [exact HQ0|]|].
  - destruct (Z.eq_dec D 0) as [E0|Hne].
    { subst D. rewrite (Hrep representable_0) in Hq.
      destruct (Hq 0 representable_0) as [_ H]. apply H. nia. }
    assert (upper : forall H, representable H -> delta <= n * H -> Q <= H).
    { intros H RH Hle. destruct (Hq H RH) as [_ G]. apply G.
      assert (delta * u <= n * H * u) by (apply Z.mul_le_mono_nonneg_r; lia). lia. }
    destruct (Z.eq_dec D 1) as [E1|Hne1].
    { subst D. assert (R1 : representable 1) by (apply (representable_pow2 0); lia).
      rewrite (Hrep R1) in upper. apply upper; [exact R1|lia]. }
    destruct Hcase as [Hn2|R].
    + pose proof (Z.log2_up_spec D ltac:(lia)) as [L1 L2].
      set (j := Z.log2_up D) in *.
      assert (Hj : 1 <= j).
      { destruct (Z_le_gt_dec 1 j) as [C|C]; [exact C|].
        assert (2 ^ j <= 2 ^ 0) by (apply Z.pow_le_mono_r; lia).
        change (2 ^ 0) with 1 in *. lia. }
      assert (Hj' : j <= 1999).
      { destruct (Z_le_gt_dec j 1999) as [C|C]; [exact C|].
        assert (2 ^ 1999 <= 2 ^ Z.pred j) by (apply Z.pow_le_mono_r; lia). lia. }
      assert (Rj : representable (2 ^ j)) by (apply representable_pow2; lia).
      assert (Rh : representable (2 ^ Z.pred j)) by (apply representable_pow2; lia).
      assert (Hdj : delta <= 2 ^ j).
      { destruct (Hd (2 ^ j) Rj) as [_ G]. apply G. lia. }
      assert (E2 : 2 ^ j = 2 * 2 ^ Z.pred j).
      { rewrite <- Z.pow_succ_r by lia. f_equal. lia. }
      assert (Q <= 2 ^ Z.pred j); [|lia].
      apply upper; [exact Rh|].
      assert (0 < 2 ^ Z.pred j) by (apply Z.pow_pos_nonneg; lia). nia.
    + rewrite (Hrep R) in upper. apply upper; [exact R|]. nia.
  - intros -> R. rewrite (Hrep R), Z.mul_1_l in Hq.
    apply (roundedQ_exact D u Q); assumption.
Qed.

Lemma quotient_within : forall D delta n Q,
  Z.abs D <= 2 ^ 1999 -> 1 <= n -> (2 <= n \/ representable D) ->
  roundedQ D 1 delta ->
  roundedQ (delta * 2 ^ 1074) (n * 2 ^ 1074) Q ->
  (0 <= D -> 0 <= delta /\ 0 <= Q <= D) /\
  (D <= 0 -> delta <= 0 /\ D <= Q <= 0) /\
  (n = 1 -> representable D -> Q = D).
Proof.
  intros D delta n Q HD Hn Hcase Hd Hq. split; [|split].
  - intros H0. destruct (quotient_within_pos D delta n Q) as (A & B & _); auto. lia.
  - intros H0.
    destruct (quotient_within_pos (- D) (- delta) n (- Q)) as (A & B & _); try lia.
    + destruct Hcase as [C|C]; [left; exact C|right; apply representable_opp; exact C].
    + apply roundedQ_opp. exact Hd.
    + replace (- delta * 2 ^ 1074) with (- (delta * 2 ^ 1074)) by ring.
      apply roundedQ_opp. exact Hq.
  - intros Hn1 R. destruct (Z_le_gt_dec 0 D) as [C|C].
    + destruct (quotient_within_pos D delta n Q) as (_ & _ & G); auto. lia.
    + destruct (quotient_within_pos (- D) (- delta) n (- Q)) as (_ & _ & G); try lia.
      * right. apply representable_opp. exact R.
      * apply roundedQ_opp. exact Hd.
      * replace (- delta * 2 ^ 1074) with (- (delta * 2 ^ 1074)) by ring.
        apply roundedQ_opp. exact Hq.
      * specialize (G Hn1 (representable_opp D R)). lia.
Qed.

(** ** The loop of [point] on binary64 *)

Lemma normalOrZero_finite : forall lo x, -1074 <= lo -> normalOrZero lo x -> finiteSF x.
Proof.
  intros lo [s|s| |s m e] Hlo H; try contradiction; [exact I|].
  destruct H as [Hd He]. cbn [finiteSF].
  unfold SpecFloat.bounded, canonical_mantissa. rewrite Hd.
  apply andb_true_iff. split; [apply Z.eqb_eq; rewrite fexp_spec; lia|].
  apply Z.leb_le. unfold emax, prec. lia.
Qed.

Lemma of_int_scaled : forall z, Int64.in_range z ->
  finiteSF (Prim2SF (Float64.of_int z)) /\
  scaled (Prim2SF (Float64.of_int z)) = round53 z * 2 ^ 1074.
Proof.
  intros z Hz. destruct (of_int_round z Hz) as [Hn Hs]. split.
  - apply (normalOrZero_finite (-52)); [lia|exact Hn].
  - rewrite Hs, pow_1074. ring.
Qed.

Lemma round53_range : forall z, Int64.in_range z -> - 2 ^ 63 <= round53 z <= 2 ^ 63.
Proof.
  intros z [H1 H2]. unfold Int64.min_int, Int64.max_int in *.
  assert (E1 : round53 (- 2 ^ 63) = - 2 ^ 63) by reflexivity.
  assert (E2 : round53 (2 ^ 63) = 2 ^ 63) by reflexivity.
  pose proof (round53_mono (- 2 ^ 63) z ltac:(lia)).
  pose proof (round53_mono z (2 ^ 63) ltac:(lia)). lia.
Qed.

(** The divisor [float64(n)] of the loop. *)
Lemma of_int_divisor : forall n, 1 <= n <= Int64.max_int ->
  exists m e,
    Prim2SF (Float64.of_int n) = S754_finite false m e /\
    finiteSF (S754_finite false m e) /\
    scaled (S754_finite false m e) = round53 n * 2 ^ 1074 /\
    1 <= round53 n /\ (2 <= n -> 2 <= round53 n) /\ (n = 1 -> round53 n = 1).
Proof.
  intros n Hn. destruct (of_int_positive n ltac:(lia)) as (m & e & E).
  assert (Hr : Int64.in_range n) by (unfold Int64.in_range, Int64.min_int; lia).
  destruct (of_int_scaled n Hr) as [Hf Hs]. rewrite E in Hf, Hs.
  exists m, e. split; [exact E|]. split; [exact Hf|]. split; [exact Hs|].
  assert (E1 : round53 1 = 1) by reflexivity.
  assert (E2 : round53 2 = 2) by reflexivity.
  split; [|split].
  - pose proof (round53_mono 1 n ltac:(lia)). lia.
  - intros H. pose proof (round53_mono 2 n H). lia.
  - intros ->. exact E1.
Qed.

Lemma roundedQ_bound : forall a z j, 0 <= j <= 2000 ->
  Z.abs a <= 2 ^ j -> roundedQ a 1 z -> Z.abs z <= 2 ^ j.
Proof.
  intros a z j Hj Ha H.
  pose proof (representable_pow2 j Hj) as R.
  destruct (H _ R) as [_ H1]. destruct (H _ (representable_opp _ R)) as [H2 _].
  specialize (H1 ltac:(lia)). specialize (H2 ltac:(lia)). lia.
Qed.

(** One pass keeps the invariant: the new mean lies between the old one
    and the price, and the term added to the second moment is not
    negative. *)
Lemma meanStep_inv : forall lo hi i p st,
  0 <= i -> i + 1 <= Int64.max_int -> Int64.in_range p ->
  - 2 ^ 1137 <= lo -> hi <= 2 ^ 1137 ->
  lo <= scaled (Prim2SF (Float64.of_int p)) <= hi ->
  meanInv lo hi i st -> meanInv lo hi (i + 1) (meanStep binary64 i p st).
Proof.
  intros lo hi i p [mean m2] Hi Hi1 Hp Hlo Hhi HX (Hfm & Hm2 & Hrange).
  cbn [fst snd] in *.
  destruct (of_int_scaled p Hp) as [Hfx _].
  destruct (of_int_divisor (i + 1) ltac:(lia)) as (mn & en & En & Hfn & Esn & Hn1 & Hn2 & Hn3).
  unfold meanStep, meanInv.
  cbn [a_of_int a_sub a_add a_div a_mul binary64 fst snd].
  repeat first [rewrite FloatAxioms.add_spec | rewrite FloatAxioms.sub_spec
               | rewrite FloatAxioms.mul_spec | rewrite FloatAxioms.div_spec].
  unfold SF64add, SF64sub, SF64mul, SF64div. rewrite En.
  set (sx := Prim2SF (Float64.of_int p)) in *.
  set (sm := Prim2SF mean) in *.
  set (X := scaled sx) in *. set (M := scaled sm) in *.
  assert (P1137 : 2 * 2 ^ 1137 = 2 ^ 1138) by reflexivity.
  assert (Lt1 : 2 ^ 1138 < 2 ^ 1500) by reflexivity.
  assert (Lt2 : 2 ^ 1500 < 2 ^ 1999) by reflexivity.
  assert (Lt3 : 2 * 2 ^ 1999 = 2 ^ 2000) by reflexivity.
  assert (W : 0 < 2 ^ 1074) by reflexivity.
  set (B := 2 ^ 1137) in *. set (B1 := 2 ^ 1138) in *. set (B2 := 2 ^ 1500) in *.
  set (B3 := 2 ^ 1999) in *. set (B4 := 2 ^ 2000) in *.
  assert (HM : - B <= M <= B /\ (i = 0 -> M = 0)).
  { destruct (Z.eqb_spec i 0) as [E|E]; [|lia].
    split; [|intros _; exact Hrange]. rewrite Hrange. unfold B. lia. }
  destruct HM as [HM HM0].
  (* delta *)
  destruct (SFsub_rounded sx sm Hfx Hfm ltac:(fold X M B4; lia)) as [Hfd Rd].
  fold X M in Rd.
  set (delta := SFsub prec emax sx sm) in *.
  assert (Hd : Z.abs (scaled delta) <= B1).
  { apply (roundedQ_bound (X - M)); [lia|fold B1; lia|exact Rd]. }
  (* the quotient *)
  destruct (SFdiv_rounded delta mn en Hfd Hfn ltac:(fold B2; lia) ltac:(rewrite Esn; nia))
    as [Hfq Rq].
  rewrite Esn in Rq.
  set (q := SFdiv prec emax delta (S754_finite false mn en)) in *.
  assert (Hcase : 2 <= round53 (i + 1) \/ representable (X - M)).
  { destruct (Z.eq_dec i 0) as [E|E].
    - right. rewrite (HM0 E), Z.sub_0_r. apply representable_scaled. exact Hfx.
    - left. apply Hn2. lia. }
  destruct (quotient_within (X - M) (scaled delta) (round53 (i + 1)) (scaled q)
              ltac:(fold B3; lia) Hn1 Hcase Rd Rq) as (Qpos & Qneg & Qone).
  (* the new mean *)
  assert (HQ : Z.abs (scaled q) <= B1).
  { destruct (Z_le_gt_dec 0 (X - M)) as [C|C];
      [destruct (Qpos C) as [_ ?]|destruct (Qneg ltac:(lia)) as [_ ?]]; lia. }
  destruct (SFadd_rounded sm q Hfm Hfq ltac:(fold M B4; lia)) as [Hfm' Rm'].
  fold M in Rm'.
  set (mean' := SFadd prec emax sm q) in *.
  assert (RX : representable X) by (apply representable_scaled; exact Hfx).
  assert (RM : representable M) by (apply representable_scaled; exact Hfm).
  destruct (Rm' X RX) as [RX1 RX2]. destruct (Rm' M RM) as [RM1 RM2].
  assert (Hbetween : (X - M >= 0 -> M <= scaled mean' <= X) /\
                     (X - M <= 0 -> X <= scaled mean' <= M)).
  { split; intros C.
    - destruct (Qpos ltac:(lia)) as [_ ?]. split; [apply RM1|apply RX2]; lia.
    - destruct (Qneg ltac:(lia)) as [_ ?]. split; [apply RX1|apply RM2]; lia. }
  assert (Hfirst : i = 0 -> scaled mean' = X).
  { intros E. specialize (HM0 E).
    assert (scaled q = X - M).
    { apply Qone; [apply Hn3; lia|].
      rewrite HM0, Z.sub_0_r. exact RX. }
    assert (X <= scaled mean') by (apply RX1; lia).
    assert (scaled mean' <= X) by (apply RX2; lia). lia. }
  assert (Hnew : lo <= scaled mean' <= hi).
  { destruct (Z.eq_dec i 0) as [E|E]; [rewrite (Hfirst E); exact HX|].
    destruct (Z.eqb_spec i 0) as [E'|_]; [contradiction|].
    destruct Hbetween as [B5 B6].
    destruct (Z_le_gt_dec 0 (X - M)) as [C|C];
      [specialize (B5 ltac:(lia))|specialize (B6 ltac:(lia))]; lia. }
  (* the second difference and the product *)
  destruct (SFsub_rounded sx mean' Hfx Hfm' ltac:(fold X B4; lia)) as [Hfd2 Rd2].
  fold X in Rd2.
  set (delta2 := SFsub prec emax sx mean') in *.
  assert (Hsign : 0 <= scaled delta * scaled delta2).
  { destruct (Rd2 0 representable_0) as [Z1 Z2].
    destruct Hbetween as [B5 B6].
    destruct (Z_le_gt_dec 0 (X - M)) as [C|C].
    - specialize (B5 ltac:(lia)). destruct (Qpos C) as [? _].
      specialize (Z1 ltac:(lia)). apply Z.mul_nonneg_nonneg; lia.
    - specialize (B6 ltac:(lia)). destruct (Qneg ltac:(lia)) as [? _].
      specialize (Z2 ltac:(lia)). apply Z.mul_nonpos_nonpos; lia. }
  split; [exact Hfm'|]. split.
  - apply SFadd_nonneg; [exact Hm2|]. apply SFmul_nonneg; assumption.
  - destruct (Z.eqb_spec (i + 1) 0) as [E|_]; [lia|exact Hnew].
Qed.

Lemma meanLoopFrom_inv : forall lo hi ps i st,
  0 <= i -> i + len ps <= Int64.max_int ->
  - 2 ^ 1137 <= lo -> hi <= 2 ^ 1137 ->
  Forall (fun p => Int64.in_range p /\
                   lo <= scaled (Prim2SF (Float64.of_int p)) <= hi) ps ->
  meanInv lo hi i st ->
  meanInv lo hi (i + len ps) (meanLoopFrom binary64 i ps st).
Proof.
  intros lo hi ps. induction ps as [|p ps IH]; intros i st Hi Hlen Hlo Hhi Hall Hinv.
  - cbn [meanLoopFrom]. unfold len. cbn [length]. rewrite Z.add_0_r. exact Hinv.
  - cbn [meanLoopFrom]. inversion Hall as [|? ? [Hp HX] Hall']; subst.
    unfold len in *. cbn [length] in *.
    replace (i + Z.of_nat (S (length ps))) with (i + 1 + Z.of_nat (length ps)) by lia.
    apply IH; try assumption; try lia.
    apply meanStep_inv; try assumption; lia.
Qed.

(** The stored mean lies between the smallest and the largest price,
    converted, and the stored second moment is not negative. *)
Lemma meanLoop_binary64 : forall ps a b,
  ps <> [] -> len ps <= Int64.max_int ->
  Int64.in_range a -> Int64.in_range b -> Forall (fun p => a <= p <= b) ps ->
  let st := meanLoop binary64 ps in
  finiteSF (Prim2SF (fst st)) /\ nonnegSF (Prim2SF (snd st)) /\
  round53 a * 2 ^ 1074 <= scaled (Prim2SF (fst st)) <= round53 b * 2 ^ 1074.
Proof.
  intros ps a b Hne Hlen Ha Hb Hall st.
  assert (W : 0 < 2 ^ 1074) by reflexivity.
  assert (E : 2 ^ 63 * 2 ^ 1074 = 2 ^ 1137) by reflexivity.
  pose proof (round53_range a Ha) as Ra. pose proof (round53_range b Hb) as Rb.
  assert (I0 : meanInv (round53 a * 2 ^ 1074) (round53 b * 2 ^ 1074) 0 (0%float, 0%float)).
  { split; [exact I|]. split; [exact I|]. reflexivity. }
  pose proof (meanLoopFrom_inv (round53 a * 2 ^ 1074) (round53 b * 2 ^ 1074) ps 0
                (0%float, 0%float) ltac:(lia) ltac:(lia)) as H.
  remember (2 ^ 1074) as u eqn:Eu. remember (2 ^ 1137) as B eqn:EB.
  specialize (H ltac:(nia) ltac:(nia)).
  assert (Hall' : Forall (fun p => Int64.in_range p /\
             round53 a * u <= scaled (Prim2SF (Float64.of_int p)) <= round53 b * u) ps).
  { apply Forall_impl with (2 := Hall). intros p Hp.
    assert (Hr : Int64.in_range p).
    { unfold Int64.in_range in *. lia. }
    split; [exact Hr|]. destruct (of_int_scaled p Hr) as [_ ->]. rewrite <- Eu.
    pose proof (round53_mono a p ltac:(lia)). pose proof (round53_mono p b ltac:(lia)).
    nia. }
  specialize (H Hall' I0). destruct H as (H1 & H2 & H3).
  change (meanLoopFrom binary64 0 ps (0%float, 0%float)) with (meanLoop binary64 ps) in *.
  fold st in H1, H2, H3.
  split; [exact H1|]. split; [exact H2|].
  destruct (Z.eqb_spec (0 + len ps) 0) as [E0|_]; [|exact H3].
  exfalso. apply Hne. apply len_nil_iff. lia.
Qed.

(** ** The loop without rounding *)

Local Open Scope R_scope.

Lemma IZR_len_cons : forall (p : Z) (l : list Z), IZR (len (p :: l)) = IZR (len l) + 1.
Proof.
  intros p l. unfold len. cbn [length]. rewrite Nat2Z.inj_succ, succ_IZR. reflexivity.
Qed.

Lemma IZR_len_pos : forall (l : list Z), l <> [] -> 0 < IZR (len l).
Proof.
  intros l H. apply IZR_lt. pose proof (len_pos l H). lia.
Qed.

Lemma meanStep_exact : forall (k p : Z) (S Q : R), (0 < k)%Z ->
  meanStep exact k p (S / IZR k, Q - S * S / IZR k)
  = ((S + IZR p) / IZR (k + 1),
     Q + IZR p * IZR p - (S + IZR p) * (S + IZR p) / IZR (k + 1)).
Proof.
  intros k p S Q Hk. unfold meanStep. cbn [a_of_int a_sub a_add a_div a_mul exact].
  rewrite plus_IZR.
  assert (Hk' : 0 < IZR k) by (apply IZR_lt; exact Hk).
  f_equal; field; lra.
Qed.

Lemma meanLoopFrom_exact : forall (l : list Z) (k : Z) (S Q : R), (0 < k)%Z ->
  meanLoopFrom exact k l (S / IZR k, Q - S * S / IZR k)
  = ((S + sumR l) / IZR (k + len l),
     Q + sumSqR l - (S + sumR l) * (S + sumR l) / IZR (k + len l)).
Proof.
  induction l as [|p l IH]; intros k S Q Hk.
  - cbn [meanLoopFrom sumR sumSqR fold_right]. unfold len. cbn [length].
    rewrite Z.add_0_r, !Rplus_0_r. reflexivity.
  - cbn [meanLoopFrom]. rewrite meanStep_exact by exact Hk.
    rewrite IH by lia. cbn [sumR sumSqR fold_right].
    fold (sumR l) (sumSqR l).
    replace (k + 1 + len l)%Z with (k + len (p :: l))%Z
      by (unfold len; cbn [length]; lia).
    assert (HD : 0 < IZR (k + len (p :: l))).
    { apply IZR_lt. pose proof (len_nonneg (p :: l)). lia. }
    set (D := IZR (k + len (p :: l))) in *. clearbody D.
    f_equal; field; lra.
Qed.

Lemma meanLoop_exact : forall (l : list Z), l <> [] ->
  meanLoop exact l
  = (sumR l / IZR (len l), sumSqR l - sumR l * sumR l / IZR (len l)).
Proof.
  intros l Hne. destruct l as [|p l]; [contradiction|].
  unfold meanLoop. cbn [meanLoopFrom]. change (0 + 1)%Z with 1%Z.
  assert (E : meanStep exact 0 p (a_zero exact, a_zero exact)
              = (IZR p / IZR 1, IZR p * IZR p - IZR p * IZR p / IZR 1)).
  { unfold meanStep. cbn [a_of_int a_sub a_add a_div a_mul a_zero exact].
    change (0 + 1)%Z with 1%Z. f_equal; field. }
  rewrite E, meanLoopFrom_exact by lia.
  cbn [sumR sumSqR fold_right]. fold (sumR l) (sumSqR l).
  replace (1 + len l)%Z with (len (p :: l)) by (unfold len; cbn [length]; lia).
  reflexivity.
Qed.

Lemma sqDevR_expand : forall (c : R) (l : list Z),
  sqDevR c l = sumSqR l - 2 * c * sumR l + IZR (len l) * c * c.
Proof.
  intros c l. induction l as [|p l IH].
  - cbn [sqDevR sumSqR sumR fold_right]. unfold len. cbn [length]. simpl IZR. ring.
  - rewrite IZR_len_cons. cbn [sqDevR sumSqR sumR fold_right].
    fold (sqDevR c l) (sumSqR l) (sumR l). rewrite IH. ring.
Qed.

Lemma sqDevR_nonneg : forall (c : R) (l : list Z), 0 <= sqDevR c l.
Proof.
  intros c l. induction l as [|p l IH]; cbn [sqDevR fold_right].
  - lra.
  - fold (sqDevR c l). pose proof (Rle_0_sqr (IZR p - c)) as H.
    unfold Rsqr in H. lra.
Qed.

Lemma varianceR_nonneg : forall (l : list Z), l <> [] -> 0 <= varianceR l.
Proof.
  intros l Hne. unfold varianceR.
  pose proof (sqDevR_nonneg (meanR l) l). pose proof (IZR_len_pos l Hne).
  apply Rmult_le_pos; [assumption|]. apply Rlt_le, Rinv_0_lt_compat. assumption.
Qed.

Lemma sumR_equal : forall (v : Z) (l : list Z),
  Forall (eq v) l -> sumR l = IZR (len l) * IZR v.
Proof.
  intros v l H. induction H as [|p l Hp Hl IH].
  - unfold len. cbn [sumR fold_right length]. simpl IZR. ring.
  - rewrite IZR_len_cons. cbn [sumR fold_right]. fold (sumR l).
    rewrite IH. subst p. ring.
Qed.

Lemma sqDevR_equal : forall (v : Z) (l : list Z),
  Forall (eq v) l -> sqDevR (IZR v) l = 0.
Proof.
  intros v l H. induction H as [|p l Hp Hl IH]; cbn [sqDevR fold_right].
  - reflexivity.
  - fold (sqDevR (IZR v) l). rewrite IH. subst p. ring.
Qed.

Lemma varianceR_equal : forall (v : Z) (l : list Z),
  l <> [] -> Forall (eq v) l -> varianceR l = 0.
Proof.
  intros v l Hne H. unfold varianceR.
  assert (E : meanR l = IZR v).
  { unfold meanR. rewrite (sumR_equal v l H).
    pose proof (IZR_len_pos l Hne). field. lra. }
  rewrite E, (sqDevR_equal v l H). unfold Rdiv. ring.
Qed.

Local Close Scope R_scope.

(** On binary64 the mean is a finite number, and the second moment
    divided by [n], and its square root, are not negative (and not
    NaN). *)
Lemma variance_nonneg_binary64 : forall ps,
  ps <> [] -> len ps <= Int64.max_int -> Forall Int64.in_range ps ->
  finiteSF (Prim2SF (fst (meanLoop binary64 ps))) /\
  (0 <=? snd (meanLoop binary64 ps) / Float64.of_int (len ps))%float = true /\
  (0 <=? Float64.Sqrt (snd (meanLoop binary64 ps) / Float64.of_int (len ps)))%float
  = true.
Proof.
  intros ps Hne Hlen Hall.
  assert (Hr : Int64.in_range Int64.min_int /\ Int64.in_range Int64.max_int).
  { unfold Int64.in_range, Int64.min_int, Int64.max_int. lia. }
  destruct Hr as [Hr1 Hr2].
  destruct (meanLoop_binary64 ps Int64.min_int Int64.max_int Hne Hlen Hr1 Hr2)
    as (Hfin & Hm2 & _).
  { apply Forall_impl with (2 := Hall). intros p Hp. exact Hp. }
  split; [exact Hfin|].
  pose proof (len_pos ps Hne) as Hn.
  destruct (of_int_positive (len ps) ltac:(lia)) as (m & e & Hk).
  assert (Hv : nonnegSF (Prim2SF (snd (meanLoop binary64 ps) / Float64.of_int (len ps)))).
  { rewrite FloatAxioms.div_spec, Hk. apply SFdiv_nonneg. exact Hm2. }
  split; [apply leb_zero_nonneg; exact Hv|].
  apply leb_zero_nonneg. unfold Float64.Sqrt.
  rewrite FloatAxioms.sqrt_spec. apply SFsqrt_nonneg. exact Hv.
Qed.

(** On binary64 the mean lies between the least and the greatest price,
    converted. *)
Lemma mean_bounds_binary64 : forall ps lo hi,
  ps <> [] -> len ps <= Int64.max_int ->
  Int64.in_range lo -> Int64.in_range hi -> Forall (fun p => lo <= p <= hi) ps ->
  (IZR (round53 lo) <= toR (fst (meanLoop binary64 ps)) <= IZR (round53 hi))%R.
Proof.
  intros ps lo hi Hne Hlen Hlo Hhi Hall.
  destruct (meanLoop_binary64 ps lo hi Hne Hlen Hlo Hhi Hall) as (_ & _ & H1 & H2).
  unfold toR.
  assert (P : (0 < IZR (2 ^ 1074))%R) by (apply IZR_lt; reflexivity).
  apply IZR_le in H1, H2. rewrite mult_IZR in H1, H2.
  set (u := IZR (2 ^ 1074)) in *. clearbody u.
  set (m := IZR (scaled (Prim2SF (fst (meanLoop binary64 ps))))) in *. clearbody m.
  split.
  - apply Rmult_le_reg_r with (r := u); [exact P|].
    unfold Rdiv. rewrite Rmult_assoc, Rinv_l, Rmult_1_r by lra. exact H1.
  - apply Rmult_le_reg_r with (r := u); [exact P|].
    unfold Rdiv. rewrite Rmult_assoc, Rinv_l, Rmult_1_r by lra. exact H2.
Qed.

(** C2, as the code has it: evaluated without rounding, the loop of
    [point] yields the arithmetic mean and, divided by [n], the
    population variance, which is never negative.  The program evaluates
    the loop in [float64] and stores its mean and the square root of its
    second moment divided by [n]: for [int64] prices, fewer than [2^63] of
    them, the stored variance and the stored deviation are not negative
    (and not NaN), and the stored mean is a finite number between the
    least and the greatest price, converted to [float64].  On prices that all equal one
    value the stored mean is that value, converted, and the stored
    deviation is zero. *)
Theorem point_mean_variance : forall (a : scanAccumulator) (trimPct : Z),
  prices a <> [] ->
  let ps := trimSorted (prices a) trimPct in
  let n := len ps in
  let pt := point a trimPct in
  fst (meanLoop exact ps) = meanR ps /\
  (snd (meanLoop exact ps) / IZR n)%R = varianceR ps /\
  (0 <= varianceR ps)%R /\
  Mean pt = fst (meanLoop binary64 ps) /\
  Stddev pt = Float64.Sqrt (snd (meanLoop binary64 ps) / Float64.of_int n)%float /\
  (Forall Int64.in_range (prices a) -> n <= Int64.max_int ->
     (0 <=? snd (meanLoop binary64 ps) / Float64.of_int n)%float = true /\
     (0 <=? Stddev pt)%float = true /\
     finiteSF (Prim2SF (Mean pt)) /\
     (forall lo hi : Z,
        Int64.in_range lo -> Int64.in_range hi ->
        Forall (fun p => lo <= p <= hi) (prices a) ->
        (IZR (round53 lo) <= toR (Mean pt) <= IZR (round53 hi))%R)) /\
  (forall v : Z,
     Int64.in_range v -> n <= Int64.max_int -> Forall (eq v) (prices a) ->
     varianceR ps = 0%R /\ Mean pt = Float64.of_int v /\ Stddev pt = 0%float).
Proof.
  intros a trimPct Hne ps n pt.
  assert (Hn : 1 <= n) by (apply trimSorted_nonempty; exact Hne).
  assert (Hps : ps <> []).
  { intros E. unfold n in Hn. rewrite E in Hn. unfold len in Hn. simpl in Hn. lia. }
  destruct (point_fields a trimPct Hne) as (_ & _ & _ & _ & _ & _ & _ & _ & Hmean & Hsd).
  fold ps n pt in Hmean, Hsd.
  rewrite (meanLoop_exact ps Hps). cbn [fst snd].
  split; [reflexivity|]. split.
  { unfold varianceR, meanR. rewrite sqDevR_expand. fold n.
    pose proof (IZR_len_pos ps Hps) as Hpos. fold n in Hpos.
    field. apply Rgt_not_eq, Hpos. }
  split; [apply varianceR_nonneg; exact Hps|].
  split; [exact Hmean|]. split; [exact Hsd|]. split.
  { intros Hall Hlen.
    assert (Hall' : Forall Int64.in_range ps) by (apply trimSorted_Forall; exact Hall).
    destruct (variance_nonneg_binary64 ps Hps Hlen Hall') as (V0 & V1 & V2).
    fold n in V1, V2.
    split; [exact V1|]. split; [rewrite Hsd; exact V2|].
    split; [rewrite Hmean; exact V0|].
    intros lo hi Hlo Hhi Hb. rewrite Hmean.
    apply mean_bounds_binary64; try assumption.
    apply trimSorted_Forall. exact Hb. }
  intros v Hv Hlen Hall.
  assert (Hall' : Forall (eq v) ps) by (apply trimSorted_Forall; exact Hall).
  split; [apply (varianceR_equal v); assumption|].
  rewrite Hmean, Hsd, (meanLoop_equal_values v ps Hv Hps Hlen Hall'). cbn [fst snd].
  split; [reflexivity|].
  destruct (of_int_positive n ltac:(lia)) as (m & e & Hk).
  rewrite (float_zero_div _ _ _ Hk). reflexivity.
Qed.

Lemma point_mean_variance_witness :
  let pt := point {| scanID := 1; ts := 100; prices := [10; 20; 30] |} 0 in
  Mean pt = 20%float /\ meanR [10; 20; 30] = 20%R /\
  (0 <=? Stddev pt)%float = true /\
  (IZR (round53 10) <= toR (Mean pt) <= IZR (round53 30))%R.
Proof.
  destruct (point_mean_variance {| scanID := 1; ts := 100; prices := [10; 20; 30] |} 0)
    as (H1 & _ & _ & H4 & _ & H6 & _); [discriminate|].
  cbv zeta in H1, H4, H6. cbv zeta.
  destruct H6 as (_ & S1 & _ & S2).
  { cbn [prices]. repeat (apply Forall_cons; [vm_compute; split; discriminate|]).
    apply Forall_nil. }
  { vm_compute. discriminate. }
  split; [rewrite H4; reflexivity|]. split.
  - change (trimSorted (prices {| scanID := 1; ts := 100; prices := [10; 20; 30] |}) 0)
      with [10; 20; 30] in H1.
    rewrite <- H1. unfold meanLoop, exact. cbn. field.
  - split; [exact S1|]. apply S2.
    + vm_compute. split; discriminate.
    + vm_compute. split; discriminate.
    + cbn [prices]. repeat (apply Forall_cons; [lia|]). apply Forall_nil.
Defined.

(** C2 as stated fails in [float64]: for the prices [0; 0; 1] the stored
    mean is [6004799503160661 * 2^-54], which is not one third. *)
Lemma point_mean_rounded :
  let pt := point {| scanID := 1; ts := 100; prices := [0; 0; 1] |} 0 in
  Prim2SF (Mean pt) = S754_finite false 6004799503160661 (-54) /\
  meanR [0; 0; 1] = (1 / 3)%R /\
  toR (Mean pt) <> meanR [0; 0; 1].
Proof.
  cbv zeta.
  assert (E : Prim2SF (Mean (point {| scanID := 1; ts := 100; prices := [0; 0; 1] |} 0))
              = S754_finite false 6004799503160661 (-54)) by reflexivity.
  assert (M : meanR [0; 0; 1] = (1 / 3)%R).
  { unfold meanR, sumR, len. cbn [fold_right length]. simpl IZR. field. }
  split; [exact E|]. split; [exact M|].
  unfold toR. rewrite E, M. cbn [scaled].
  intros H.
  assert (P : (0 < IZR (2 ^ 1074))%R).
  { apply IZR_lt. apply Z.pow_pos_nonneg; lia. }
  assert (H' : (3 * IZR (6004799503160661 * 2 ^ (-54 + 1074)) = IZR (2 ^ 1074))%R).
  { apply (Rmult_eq_compat_r (3 * IZR (2 ^ 1074))) in H.
    set (u := IZR (2 ^ 1074)) in *. clearbody u.
    set (w := IZR (6004799503160661 * 2 ^ (-54 + 1074))) in *. clearbody w.
    field_simplify in H; [|lra]. lra. }
  rewrite <- mult_IZR in H'. apply eq_IZR in H'.
  revert H'. apply Z.eqb_neq. vm_compute. reflexivity.
Qed.

(** ** Runs of rows and their points *)

Lemma groupRows_cons : forall r rows,
  groupRows (r :: rows) =
  match groupRows rows with
  | (r' :: g) :: gs =>
      if row_scanID r =? row_scanID r'
      then (r :: r' :: g) :: gs
      else [r] :: (r' :: g) :: gs
  | _ => [[r]]
  end.
Proof. reflexivity. Qed.

Lemma groupRows_concat : forall rows, concat (groupRows rows) = rows.
Proof.
  induction rows as [|r rows IH]; [reflexivity|].
  rewrite groupRows_cons.
  destruct (groupRows rows) as [|[|r' g] gs] eqn:E.
  - simpl in IH. subst rows. reflexivity.
  - destruct rows as [|x rs]; [reflexivity|].
    destruct (groupRows_head x rs) as (g' & gs' & H). rewrite H in E. discriminate.
  - destruct (row_scanID r =? row_scanID r'); simpl in *; now rewrite IH.
Qed.

(** Every run holds a row, and its rows carry the [scanId] of the first. *)
Lemma groupRows_runs : forall rows,
  Forall (fun g => g <> [] /\ sameScan (headID g) g) (groupRows rows).
Proof.
  induction rows as [|r rows IH]; [constructor|].
  rewrite groupRows_cons.
  assert (H1 : [r] <> [] /\ sameScan (headID [r]) [r]).
  { split; [discriminate|]. constructor; [reflexivity|constructor]. }
  destruct (groupRows rows) as [|[|r' g] gs] eqn:E.
  - constructor; [exact H1|constructor].
  - constructor; [exact H1|constructor].
  - inversion IH as [|? ? [_ Hg] Hgs]; subst.
    destruct (Z.eqb_spec (row_scanID r) (row_scanID r')) as [Eq|Ne].
    + constructor; [|exact Hgs]. split; [discriminate|].
      cbn [headID] in *. constructor; [reflexivity|]. now rewrite Eq.
    + constructor; [exact H1|]. exact IH.
Qed.

(** On a stream ordered by [scanId] the runs have increasing [scanId]s. *)
Lemma groupRows_increasing : forall rows,
  Sorted Z.le (map row_scanID rows) ->
  StronglySorted Z.lt (map headID (groupRows rows)).
Proof.
  induction rows as [|r rows IH]; intros Hs; [constructor|].
  apply Sorted_StronglySorted in Hs; [|exact Z.le_trans].
  cbn [map] in Hs. inversion Hs as [|? ? Hs' Hall]; subst.
  specialize (IH (StronglySorted_Sorted Hs')).
  rewrite groupRows_cons.
  destruct (groupRows rows) as [|[|r' g] gs] eqn:E.
  - repeat constructor.
  - repeat constructor.
  - destruct rows as [|x rs]; [discriminate|].
    destruct (groupRows_head x rs) as (g' & gs' & H). rewrite H in E.
    injection E as -> -> ->.
    cbn [map] in Hall. inversion Hall as [|? ? Hrx _]; subst.
    destruct (Z.eqb_spec (row_scanID r) (row_scanID r')) as [Eq|Ne].
    + cbn [map headID] in *. now rewrite Eq.
    + cbn [map headID] in *. constructor; [exact IH|].
      inversion IH as [|? ? _ Hgt]; subst.
      constructor; [lia|].
      eapply Forall_impl; [|exact Hgt]. simpl. intros; lia.
Qed.

(** The loop and the flush, run by run. *)
Lemma flush_fold_runs : forall rows trimPct,
  Forall (fun r => row_scanID r <> -1) rows ->
  flush trimPct (fold_left (rowStep trimPct) rows seriesInit)
  = map (reduceGroup trimPct) (groupRows rows).
Proof.
  intros rows trimPct Hall.
  destruct rows as [|x rs]; [reflexivity|].
  inversion Hall; subst. cbn [fold_left]. rewrite rowStep_first.
  rewrite run_open; auto. constructor; [reflexivity|constructor].
Qed.

Lemma len_slice_le : forall [A : Type] (l : list A) a b, len (slice l a b) <= len l.
Proof.
  intros A l a b. unfold len, slice. rewrite length_firstn, length_skipn. lia.
Qed.

Lemma len_trimSorted_le : forall values trimPct,
  len (trimSorted values trimPct) <= len values.
Proof.
  intros values trimPct.
  destruct (trimSorted_is_slice values trimPct) as (a & b & ->).
  apply len_slice_le.
Qed.

Lemma trimSorted_none : forall values trimPct,
  trimPct <= 0 -> trimSorted values trimPct = values.
Proof.
  intros values trimPct H. unfold trimSorted.
  destruct (Z.leb_spec trimPct 0); [reflexivity|lia].
Qed.

Lemma last_default : forall [A : Type] (l : list A) d1 d2,
  l <> [] -> last l d1 = last l d2.
Proof.
  intros A l d1 d2 Hne. destruct l as [|x l]; [contradiction|]. clear Hne.
  revert x. induction l as [|y l IH]; intros x; [reflexivity|].
  change (last (x :: y :: l) d1) with (last (y :: l) d1).
  change (last (x :: y :: l) d2) with (last (y :: l) d2).
  apply IH.
Qed.

(** The point of a run: its [scanId], its timestamp, and how many prices
    it counts. *)
Lemma reduceGroup_fields : forall trimPct g d,
  g <> [] ->
  ScanID (reduceGroup trimPct g) = headID g /\
  TS (reduceGroup trimPct g) = row_ts (last g d) /\
  1 <= N (reduceGroup trimPct g) <= len g /\
  (trimPct <= 0 -> N (reduceGroup trimPct g) = len g).
Proof.
  intros trimPct [|r g] d Hne; [contradiction|].
  cbn [reduceGroup headID].
  set (a := {| scanID := row_scanID r; ts := row_ts (last (r :: g) r);
               prices := map row_price (r :: g) |}).
  assert (Ha : prices a <> []) by discriminate.
  destruct (point_fields a trimPct Ha) as (H1 & H2 & H3 & _).
  rewrite H1, H2, H3. cbn [scanID ts prices a].
  split; [reflexivity|]. split.
  { f_equal. apply last_default. discriminate. }
  assert (L : len (map row_price (r :: g)) = len (r :: g)).
  { unfold len. now rewrite length_map. }
  split.
  - split; [apply trimSorted_nonempty; discriminate|].
    rewrite <- L. apply len_trimSorted_le.
  - intros Ht. rewrite trimSorted_none by exact Ht. exact L.
Qed.

Lemma sumN_app : forall l1 l2, sumN (l1 ++ l2) = sumN l1 + sumN l2.
Proof.
  intros l1 l2. induction l1 as [|p l1 IH]; simpl; [reflexivity|].
  fold (sumN (l1 ++ l2)) (sumN l1). lia.
Qed.

Lemma len_concat_cons : forall [A : Type] (g : list A) gs,
  len (concat (g :: gs)) = len g + len (concat gs).
Proof. intros A g gs. simpl. apply len_app. Qed.

Lemma sumN_runs : forall trimPct gs,
  Forall (fun g => g <> [] /\ sameScan (headID g) g) gs ->
  len gs <= sumN (map (reduceGroup trimPct) gs) <= len (concat gs) /\
  (trimPct <= 0 -> sumN (map (reduceGroup trimPct) gs) = len (concat gs)).
Proof.
  intros trimPct gs H. induction H as [|g gs [Hne _] _ IH].
  - simpl. unfold len. simpl. lia.
  - destruct (reduceGroup_fields trimPct g {| row_scanID := 0; row_ts := 0; row_price := 0 |} Hne)
      as (_ & _ & HN & HN0).
    cbn [map sumN fold_right]. fold (sumN (map (reduceGroup trimPct) gs)).
    rewrite len_concat_cons.
    assert (L : len (g :: gs) = 1 + len gs) by (unfold len; simpl length; lia).
    rewrite L. destruct IH as [IH1 IH2]. split; [lia|].
    intros Ht. rewrite HN0, IH2 by exact Ht. reflexivity.
Qed.

Lemma map_ScanID_runs : forall trimPct gs,
  Forall (fun g => g <> [] /\ sameScan (headID g) g) gs ->
  map ScanID (map (reduceGroup trimPct) gs) = map headID gs.
Proof.
  intros trimPct gs H. induction H as [|g gs [Hne _] _ IH]; [reflexivity|].
  cbn [map]. rewrite IH. f_equal.
  apply (reduceGroup_fields trimPct g {| row_scanID := 0; row_ts := 0; row_price := 0 |} Hne).
Qed.

Lemma In_headID_runs : forall rows i,
  In i (map row_scanID rows) <-> In i (map headID (groupRows rows)).
Proof.
  intros rows i. pose proof (groupRows_runs rows) as Hr.
  pose proof (groupRows_concat rows) as Hc.
  rewrite Forall_forall in Hr. split; intros H.
  - apply in_map_iff in H. destruct H as (r & <- & Hin).
    rewrite <- Hc in Hin. apply in_concat in Hin. destruct Hin as (g & Hg & Hrg).
    apply in_map_iff. exists g. split; [|exact Hg].
    destruct (Hr g Hg) as [_ Hs]. unfold sameScan in Hs.
    rewrite Forall_forall in Hs. symmetry. apply Hs, Hrg.
  - apply in_map_iff in H. destruct H as (g & <- & Hg).
    destruct (Hr g Hg) as [Hne _]. destruct g as [|r g]; [contradiction|].
    apply in_map_iff. exists r. split; [reflexivity|].
    rewrite <- Hc. apply in_concat. exists (r :: g). split; [exact Hg|now left].
Qed.

(** X1: on a row stream ordered by [scanId] (as the query of
    [handleSeries] orders it) in which no row carries the [scanId] -1, the
    loop and the flush yield exactly one point for every [scanId] of the
    stream: the [scanId]s of the points increase strictly, and they are
    the [scanId]s of the rows. *)
Theorem collectPoints_one_point_per_scan : forall (rows : list row) (trimPct : Z),
  Forall (fun r => row_scanID r <> -1) rows ->
  Sorted Z.le (map row_scanID rows) ->
  let pts := collectPoints rows trimPct in
  StronglySorted Z.lt (map ScanID pts) /\
  (forall i, In i (map row_scanID rows) <-> In i (map ScanID pts)).
Proof.
  intros rows trimPct Hall Hs pts. unfold pts.
  rewrite collectPoints_flush, flush_fold_runs by exact Hall.
  rewrite map_ScanID_runs by apply groupRows_runs.
  split; [apply groupRows_increasing; exact Hs|apply In_headID_runs].
Qed.

Lemma collectPoints_one_point_per_scan_witness :
  map ScanID (collectPoints exampleRows 0) = [1; 2] /\
  StronglySorted Z.lt (map ScanID (collectPoints exampleRows 0)).
Proof.
  destruct (collectPoints_one_point_per_scan exampleRows 0) as [H _].
  - repeat constructor; discriminate.
  - repeat constructor; simpl; lia.
  - split; [reflexivity|exact H].
Defined.

(** X2: when no row carries the [scanId] -1, every point counts at
    least one price, the points together count at most the rows of the
    stream, and without trimming ([trimPct <= 0]) they count every row
    exactly once. *)
Theorem collectPoints_counts_rows : forall (rows : list row) (trimPct : Z),
  Forall (fun r => row_scanID r <> -1) rows ->
  let pts := collectPoints rows trimPct in
  Forall (fun p => 1 <= N p) pts /\
  len pts <= sumN pts <= len rows /\
  (trimPct <= 0 -> sumN pts = len rows).
Proof.
  intros rows trimPct Hall pts. unfold pts.
  split; [apply collectPoints_N|].
  rewrite collectPoints_flush, flush_fold_runs by exact Hall.
  pose proof (sumN_runs trimPct (groupRows rows) (groupRows_runs rows)) as H.
  rewrite groupRows_concat in H.
  assert (L : len (map (reduceGroup trimPct) (groupRows rows)) = len (groupRows rows)).
  { unfold len. now rewrite length_map. }
  rewrite L. exact H.
Qed.

Lemma collectPoints_counts_rows_witness :
  sumN (collectPoints exampleRows 0) = 4 /\ len (collectPoints exampleRows 0) = 2.
Proof.
  destruct (collectPoints_counts_rows exampleRows 0) as (_ & _ & H).
  - repeat constructor; discriminate.
  - split; [|reflexivity]. rewrite H by lia. reflexivity.
Defined.

(** ** The bins of a histogram *)

(** X3: for prices in [[-2^62, 2^62)] whose first is below the last, the
    bins tile the line from [min] on: the first bin starts at [min], every
    bin is [width >= 1] wide and ends where the next one starts, and the
    last bin ends at or after [max], less than the number of bins beyond
    it.  The first bin is never empty. *)
Theorem makeHistogram_tiles : forall (sortedPrices : list Z) (bins : Z),
  let n := len sortedPrices in
  let mn := index sortedPrices 0 in
  let mx := index sortedPrices (n - 1) in
  let B := binsUsed bins in
  sortedPrices <> [] -> mn < mx ->
  Forall halfRange sortedPrices -> B <= 2 ^ 62 ->
  exists width res,
    makeHistogram sortedPrices bins = (mn, mx, res) /\
    len res = B /\ 1 <= width /\
    Lo (nth 0 res zeroBin) = mn /\
    (forall i, 0 <= i < B ->
       Hi (nth (Z.to_nat i) res zeroBin) = Lo (nth (Z.to_nat i) res zeroBin) + width) /\
    (forall i, 0 <= i < B - 1 ->
       Hi (nth (Z.to_nat i) res zeroBin) = Lo (nth (Z.to_nat (i + 1)) res zeroBin)) /\
    mx <= Hi (nth (Z.to_nat (B - 1)) res zeroBin) < mx + B /\
    1 <= Count (nth 0 res zeroBin).
Proof.
  intros ps bins n mn mx B Hne Hlt Hall HB.
  assert (Hmm : mn <> mx) by lia.
  destruct (makeHistogram_layout_int64 ps bins Hne Hmm) as (res & Hres & Hlen & Hbins).
  fold n mn mx B in Hres, Hlen, Hbins.
  destruct (ends_no_wrap ps Hne Hall) as (Hmn & Hmx & Hsub).
  fold n mn mx in Hmn, Hmx, Hsub. rewrite Hsub in Hbins.
  set (width := Z.max 1 (ceilDiv (mx - mn) B)) in *.
  pose proof (binsUsed_pos bins) as HB0. fold B in HB0.
  assert (Hex : forall i, 0 <= i < B ->
            Lo (nth (Z.to_nat i) res zeroBin) = mn + i * width /\
            Hi (nth (Z.to_nat i) res zeroBin) = mn + i * width + width).
  { intros i Hrange. destruct (Hbins i Hrange) as (H1 & H2 & _).
    destruct (layout_no_wrap mn mx B i Hmn Hmx Hmm ltac:(lia) Hrange) as [E1 E2].
    fold width in E1, E2. cbv zeta in H1, H2. rewrite H2, H1, E1, E2. auto. }
  destruct (ceilDiv_bound (mx - mn) B ltac:(lia) HB0) as (C0 & C1 & C2).
  assert (Hw : width = ceilDiv (mx - mn) B).
  { unfold width. apply Z.max_r.
    destruct (Z_lt_le_dec (ceilDiv (mx - mn) B) 1) as [H|H]; [|exact H].
    assert (ceilDiv (mx - mn) B = 0) by lia. nia. }
  exists width, res. split; [exact Hres|]. split; [exact Hlen|].
  split; [unfold width; lia|]. split.
  { destruct (Hex 0 ltac:(lia)) as [E _]. change (Z.to_nat 0) with 0%nat in E. lia. }
  split.
  { intros i Hi. destruct (Hex i Hi) as [E1 E2]. lia. }
  split.
  { intros i Hi. destruct (Hex i ltac:(lia)) as [_ E2].
    destruct (Hex (i + 1) ltac:(lia)) as [E1 _]. lia. }
  split.
  { destruct (Hex (B - 1) ltac:(lia)) as [_ E2]. rewrite E2, Hw. nia. }
  destruct (Hbins 0 ltac:(lia)) as (_ & _ & H3). cbv zeta in H3.
  change (Z.to_nat 0) with 0%nat in H3. rewrite H3.
  apply countIf_In with (p := mn).
  - apply index_In. pose proof (len_pos ps Hne). lia.
  - rewrite (halfRange_sub mn mn Hmn Hmn), Z.sub_diag.
    rewrite Z.div_0_l by (unfold width; lia). unfold clamp.
    apply Z.eqb_eq. lia.
Qed.

Lemma makeHistogram_tiles_witness :
  exists width res,
    makeHistogram [0; 50; 100] 10 = (0, 100, res) /\ len res = 10 /\ 1 <= width /\
    Lo (nth 0 res zeroBin) = 0 /\
    100 <= Hi (nth 9 res zeroBin) < 110.
Proof.
  destruct (makeHistogram_tiles [0; 50; 100] 10)
    as (width & res & H1 & H2 & H3 & H4 & _ & _ & H7 & _).
  - discriminate.
  - vm_compute. reflexivity.
  - repeat constructor; vm_compute; discriminate.
  - vm_compute. discriminate.
  - exists width, res. repeat split; try assumption; apply H7.
Defined.

(** ** Trimming a sorted list *)

(** X4: for a percentage of at most 100 and fewer than [2^53] prices,
    trimming does not panic, keeps the order and adds nothing: of a
    sorted list it returns a sorted list, every price it returns is a
    price of the input, and it returns no more prices than it was
    given. *)
Theorem trimSorted_keeps_order : forall (values : list Z) (trimPct : Z),
  sorted values -> trimPct <= 100 -> len values < 2 ^ 53 ->
  trimSorted_panics values trimPct = false /\
  sorted (trimSorted values trimPct) /\
  (forall p, In p (trimSorted values trimPct) -> In p values) /\
  len (trimSorted values trimPct) <= len values.
Proof.
  intros values trimPct Hs Hp Hn.
  split; [apply trimSorted_no_panic; assumption|].
  split; [apply trimSorted_sorted; exact Hs|].
  split; [|apply len_trimSorted_le].
  intros p Hin. destruct (trimSorted_is_slice values trimPct) as (a & b & E).
  rewrite E in Hin. eapply In_slice. exact Hin.
Qed.

Lemma trimSorted_keeps_order_witness :
  trimSorted [1; 2; 3; 4; 5; 6; 7; 8; 9; 10] 20 = [3; 4; 5; 6; 7; 8] /\
  sorted (trimSorted [1; 2; 3; 4; 5; 6; 7; 8; 9; 10] 20).
Proof.
  split; [vm_compute; reflexivity|].
  destruct (trimSorted_keeps_order [1; 2; 3; 4; 5; 6; 7; 8; 9; 10] 20) as (_ & H & _).
  - repeat constructor; simpl; lia.
  - lia.
  - vm_compute. reflexivity.
  - exact H.
Defined.

(** ** A scan of one price *)

(** Two numbers that are plus zero or normal and stand for the same value
    are the same. *)
Lemma normalOrZero_scaled_inj : forall lo1 lo2 x y,
  -1074 <= lo1 -> -1074 <= lo2 ->
  normalOrZero lo1 x -> normalOrZero lo2 y -> scaled x = scaled y -> x = y.
Proof.
  intros lo1 lo2 x y H1 H2 Hx Hy E.
  destruct x as [sx| | |sx mx ex]; cbn [normalOrZero] in Hx; try contradiction;
  destruct y as [sy| | |sy my ey]; cbn [normalOrZero] in Hy; try contradiction.
  - congruence.
  - destruct Hy as [_ He]. cbn [scaled] in E.
    assert (0 < 2 ^ (ey + 1074)) by (apply Z.pow_pos_nonneg; lia).
    destruct sy; nia.
  - destruct Hx as [_ He]. cbn [scaled] in E.
    assert (0 < 2 ^ (ex + 1074)) by (apply Z.pow_pos_nonneg; lia).
    destruct sx; nia.
  - destruct Hx as [Hdx Hex]. destruct Hy as [Hdy Hey]. cbn [scaled] in E.
    assert (Px : 0 < 2 ^ (ex + 1074)) by (apply Z.pow_pos_nonneg; lia).
    assert (Py : 0 < 2 ^ (ey + 1074)) by (apply Z.pow_pos_nonneg; lia).
    assert (Hs : sx = sy) by (destruct sx, sy; try reflexivity; nia).
    subst sy.
    assert (Hm : Z.pos mx * 2 ^ (ex + 1074) = Z.pos my * 2 ^ (ey + 1074))
      by (destruct sx; nia).
    destruct (Z.lt_trichotomy ex ey) as [L|[L|L]].
    + pose proof (normal_lt mx ex my ey Hdx Hdy ltac:(lia) L). lia.
    + subst ey. assert (Z.pos mx = Z.pos my) by nia. congruence.
    + pose proof (normal_lt my ey mx ex Hdy Hdx ltac:(lia) L). lia.
Qed.

(** Half of the doubled price, converted, is the converted price. *)
Lemma of_int_double_half : forall v, halfRange v ->
  (Float64.of_int (Int64.add v v) / 2)%float = Float64.of_int v.
Proof.
  intros v Hv. destruct (halfRange_sum v v Hv Hv) as [Hs Hr]. rewrite Hs.
  apply Prim2SF_inj.
  pose proof (div2_halves (-52) _ _ ltac:(lia) (of_int_round (v + v) Hr)) as [N1 S1].
  pose proof (of_int_round v (halfRange_in_range v Hv)) as [N2 S2].
  apply (normalOrZero_scaled_inj (-52 - 1) (-52)); try lia; try assumption.
  rewrite S1, S2. replace (v + v) with (2 * v) by ring.
  now rewrite round53_double.
Qed.

Lemma index_equal : forall v l i, Forall (eq v) l -> 0 <= i < len l -> index l i = v.
Proof.
  intros v l i Hall Hi. rewrite Forall_forall in Hall.
  symmetry. apply Hall, index_In, Hi.
Qed.

Lemma medianSorted_equal : forall v l,
  halfRange v -> l <> [] -> Forall (eq v) l -> medianSorted l = Float64.of_int v.
Proof.
  intros v l Hv Hne Hall. rewrite medianSorted_cases.
  pose proof (len_pos l Hne) as Hn.
  destruct (Z.eqb_spec (len l) 0) as [E|_]; [lia|].
  destruct (half_facts (len l) ltac:(lia)) as (_ & _ & Hdm & Hmb).
  rewrite (Zmod_odd (len l)) in *.
  destruct (Z.odd (len l)).
  - now rewrite (index_equal v) by (auto; lia).
  - rewrite !(index_equal v) by (auto; lia). now apply of_int_double_half.
Qed.

(** X5: a scan whose prices all equal [v] (in [[-2^62, 2^62)], fewer than
    [2^53] of them), trimmed by a percentage of at most 100, is reduced
    without a panic to the flat point: minimum, quartiles, median, maximum
    and mean are all [float64(v)], and the deviation is zero. *)
Theorem point_equal_prices : forall (a : scanAccumulator) (trimPct v : Z),
  prices a <> [] -> Forall (eq v) (prices a) -> halfRange v ->
  trimPct <= 100 -> len (prices a) < 2 ^ 53 ->
  let pt := point a trimPct in
  trimSorted_panics (prices a) trimPct = false /\
  Min pt = Float64.of_int v /\ Q1 pt = Float64.of_int v /\
  Median pt = Float64.of_int v /\ Q3 pt = Float64.of_int v /\
  Max pt = Float64.of_int v /\ Mean pt = Float64.of_int v /\
  Stddev pt = 0%float.
Proof.
  intros a trimPct v Hne Hall Hv Hpct Hlen53 pt.
  split; [apply trimSorted_no_panic; assumption|].
  assert (Hlen : len (prices a) <= Int64.max_int).
  { unfold Int64.max_int.
    assert (2 ^ 53 < 2 ^ 63 - 1) by reflexivity. lia. }
  destruct (point_fields a trimPct Hne)
    as (_ & _ & _ & Hmin & Hmax & Hmed & Hq1 & Hq3 & Hmean & Hsd).
  fold pt in Hmin, Hmax, Hmed, Hq1, Hq3, Hmean, Hsd.
  set (ps := trimSorted (prices a) trimPct) in *.
  set (n := len ps) in *.
  assert (Hn : 1 <= n) by (apply trimSorted_nonempty; exact Hne).
  assert (Hps : ps <> []).
  { intros E. unfold n in Hn. rewrite E in Hn. unfold len in Hn. simpl in Hn. lia. }
  assert (Hall' : Forall (eq v) ps) by (apply trimSorted_Forall; exact Hall).
  assert (Hn' : n <= Int64.max_int).
  { pose proof (len_trimSorted_le (prices a) trimPct). fold ps n in H. lia. }
  destruct (half_facts n ltac:(lia)) as (_ & _ & Hdm & Hmb).
  assert (Hm : medianSorted ps = Float64.of_int v) by now apply medianSorted_equal.
  assert (Hhalf : forall lo hi, 0 <= lo -> lo < hi -> hi <= n ->
            medianSorted (slice ps lo hi) = Float64.of_int v).
  { intros lo hi H0 H1 H2. apply medianSorted_equal; [exact Hv| |now apply Forall_slice].
    intros E. pose proof (len_slice ps lo hi H0 ltac:(lia) H2) as L.
    rewrite E in L. unfold len in L. simpl in L. lia. }
  rewrite Hmin, Hmax, Hmed, Hq1, Hq3, Hmean, Hsd.
  rewrite !(index_equal v) by (auto; fold n; lia).
  rewrite (meanLoop_equal_values v ps (halfRange_in_range v Hv) Hps Hn' Hall').
  cbn [fst snd].
  destruct (of_int_positive n ltac:(lia)) as (m & e & Hk).
  rewrite (float_zero_div _ _ _ Hk).
  destruct (Z.gtb_spec n 1) as [H1|H1].
  - rewrite !Hhalf by lia. rewrite Hm. repeat split; reflexivity.
  - rewrite Hm. repeat split; reflexivity.
Qed.

Lemma point_equal_prices_witness :
  let pt := point {| scanID := 1; ts := 100; prices := [7; 7; 7; 7] |} 0 in
  Min pt = 7%float /\ Q1 pt = 7%float /\ Median pt = 7%float /\ Q3 pt = 7%float /\
  Max pt = 7%float /\ Mean pt = 7%float /\ Stddev pt = 0%float.
Proof.
  destruct (point_equal_prices {| scanID := 1; ts := 100; prices := [7; 7; 7; 7] |} 0 7)
    as (_ & H).
  - discriminate.
  - repeat constructor.
  - vm_compute. split; [discriminate|reflexivity].
  - lia.
  - vm_compute. reflexivity.
  - exact H.
Defined.

(** ** Strings *)

Lemma strlen_nonneg : forall s, 0 <= strlen s.
Proof. intros s. unfold strlen. lia. Qed.

Lemma strlen_cons : forall a s, strlen (String.String a s) = 1 + strlen s.
Proof. intros a s. unfold strlen. cbn [String.length]. lia. Qed.

Lemma strlen_append : forall a b, strlen (a ++ b)%string = strlen a + strlen b.
Proof.
  intros a b. induction a as [|c a IH]; [reflexivity|].
  change (String.String c a ++ b)%string with (String.String c (a ++ b)%string).
  rewrite !strlen_cons, IH. lia.
Qed.

Lemma strlen_zero : forall s, strlen s = 0 -> s = ""%string.
Proof.
  intros [|a s] H; [reflexivity|]. rewrite strlen_cons in H.
  pose proof (strlen_nonneg s). lia.
Qed.

Lemma eqb_empty : forall s, String.eqb s "" = true <-> s = ""%string.
Proof. intros s. apply String.eqb_eq. Qed.

Lemma substring_all : forall s, String.substring 0 (String.length s) s = s.
Proof. induction s as [|a s IH]; simpl; [reflexivity|]. now rewrite IH. Qed.

Lemma substring_append_l : forall a b,
  String.substring 0 (String.length a) (a ++ b)%string = a.
Proof.
  induction a as [|c a IH]; intros b; simpl.
  - destruct b; reflexivity.
  - now rewrite IH.
Qed.

Lemma substring_append_r : forall a b k n,
  String.substring (String.length a + k) n (a ++ b)%string = String.substring k n b.
Proof. induction a as [|c a IH]; intros b k n; simpl; [reflexivity|apply IH]. Qed.

Lemma substr_append_l : forall a b, substr (a ++ b)%string 0 (strlen a) = a.
Proof.
  intros a b. unfold substr, strlen. rewrite Z.sub_0_r, Nat2Z.id.
  change (Z.to_nat 0) with 0%nat. apply substring_append_l.
Qed.

(** The stretch between a byte after [a] and the last byte. *)
Lemma substr_middle : forall a c m d,
  substr (a ++ String.String c (m ++ String.String d ""))%string
         (strlen a + 1) (strlen a + 1 + strlen m) = m.
Proof.
  intros a c m d. unfold substr, strlen.
  replace (Z.to_nat (Z.of_nat (String.length a) + 1))
    with (String.length a + 1)%nat by lia.
  replace (Z.to_nat (Z.of_nat (String.length a) + 1 + Z.of_nat (String.length m)
                     - (Z.of_nat (String.length a) + 1)))
    with (String.length m) by lia.
  rewrite substring_append_r. simpl. apply substring_append_l.
Qed.

Lemma IndexByte_bounds : forall s c,
  -1 <= strings.IndexByte s c < strlen s.
Proof.
  induction s as [|a s IH]; intros c; cbn [strings.IndexByte].
  - unfold strlen. simpl. lia.
  - rewrite strlen_cons. specialize (IH c).
    destruct (Ascii.eqb a c); [pose proof (strlen_nonneg s); lia|].
    destruct (Z.ltb_spec (strings.IndexByte s c) 0); lia.
Qed.

(** Where [IndexByte] finds the byte, the string splits there, and the
    byte does not occur before. *)
Lemma IndexByte_split : forall s c,
  0 <= strings.IndexByte s c ->
  exists pre post,
    s = (pre ++ String.String c post)%string /\
    strlen pre = strings.IndexByte s c /\
    strings.IndexByte pre c = -1.
Proof.
  induction s as [|a s IH]; intros c H; cbn [strings.IndexByte] in *; [lia|].
  destruct (Ascii.eqb_spec a c) as [->|Ne].
  - exists ""%string, s. repeat split.
  - destruct (Z.ltb_spec (strings.IndexByte s c) 0) as [L|L]; [lia|].
    destruct (IH c L) as (pre & post & E & Hl & Hn).
    exists (String.String a pre), post. rewrite strlen_cons. split; [|split].
    + simpl. now rewrite <- E.
    + lia.
    + cbn [strings.IndexByte]. destruct (Ascii.eqb_spec a c); [contradiction|].
      rewrite Hn. reflexivity.
Qed.

Lemma IndexByte_append : forall pre c post,
  strings.IndexByte pre c = -1 ->
  strings.IndexByte (pre ++ String.String c post)%string c = strlen pre.
Proof.
  induction pre as [|a pre IH]; intros c post H; cbn [strings.IndexByte String.append] in *.
  - rewrite Ascii.eqb_refl. reflexivity.
  - rewrite strlen_cons. destruct (Ascii.eqb a c); [lia|].
    destruct (Z.ltb_spec (strings.IndexByte pre c) 0) as [L|L]; [|lia].
    assert (E : strings.IndexByte pre c = -1).
    { pose proof (IndexByte_bounds pre c). lia. }
    rewrite (IH c post E). pose proof (strlen_nonneg pre).
    destruct (Z.ltb_spec (strlen pre) 0); lia.
Qed.

Lemma LastIndexByte_bounds : forall s c,
  -1 <= strings.LastIndexByte s c < strlen s.
Proof.
  induction s as [|a s IH]; intros c; cbn [strings.LastIndexByte].
  - unfold strlen. simpl. lia.
  - rewrite strlen_cons. specialize (IH c). pose proof (strlen_nonneg s).
    destruct (Z.leb_spec 0 (strings.LastIndexByte s c)); [lia|].
    destruct (Ascii.eqb a c); lia.
Qed.

Lemma LastIndexByte_end : forall s c,
  strings.LastIndexByte (s ++ String.String c "")%string c = strlen s.
Proof.
  induction s as [|a s IH]; intros c; cbn [strings.LastIndexByte String.append].
  - rewrite Ascii.eqb_refl. reflexivity.
  - rewrite IH, strlen_cons. pose proof (strlen_nonneg s).
    destruct (Z.leb_spec 0 (strlen s)); lia.
Qed.

(** A string whose last byte [LastIndexByte] finds ends with that byte. *)
Lemma LastIndexByte_last : forall s c,
  0 <= strings.LastIndexByte s c -> strings.LastIndexByte s c = strlen s - 1 ->
  exists s', s = (s' ++ String.String c "")%string.
Proof.
  induction s as [|a s IH]; intros c H0 H; cbn [strings.LastIndexByte] in *; [lia|].
  rewrite strlen_cons in H. pose proof (strlen_nonneg s).
  destruct (Z.leb_spec 0 (strings.LastIndexByte s c)) as [L|L].
  - destruct (IH c L ltac:(lia)) as (s' & ->). now exists (String.String a s').
  - destruct (Ascii.eqb_spec a c) as [->|Ne]; [|lia].
    assert (E : s = ""%string) by (apply strlen_zero; lia).
    subst s. now exists ""%string.
Qed.

(** A string that ends with [c], split before its end. *)
Lemma append_last : forall a post s' c,
  (a ++ post)%string = (s' ++ String.String c "")%string -> post <> ""%string ->
  exists m, post = (m ++ String.String c "")%string.
Proof.
  induction a as [|x a IH]; intros post s' c E Hne; simpl in E.
  - now exists s'.
  - destruct s' as [|y s']; simpl in E.
    + injection E as _ E. destruct a; [|discriminate]. simpl in E. contradiction.
    + injection E as _ E. now apply (IH post s' c).
Qed.

Lemma append_cons_assoc : forall a c b d,
  (a ++ String.String c (b ++ d))%string = ((a ++ String.String c b) ++ d)%string.
Proof.
  induction a as [|x a IH]; intros c b d; simpl; [reflexivity|]. now rewrite IH.
Qed.

(** ** parseConnectionInfo *)

(** X6: [parseConnectionInfo] reads back what is written as
    [net(addr)]: for a [net] without an opening parenthesis, where [net],
    [addr] and the whole string are not empty and have no white space
    for [strings.TrimSpace] to remove, the result is [(net, addr)],
    whatever parentheses [addr] holds. *)
Theorem parseConnectionInfo_round_trip :
  forall (TrimSpace Quote : String.string -> String.string) (net addr : String.string),
  let s := (net ++ "(" ++ addr ++ ")")%string in
  TrimSpace s = s -> TrimSpace net = net -> TrimSpace addr = addr ->
  net <> ""%string -> addr <> ""%string ->
  strings.IndexByte net "(" = -1 ->
  parseConnectionInfo TrimSpace Quote s = Ok (net, addr).
Proof.
  intros TrimSpace Quote net addr s Hs Hnet Haddr Hn Ha Hopen.
  assert (Es : s = (net ++ String.String "(" (addr ++ String.String ")" ""))%string)
    by reflexivity.
  assert (Ls : strlen s = strlen net + 1 + strlen addr + 1).
  { rewrite Es, strlen_append, strlen_cons, strlen_append, strlen_cons.
    change (strlen ""%string) with 0. lia. }
  assert (La : 1 <= strlen addr).
  { destruct addr as [|c addr]; [contradiction|]. rewrite strlen_cons.
    pose proof (strlen_nonneg addr). lia. }
  pose proof (strlen_nonneg net) as Ln.
  unfold parseConnectionInfo. rewrite Hs.
  destruct (String.eqb_spec s "") as [E|_].
  { rewrite E in Ls. change (strlen ""%string) with 0 in Ls. lia. }
  assert (Io : strings.IndexByte s "(" = strlen net).
  { rewrite Es. apply IndexByte_append. exact Hopen. }
  assert (Ic : strings.LastIndexByte s ")" = strlen s - 1).
  { rewrite Ls, Es, append_cons_assoc, LastIndexByte_end, strlen_append, strlen_cons.
    lia. }
  rewrite Io, Ic.
  destruct (Z.ltb_spec (strlen net) 0) as [L|_]; [lia|].
  rewrite Z.eqb_refl.
  destruct (Z.ltb_spec (strlen s - 1) (strlen net + 2)) as [L|_]; [lia|].
  cbn [orb negb].
  assert (E1 : substr s 0 (strlen net) = net) by (rewrite Es; apply substr_append_l).
  assert (E2 : substr s (strlen net + 1) (strlen s - 1) = addr).
  { replace (strlen s - 1) with (strlen net + 1 + strlen addr) by lia.
    rewrite Es. apply substr_middle. }
  rewrite E1, E2, Hnet, Haddr.
  destruct (String.eqb_spec net "") as [E|_]; [contradiction|].
  destruct (String.eqb_spec addr "") as [E|_]; [contradiction|].
  reflexivity.
Qed.

Lemma parseConnectionInfo_round_trip_witness :
  parseConnectionInfo golib.TrimSpace (fun s => s) "unix(/var/run/mysqld.sock)"
  = Ok ("unix"%string, "/var/run/mysqld.sock"%string).
Proof.
  apply (parseConnectionInfo_round_trip golib.TrimSpace (fun s => s)
           "unix" "/var/run/mysqld.sock");
    try reflexivity; discriminate.
Defined.

(** X7: what [parseConnectionInfo] accepts: a string that is blank, for
    which it gives [("tcp", ":3306")], or one that, trimmed, is
    [pre(mid)] with no opening parenthesis in [pre], for which it gives
    [pre] and [mid], trimmed; neither part of an accepted string is
    empty.  Every other string is an error that quotes the trimmed
    string. *)
Theorem parseConnectionInfo_accepts :
  forall (TrimSpace Quote : String.string -> String.string) (s : String.string),
  match parseConnectionInfo TrimSpace Quote s with
  | Ok (net, addr) =>
      net <> ""%string /\ addr <> ""%string /\
      ((TrimSpace s = ""%string /\ net = "tcp"%string /\ addr = ":3306"%string) \/
       (exists pre mid,
          TrimSpace s = (pre ++ "(" ++ mid ++ ")")%string /\
          strings.IndexByte pre "(" = -1 /\
          net = TrimSpace pre /\ addr = TrimSpace mid))
  | Err e =>
      TrimSpace s <> ""%string /\
      exists why, e = ("invalid MYSQL_CONNECTION_INFO " ++ Quote (TrimSpace s) ++ why)%string
  end.
Proof.
  intros TrimSpace Quote s. unfold parseConnectionInfo.
  set (t := TrimSpace s).
  destruct (String.eqb_spec t "") as [E|Ne].
  { split; [discriminate|]. split; [discriminate|]. left. auto. }
  set (open := strings.IndexByte t "(").
  set (close := strings.LastIndexByte t ")").
  destruct (Z.ltb_spec open 0) as [L1|L1]; cbn [orb].
  { split; [exact Ne|]. eexists. reflexivity. }
  destruct (Z.eqb_spec close (strlen t - 1)) as [L2|L2]; cbn [orb negb].
  2:{ split; [exact Ne|]. eexists. reflexivity. }
  destruct (Z.ltb_spec close (open + 2)) as [L3|L3].
  { split; [exact Ne|]. eexists. reflexivity. }
  destruct (String.eqb_spec (TrimSpace (substr t 0 open)) "") as [E1|N1]; cbn [orb].
  { split; [exact Ne|]. eexists. reflexivity. }
  destruct (String.eqb_spec (TrimSpace (substr t (open + 1) close)) "") as [E2|N2].
  { split; [exact Ne|]. eexists. reflexivity. }
  split; [exact N1|]. split; [exact N2|]. right.
  destruct (IndexByte_split t "(" L1) as (pre & post & Et & Lp & Np).
  fold open in Lp.
  destruct (LastIndexByte_last t ")" ltac:(fold close; lia) L2) as (t' & Et').
  assert (Lt : strlen t = strlen pre + 1 + strlen post).
  { rewrite Et at 1. rewrite strlen_append, strlen_cons. lia. }
  assert (Hpost : post <> ""%string).
  { intros ->. change (strlen ""%string) with 0 in Lt. lia. }
  assert (Ex : ((pre ++ String.String "(" "") ++ post)%string
               = (t' ++ String.String ")" "")%string).
  { rewrite <- Et', Et. symmetry. apply (append_cons_assoc pre "(" "" post). }
  destruct (append_last _ _ _ _ Ex Hpost) as (mid & Em).
  exists pre, mid.
  assert (Et2 : t = (pre ++ String.String "(" (mid ++ String.String ")" ""))%string).
  { rewrite Et, Em. reflexivity. }
  split; [exact Et2|]. split; [exact Np|].
  assert (Lm : strlen post = strlen mid + 1).
  { rewrite Em, strlen_append, strlen_cons. change (strlen ""%string) with 0. lia. }
  split.
  - f_equal. rewrite <- Lp. rewrite Et2 at 1. apply substr_append_l.
  - f_equal. rewrite L2, <- Lp.
    replace (strlen t - 1) with (strlen pre + 1 + strlen mid) by lia.
    rewrite Et2 at 1. apply substr_middle.
Qed.

(** ** The query parameters *)

Lemma parseMaxPointsParam_bounds :
  forall (TrimSpace : String.string -> String.string)
         (Atoi : String.string -> option Z) (r : request),
  match parseMaxPointsParam TrimSpace Atoi r with
  | Ok v => 10 <= v <= 5000
  | Err _ => True
  end.
Proof.
  intros TrimSpace Atoi r. unfold parseMaxPointsParam.
  destruct (String.eqb _ ""); [lia|].
  destruct (Atoi _) as [v|]; [|exact I].
  destruct (Z.ltb_spec v 10); [lia|].
  destruct (Z.gtb_spec v 5000); lia.
Qed.

Lemma parseBinsParam_bounds :
  forall (TrimSpace : String.string -> String.string)
         (Atoi : String.string -> option Z) (r : request) (v : Z),
  parseBinsParam TrimSpace Atoi r = Ok v -> 5 <= v <= 120.
Proof.
  intros TrimSpace Atoi r v. unfold parseBinsParam.
  destruct (String.eqb _ ""); [intros [= <-]; lia|].
  destruct (Atoi _) as [x|]; [|discriminate].
  destruct (Z.ltb_spec x 5); [intros [= <-]; lia|].
  destruct (Z.gtb_spec x 120); intros [= <-]; lia.
Qed.

Lemma parseScanIDParam_ok :
  forall (TrimSpace : String.string -> String.string)
         (ParseInt : String.string -> option Z) (r : request) (v : Z),
  parseScanIDParam TrimSpace ParseInt r = Ok v -> 1 <= v.
Proof.
  intros TrimSpace ParseInt r v. unfold parseScanIDParam.
  destruct (String.eqb _ ""); [discriminate|].
  destruct (ParseInt _) as [x|]; [|discriminate].
  destruct (Z.leb_spec x 0); [discriminate|]. intros [= <-]. lia.
Qed.

(** X8: [parseMaxPointsParam] yields a budget between 10 and 5000: 400
    when the parameter is blank, and the number given, brought into that
    range, otherwise; its only error is a value [strconv.Atoi]
    refuses. *)
Theorem parseMaxPointsParam_range :
  forall (TrimSpace : String.string -> String.string)
         (Atoi : String.string -> option Z) (r : request),
  let raw := TrimSpace (Get (URLQuery r) "maxPoints") in
  match parseMaxPointsParam TrimSpace Atoi r with
  | Ok v =>
      10 <= v <= 5000 /\
      (raw = ""%string -> v = 400) /\
      (forall x, raw <> ""%string -> Atoi raw = Some x -> v = clamp 10 5000 x)
  | Err e => e = "invalid maxPoints"%string /\ raw <> ""%string /\ Atoi raw = None
  end.
Proof.
  intros TrimSpace Atoi r raw. unfold parseMaxPointsParam. fold raw.
  destruct (String.eqb_spec raw "") as [E|Ne].
  { split; [lia|]. split; [reflexivity|]. intros x H. contradiction. }
  destruct (Atoi raw) as [v|] eqn:Ea.
  - unfold clamp.
    destruct (Z.ltb_spec v 10) as [L|L].
    { split; [lia|]. split; [intros; contradiction|]. intros x _ [= <-]. lia. }
    destruct (Z.gtb_spec v 5000) as [G|G].
    { split; [lia|]. split; [intros; contradiction|]. intros x _ [= <-]. lia. }
    split; [lia|]. split; [intros; contradiction|]. intros x _ [= <-]. lia.
  - auto.
Qed.


(** X10: [parseBinsParam] yields a bin count between 5 and 120 (24 when
    the parameter is blank; the number given, brought into that range,
    otherwise), and [makeHistogram] then returns exactly that many bins
    for prices whose first and last differ, one bin when they are equal,
    none for no prices. *)
Theorem parseBinsParam_range :
  forall (TrimSpace : String.string -> String.string)
         (Atoi : String.string -> option Z) (r : request),
  let raw := TrimSpace (Get (URLQuery r) "bins") in
  match parseBinsParam TrimSpace Atoi r with
  | Ok v =>
      5 <= v <= 120 /\
      (raw = ""%string -> v = 24) /\
      (forall x, raw <> ""%string -> Atoi raw = Some x -> v = clamp 5 120 x) /\
      (forall sortedPrices : list Z,
         let '(mn, mx, res) := makeHistogram sortedPrices v in
         len res = if len sortedPrices =? 0 then 0
                   else if mn =? mx then 1 else v)
  | Err e => e = "invalid bins"%string /\ raw <> ""%string /\ Atoi raw = None
  end.
Proof.
  intros TrimSpace Atoi r raw. unfold parseBinsParam. fold raw.
  assert (Hbins : forall v, 5 <= v <= 120 -> forall sortedPrices : list Z,
            let '(mn, mx, res) := makeHistogram sortedPrices v in
            len res = if len sortedPrices =? 0 then 0
                      else if mn =? mx then 1 else v).
  { intros v Hv ps.
    destruct (Z.eqb_spec (len ps) 0) as [E|E].
    { apply len_nil_iff in E. subst ps. reflexivity. }
    assert (Hne : ps <> []) by (intros ->; apply E; reflexivity).
    destruct (Z.eq_dec (index ps 0) (index ps (len ps - 1))) as [Em|Em].
    - unfold makeHistogram. destruct (Z.eqb_spec (len ps) 0); [contradiction|].
      destruct (Z.eqb_spec (index ps 0) (index ps (len ps - 1))); [|contradiction].
      destruct (Z.eqb_spec (index ps 0) (index ps (len ps - 1))); [|contradiction].
      reflexivity.
    - destruct (makeHistogram_layout_int64 ps v Hne Em) as (res & -> & Hlen & _).
      destruct (Z.eqb_spec (index ps 0) (index ps (len ps - 1))); [contradiction|].
      rewrite Hlen. unfold binsUsed. destruct (Z.leb_spec v 0); [lia|reflexivity]. }
  destruct (String.eqb_spec raw "") as [E|Ne].
  { split; [lia|]. split; [reflexivity|]. split; [intros; contradiction|].
    apply Hbins. lia. }
  destruct (Atoi raw) as [v|] eqn:Ea; [|auto].
  unfold clamp.
  destruct (Z.ltb_spec v 5) as [L|L].
  { split; [lia|]. split; [intros; contradiction|].
    split; [intros x _ [= <-]; lia|]. apply Hbins. lia. }
  destruct (Z.gtb_spec v 120) as [G|G].
  { split; [lia|]. split; [intros; contradiction|].
    split; [intros x _ [= <-]; lia|]. apply Hbins. lia. }
  split; [lia|]. split; [intros; contradiction|].
  split; [intros x _ [= <-]; lia|]. apply Hbins. lia.
Qed.

(** X11: [parseScanIDParam] yields only positive scan ids, those
    [strconv.ParseInt] reads; a blank parameter is reported as missing,
    anything else as invalid. *)
Theorem parseScanIDParam_positive :
  forall (TrimSpace : String.string -> String.string)
         (ParseInt : String.string -> option Z) (r : request),
  let raw := TrimSpace (Get (URLQuery r) "scanId") in
  match parseScanIDParam TrimSpace ParseInt r with
  | Ok v => 1 <= v /\ raw <> ""%string /\ ParseInt raw = Some v
  | Err e =>
      (raw = ""%string /\ e = "missing scanId"%string) \/
      (raw <> ""%string /\ e = "invalid scanId"%string /\
       forall v, ParseInt raw = Some v -> v <= 0)
  end.
Proof.
  intros TrimSpace ParseInt r raw. unfold parseScanIDParam. fold raw.
  destruct (String.eqb_spec raw "") as [E|Ne]; [auto|].
  destruct (ParseInt raw) as [v|] eqn:Ep.
  - destruct (Z.leb_spec v 0) as [L|L].
    + right. split; [exact Ne|]. split; [reflexivity|]. intros x [= <-]. exact L.
    + split; [lia|]. auto.
  - right. split; [exact Ne|]. split; [reflexivity|]. intros v H. discriminate.
Qed.

(** ** Reading the rows of a query *)

Lemma forRows_scanned : forall [A S : Type] (body : S -> A -> S) vs st,
  forRows body (map Scanned vs) st = Ok (fold_left body vs st).
Proof.
  intros A S body vs. induction vs as [|v vs IH]; intros st; [reflexivity|].
  cbn [map forRows fold_left]. apply IH.
Qed.

Lemma forRows_ok : forall [A S : Type] (body : S -> A -> S) rows st st',
  forRows body rows st = Ok st' ->
  exists vs, rows = map Scanned vs /\ st' = fold_left body vs st.
Proof.
  intros A S body rows. induction rows as [|[v|msg] rows IH]; intros st st' H;
    cbn [forRows] in H.
  - injection H as <-. now exists [].
  - destruct (IH _ _ H) as (vs & -> & ->). now exists (v :: vs).
  - discriminate.
Qed.

(** The loop ends well exactly when every row is scanned and [rows.Err]
    reports nothing, and then it has run its body on every row. *)
Lemma scanRows_ok : forall [A S : Type] (body : S -> A -> S) src st st',
  scanRows body src st = Ok st' <->
  exists vs, delivered src = map Scanned vs /\ rowsErr src = None /\
             st' = fold_left body vs st.
Proof.
  intros A S body src st st'. unfold scanRows. split.
  - destruct (forRows body (delivered src) st) as [st1|msg] eqn:E; [|discriminate].
    destruct (rowsErr src) as [msg|]; [discriminate|].
    intros [= <-]. destruct (forRows_ok _ _ _ _ E) as (vs & Hd & Hs).
    now exists vs.
  - intros (vs & Hd & He & ->). now rewrite Hd, forRows_scanned, He.
Qed.

Lemma fold_append : forall [A : Type] (vs acc : list A),
  fold_left (fun res v => res ++ [v]) vs acc = acc ++ vs.
Proof.
  intros A vs. induction vs as [|v vs IH]; intros acc; cbn [fold_left].
  - now rewrite app_nil_r.
  - rewrite IH, <- app_assoc. reflexivity.
Qed.

(** ** The sorted and truncated points *)

Lemma sort_truncate : forall (sortSlice : (seriesPoint -> seriesPoint -> bool) ->
                                          list seriesPoint -> list seriesPoint)
                             (pts : list seriesPoint) (maxPoints : Z),
  (forall l, Permutation l (sortSlice lessTS l)) ->
  (forall l, sortedByTS (sortSlice lessTS l)) ->
  0 <= maxPoints ->
  let all := sortSlice lessTS pts in
  let res := if len all >? maxPoints
             then slice all (len all - maxPoints) (len all) else all in
  sortedByTS res /\ len res = Z.min maxPoints (len pts) /\
  (forall P : seriesPoint -> Prop, Forall P pts -> Forall P res).
Proof.
  intros sortSlice pts maxPoints Hperm Hsorted Hmax all res.
  assert (Hall : sortedByTS all) by apply Hsorted.
  assert (Hlen : len all = len pts).
  { unfold len, all. f_equal. symmetry. apply Permutation_length, Hperm. }
  assert (HP : forall P : seriesPoint -> Prop, Forall P pts -> Forall P all).
  { intros P H. eapply Permutation_Forall; [apply Hperm|exact H]. }
  unfold res. destruct (Z.gtb_spec (len all) maxPoints) as [Hgt|Hle].
  - rewrite slice_tail by lia.
    set (k := Z.to_nat (len all - maxPoints)).
    pose proof (firstn_skipn k all) as Hsplit.
    split; [|split].
    + rewrite <- Hsplit in Hall. apply StronglySorted_app in Hall. apply Hall.
    + rewrite <- Hlen. unfold len in *. rewrite length_skipn. unfold k. lia.
    + intros P H. specialize (HP P H). rewrite <- Hsplit in HP.
      apply Forall_app in HP. apply HP.
  - split; [exact Hall|]. split; [lia|exact HP].
Qed.

(** The loop over the rows fails only with the error of a row that could
    not be scanned. *)
Lemma forRows_err : forall [A S : Type] (body : S -> A -> S) (rows : list (scanned A))
  (st : S) (e : String.string),
  forRows body rows st = Err e -> In (ScanError e) rows.
Proof.
  intros A S body rows. induction rows as [|[v|msg] rows IH]; intros st e H.
  - discriminate H.
  - right. exact (IH _ _ H).
  - left. cbn in H. congruence.
Qed.

Lemma scanRows_err : forall [A S : Type] (body : S -> A -> S) (src : rowSource A)
  (st : S) (e : String.string),
  scanRows body src st = Err e ->
  In (ScanError e) (delivered src) \/ rowsErr src = Some e.
Proof.
  intros A S body src st e H. unfold scanRows in H.
  destruct (forRows body (delivered src) st) eqn:E.
  - destruct (rowsErr src); [right|discriminate H]. congruence.
  - left. apply forRows_err in E. congruence.
Qed.


(** ** handleSeries *)

(** X12: a series answered with status 200.  The unit is per_item or
    per_stack, the window has [from <= to], the item is the one found, the
    trim percentage and the budget are those the parsers let through (a
    budget from 10 to 5000), the series query was run for exactly these
    and every row of it was scanned; the points are those the statistics
    engine makes of the rows, sorted by timestamp, at most the budget,
    none without prices. *)
Theorem handleSeries_ok :
  forall (TrimSpace : String.string -> String.string)
         (Atoi ParseInt : String.string -> option Z)
         (sortSlice : (seriesPoint -> seriesPoint -> bool) ->
                      list seriesPoint -> list seriesPoint),
  (forall l, Permutation l (sortSlice lessTS l)) ->
  (forall l, sortedByTS (sortSlice lessTS l)) ->
  forall (db : database) (now : Z) (r : request),
  status (handleSeries TrimSpace Atoi ParseInt sortSlice db now r) = 200 ->
  exists res priceExpr maxPoints src rows,
    handleSeries TrimSpace Atoi ParseInt sortSlice db now r
    = writeJSON 200 (seriesBody res) /\
    priceExprOf (seriesResponse.Unit res) = Some priceExpr /\
    seriesResponse.From res <= seriesResponse.To res /\
    queryItem db (TrimSpace (Get (URLQuery r) "itemId")) = Found (seriesResponse.Item res) /\
    parseTrimPctParam TrimSpace Atoi r = Ok (seriesResponse.TrimPct res) /\
    parseMaxPointsParam TrimSpace Atoi r = Ok maxPoints /\
    10 <= maxPoints <= 5000 /\
    querySeries db priceExpr (TrimSpace (Get (URLQuery r) "itemId"))
      (seriesResponse.Realm res) (seriesResponse.Faction res)
      (seriesResponse.From res) (seriesResponse.To res) = Ok src /\
    delivered src = map Scanned rows /\ rowsErr src = None /\
    seriesResponse.Points res
    = seriesPoints sortSlice rows (seriesResponse.TrimPct res) maxPoints /\
    sortedByTS (seriesResponse.Points res) /\
    len (seriesResponse.Points res) <= maxPoints /\
    Forall (fun p => 1 <= N p) (seriesResponse.Points res).
Proof.
  intros TrimSpace Atoi ParseInt sortSlice Hperm Hsorted db now r H.
  unfold handleSeries in *.
  handler_if H Em. handler_if H Ei.
  set (itemID := TrimSpace (Get (URLQuery r) "itemId")) in *.
  set (unit := if String.eqb (TrimSpace (Get (URLQuery r) "unit")) ""
               then "per_item"%string else TrimSpace (Get (URLQuery r) "unit")) in *.
  handler_match H as [priceExpr|] Ep.
  handler_match H as [[realm faction]|] Er.
  handler_match H as [to|e] Eto.
  handler_match H as [from0|e] Efrom0.
  handler_match H as [from|e] Efrom.
  handler_if H Ewin.
  handler_match H as [maxPoints|e] Emax.
  handler_match H as [trimPct|e] Etrim.
  handler_match H as [it| |e] Eit.
  handler_match H as [src|e] Esrc.
  handler_match H as [st|e] Est.
  apply scanRows_ok in Est. destruct Est as (rows & Hd & He & Hst).
  assert (Hpts : (if len (prices (acc st)) >? 0
                  then points st ++ [point (acc st) trimPct] else points st)
                 = collectPoints rows trimPct).
  { unfold collectPoints. now rewrite <- Hst. }
  rewrite Hpts.
  pose proof (parseMaxPointsParam_bounds TrimSpace Atoi r) as Hmp.
  rewrite Emax in Hmp.
  destruct (sort_truncate sortSlice (collectPoints rows trimPct) maxPoints
              Hperm Hsorted ltac:(lia)) as (S1 & S2 & S3).
  eexists _, priceExpr, maxPoints, src, rows.
  split; [reflexivity|].
  cbn [seriesResponse.Unit seriesResponse.From seriesResponse.To seriesResponse.Item
       seriesResponse.TrimPct seriesResponse.Realm seriesResponse.Faction
       seriesResponse.Points].
  split; [first [reflexivity|exact Ep]|].
  split; [destruct (Z.gtb_spec from to); [discriminate|lia]|].
  split; [first [reflexivity|exact Eit]|]. split; [reflexivity|]. split; [reflexivity|].
  split; [exact Hmp|]. split; [first [reflexivity|exact Esrc]|].
  split; [exact Hd|]. split; [exact He|].
  split; [reflexivity|]. split; [exact S1|]. split; [lia|].
  apply S3, collectPoints_N.
Qed.

Lemma handleSeries_ok_witness :
  exists res,
    handleSeries golib.TrimSpace golib.Atoi golib.ParseInt golib.sortSlice exampleDB 1000
      (exampleRequest [("itemId", "i1"); ("maxPoints", "20")]%string)
    = writeJSON 200 (seriesBody res) /\
    seriesResponse.From res <= seriesResponse.To res /\
    len (seriesResponse.Points res) <= 20.
Proof.
  destruct (handleSeries_ok golib.TrimSpace golib.Atoi golib.ParseInt golib.sortSlice
              (insertionSort_perm lessTS) insertionSort_sorted exampleDB 1000
              (exampleRequest [("itemId", "i1"); ("maxPoints", "20")]%string))
    as (res & priceExpr & maxPoints & src & rows & H1 & _ & H3 & _ & _ & H6 & _ & _ & _ & _
        & _ & _ & H13 & _).
  - vm_compute. reflexivity.
  - exists res. split; [exact H1|]. split; [exact H3|].
    assert (E : maxPoints = 20) by (vm_compute in H6; congruence).
    rewrite <- E. exact H13.
Defined.

(** ** handleHistogram *)

Lemma fold_histogram_rows : forall (rows : list (Z * Z)) ts ps,
  fold_left (fun st rw => (fst rw, snd st ++ [snd rw])) rows (ts, ps)
  = (last (map fst rows) ts, ps ++ map snd rows).
Proof.
  induction rows as [|[t p] rows IH]; intros ts ps; cbn [fold_left].
  - cbn [map last]. now rewrite app_nil_r.
  - cbn [fst snd]. rewrite IH. cbn [map fst snd]. f_equal.
    + destruct rows as [|x rows]; [reflexivity|].
      change (last (t :: map fst (x :: rows)) ts) with (last (map fst (x :: rows)) ts).
      apply last_default. discriminate.
    + now rewrite <- app_assoc.
Qed.

(** X13: a histogram answered with status 200.  The scan id is positive,
    the unit per_item or per_stack, the trim percentage and the bin count
    those the parsers let through (5 to 120 bins), the query was run for
    exactly these and every row of it was scanned; [n], [min], [max] and
    the bins are what the statistics engine makes of the prices of the
    rows, trimmed; the timestamp is that of the last row; the counts of
    the bins add up to [n], which is at most the number of rows. *)
Theorem handleHistogram_ok :
  forall (TrimSpace : String.string -> String.string)
         (Atoi ParseInt : String.string -> option Z)
         (db : database) (r : request),
  status (handleHistogram TrimSpace Atoi ParseInt db r) = 200 ->
  exists res priceExpr bins src rows,
    handleHistogram TrimSpace Atoi ParseInt db r
    = writeJSON 200 (histogramBody res) /\
    histogramResponse.ItemID res = TrimSpace (Get (URLQuery r) "itemId") /\
    priceExprOf (histogramResponse.Unit res) = Some priceExpr /\
    1 <= histogramResponse.ScanID res /\
    parseTrimPctParam TrimSpace Atoi r = Ok (histogramResponse.TrimPct res) /\
    parseBinsParam TrimSpace Atoi r = Ok bins /\ 5 <= bins <= 120 /\
    queryHistogram db priceExpr (histogramResponse.ScanID res)
      (histogramResponse.ItemID res) = Ok src /\
    delivered src = map Scanned rows /\ rowsErr src = None /\
    (histogramResponse.N res, histogramResponse.Min res,
     histogramResponse.Max res, histogramResponse.Bins res)
    = histogramOf (map snd rows) (histogramResponse.TrimPct res) bins /\
    histogramResponse.TS res = last (map fst rows) 0 /\
    sumCounts (histogramResponse.Bins res) = histogramResponse.N res /\
    histogramResponse.N res <= len rows.
Proof.
  intros TrimSpace Atoi ParseInt db r H.
  unfold handleHistogram in *.
  handler_if H Em. handler_if H Ei.
  set (itemID := TrimSpace (Get (URLQuery r) "itemId")) in *.
  handler_match H as [scanID|e] Escan.
  set (unit := if String.eqb (TrimSpace (Get (URLQuery r) "unit")) ""
               then "per_item"%string else TrimSpace (Get (URLQuery r) "unit")) in *.
  handler_match H as [priceExpr|] Ep.
  handler_match H as [trimPct|e] Etrim.
  handler_match H as [bins|e] Ebins.
  handler_match H as [src|e] Esrc.
  handler_match H as [[ts prices]|e] Est.
  apply scanRows_ok in Est. destruct Est as (rows & Hd & He & Hst).
  rewrite fold_histogram_rows in Hst. cbn [app] in Hst. injection Hst as -> ->.
  pose proof (parseScanIDParam_ok TrimSpace ParseInt r scanID Escan) as Hs.
  pose proof (parseBinsParam_bounds TrimSpace Atoi r bins Ebins) as Hb.
  pose proof (makeHistogram_sum (trimSorted (map snd rows) trimPct) bins) as Hsum.
  destruct (makeHistogram (trimSorted (map snd rows) trimPct) bins)
    as [[minV maxV] hbins] eqn:Eh.
  cbn [snd] in Hsum.
  eexists _, priceExpr, bins, src, rows.
  split; [reflexivity|].
  cbn [histogramResponse.ItemID histogramResponse.ScanID histogramResponse.TS
       histogramResponse.Unit histogramResponse.TrimPct histogramResponse.N
       histogramResponse.Min histogramResponse.Max histogramResponse.Bins].
  split; [reflexivity|]. split; [first [reflexivity|exact Ep]|].
  split; [exact Hs|]. split; [reflexivity|]. split; [reflexivity|].
  split; [exact Hb|]. split; [first [reflexivity|exact Esrc]|].
  split; [exact Hd|]. split; [exact He|].
  split; [unfold histogramOf; now rewrite Eh|].
  split; [reflexivity|]. split; [exact Hsum|].
  pose proof (len_trimSorted_le (map snd rows) trimPct) as L.
  unfold len in *. rewrite length_map in L. exact L.
Qed.

Lemma handleHistogram_ok_witness :
  exists res,
    handleHistogram golib.TrimSpace golib.Atoi golib.ParseInt exampleDB
      (exampleRequest [("itemId", "i1"); ("scanId", "2"); ("bins", "10")]%string)
    = writeJSON 200 (histogramBody res) /\
    sumCounts (histogramResponse.Bins res) = 3 /\ histogramResponse.TS res = 100.
Proof.
  destruct (handleHistogram_ok golib.TrimSpace golib.Atoi golib.ParseInt exampleDB
              (exampleRequest [("itemId", "i1"); ("scanId", "2"); ("bins", "10")]%string))
    as (res & priceExpr & bins & src & rows & H1 & _).
  - vm_compute. reflexivity.
  - exists res. split; [exact H1|].
    vm_compute in H1. injection H1 as <-. vm_compute. split; reflexivity.
Defined.

(** ** Requests that are refused *)

(** X14: [handleSeries] decides every refusal with status 400 or 405
    before it asks for the item and for the rows: the response is the
    same for every database that gives the same default realm and
    faction. *)
Theorem handleSeries_refuses_early :
  forall (TrimSpace : String.string -> String.string)
         (Atoi ParseInt : String.string -> option Z)
         (sortSlice : (seriesPoint -> seriesPoint -> bool) ->
                      list seriesPoint -> list seriesPoint)
         (db db' : database) (now : Z) (r : request),
  queryDefaultRealmFaction db' = queryDefaultRealmFaction db ->
  status (handleSeries TrimSpace Atoi ParseInt sortSlice db now r) = 400 \/
  status (handleSeries TrimSpace Atoi ParseInt sortSlice db now r) = 405 ->
  handleSeries TrimSpace Atoi ParseInt sortSlice db' now r
  = handleSeries TrimSpace Atoi ParseInt sortSlice db now r.
Proof.
  intros TrimSpace Atoi ParseInt sortSlice db db' now r Hdef H.
  unfold handleSeries, defaultRealmFaction in *. rewrite Hdef.
  repeat same_step.
  exfalso. refute_status H.
Qed.

Lemma handleSeries_refuses_early_witness :
  handleSeries golib.TrimSpace golib.Atoi golib.ParseInt golib.sortSlice brokenDB 1000
    (exampleRequest [("itemId", "i1"); ("realm", "R"); ("faction", "F");
                     ("from", "2000")]%string)
  = writeError 400 "from must be <= to".
Proof.
  rewrite (handleSeries_refuses_early golib.TrimSpace golib.Atoi golib.ParseInt
             golib.sortSlice
             {| queryRealms := queryRealms exampleDB;
                queryItems := queryItems exampleDB;
                queryDefaultRealmFaction := Err "down";
                queryItem := queryItem exampleDB;
                querySeries := querySeries exampleDB;
                queryHistogram := queryHistogram exampleDB |} brokenDB).
  - vm_compute. reflexivity.
  - reflexivity.
  - left. vm_compute. reflexivity.
Defined.

(** X15: [handleHistogram] decides every refusal with status 400 or 405
    on the request alone, before the database is asked: the same request
    gets the same response whatever the database holds. *)
Theorem handleHistogram_refuses_alone :
  forall (TrimSpace : String.string -> String.string)
         (Atoi ParseInt : String.string -> option Z)
         (db db' : database) (r : request),
  status (handleHistogram TrimSpace Atoi ParseInt db r) = 400 \/
  status (handleHistogram TrimSpace Atoi ParseInt db r) = 405 ->
  handleHistogram TrimSpace Atoi ParseInt db' r
  = handleHistogram TrimSpace Atoi ParseInt db r.
Proof.
  intros TrimSpace Atoi ParseInt db db' r H.
  unfold handleHistogram in *.
  repeat same_step.
  exfalso. refute_status H.
Qed.

Lemma handleHistogram_refuses_alone_witness :
  handleHistogram golib.TrimSpace golib.Atoi golib.ParseInt brokenDB
    (exampleRequest [("itemId", "i1"); ("scanId", "2"); ("trimPct", "7")]%string)
  = writeError 400 "trimPct must be a multiple of 5".
Proof.
  rewrite (handleHistogram_refuses_alone golib.TrimSpace golib.Atoi golib.ParseInt
             exampleDB brokenDB).
  - vm_compute. reflexivity.
  - left. vm_compute. reflexivity.
Defined.


(** ** The window of a series *)

Lemma parseIntParam_absent :
  forall (TrimSpace : String.string -> String.string)
         (ParseInt : String.string -> option Z) (r : request)
         (key : String.string) (fallback : Z),
  TrimSpace ""%string = ""%string -> URLQuery r key = [] ->
  parseIntParam TrimSpace ParseInt r key fallback = Ok fallback.
Proof.
  intros TrimSpace ParseInt r key fallback Ht Hk.
  unfold parseIntParam, Get. now rewrite Hk, Ht.
Qed.

(** X16: a request that names no [to], no [from] and no [days] is
    answered, when it is answered with status 200, for the seven days up
    to now: [to] is the clock and [from] is 604800 seconds before. *)
Theorem handleSeries_default_window :
  forall (TrimSpace : String.string -> String.string)
         (Atoi ParseInt : String.string -> option Z)
         (sortSlice : (seriesPoint -> seriesPoint -> bool) ->
                      list seriesPoint -> list seriesPoint)
         (db : database) (now : Z) (r : request),
  TrimSpace ""%string = ""%string ->
  URLQuery r "to"%string = [] -> URLQuery r "from"%string = [] ->
  URLQuery r "days"%string = [] ->
  0 <= now <= Int64.max_int ->
  status (handleSeries TrimSpace Atoi ParseInt sortSlice db now r) = 200 ->
  exists res,
    handleSeries TrimSpace Atoi ParseInt sortSlice db now r
    = writeJSON 200 (seriesBody res) /\
    seriesResponse.To res = now /\
    seriesResponse.From res = now - 604800.
Proof.
  intros TrimSpace Atoi ParseInt sortSlice db now r Ht Hto Hfrom Hdays Hnow H.
  unfold handleSeries in *.
  rewrite (parseIntParam_absent _ _ _ "to" now Ht Hto) in *.
  rewrite (parseIntParam_absent _ _ _ "from" (-1) Ht Hfrom) in *.
  rewrite (parseIntParam_absent _ _ _ "days" 7 Ht Hdays) in *.
  change (-1 <? 0) with true in *. change (7 <=? 0) with false in *. cbv iota in *.
  assert (Ew : Int64.sub now (Int64.mul 7 86400) = now - 604800).
  { unfold Int64.sub, Int64.mul.
    rewrite (wrap_id (7 * 86400))
      by (unfold Int64.in_range, Int64.min_int, Int64.max_int; lia).
    apply wrap_id. unfold Int64.in_range, Int64.min_int, Int64.max_int in *. lia. }
  rewrite Ew in *.
  handler_if H Em. handler_if H Ei.
  handler_match H as [priceExpr|] Ep.
  handler_match H as [[realm faction]|] Er.
  handler_if H Ewin.
  handler_match H as [maxPoints|e] Emax.
  handler_match H as [trimPct|e] Etrim.
  handler_match H as [it| |e] Eit.
  handler_match H as [src|e] Esrc.
  handler_match H as [st|e] Est.
  eexists. split; [reflexivity|]. split; reflexivity.
Qed.

Lemma handleSeries_default_window_witness :
  exists res,
    handleSeries golib.TrimSpace golib.Atoi golib.ParseInt golib.sortSlice exampleDB
      1700000000 (exampleRequest [("itemId", "i1")]%string)
    = writeJSON 200 (seriesBody res) /\
    seriesResponse.To res = 1700000000 /\
    seriesResponse.From res = 1699395200.
Proof.
  apply (handleSeries_default_window golib.TrimSpace golib.Atoi golib.ParseInt
           golib.sortSlice exampleDB 1700000000
           (exampleRequest [("itemId", "i1")]%string));
    try reflexivity.
  vm_compute. split; discriminate.
Defined.

(** ** handleItems and handleRealms *)

Lemma length_substring_0 : forall s n,
  (n <= String.length s)%nat -> String.length (String.substring 0 n s) = n.
Proof.
  induction s as [|a s IH]; intros [|n] H; simpl in *; try reflexivity; try lia.
  rewrite IH; [reflexivity|lia].
Qed.

Lemma strlen_substr_0 : forall s n, 0 <= n <= strlen s -> strlen (substr s 0 n) = n.
Proof.
  intros s n H. unfold substr, strlen in *. rewrite Z.sub_0_r.
  change (Z.to_nat 0) with 0%nat. rewrite length_substring_0; lia.
Qed.

(** X17: [handleItems] asks the database only for patterns of 4 to 66
    bytes, a percent sign on either side of 2 to 64 bytes of the query:
    two databases that answer those patterns alike get the same response
    to every request.  A shorter query is answered without the database,
    a longer one is cut to its first 64 bytes. *)
Theorem handleItems_pattern_bounds :
  forall (TrimSpace : String.string -> String.string)
         (db db' : database) (r : request),
  (forall p, 4 <= strlen p <= 66 -> queryItems db' p = queryItems db p) ->
  handleItems TrimSpace db' r = handleItems TrimSpace db r.
Proof.
  intros TrimSpace db db' r Hq. unfold handleItems.
  destruct (negb (String.eqb (Method r) http.MethodGet)); [reflexivity|].
  set (q := if String.eqb (TrimSpace (Get (URLQuery r) "q")) ""
            then TrimSpace (Get (URLQuery r) "query")
            else TrimSpace (Get (URLQuery r) "q")).
  destruct (Z.ltb_spec (strlen q) 2) as [L|L]; [reflexivity|].
  set (q' := if strlen q >? 64 then substr q 0 64 else q).
  assert (Hq' : 2 <= strlen q' <= 64).
  { unfold q'. destruct (Z.gtb_spec (strlen q) 64) as [G|G]; [|lia].
    rewrite strlen_substr_0 by lia. lia. }
  rewrite Hq; [reflexivity|].
  rewrite !strlen_append. change (strlen "%"%string) with 1. lia.
Qed.

Lemma handleItems_pattern_bounds_witness :
  handleItems golib.TrimSpace
    {| queryRealms := Err "down";
       queryItems := fun p =>
         if strlen p <? 4 then Err "short" else queryItems exampleDB p;
       queryDefaultRealmFaction := Err "down";
       queryItem := fun _ => Failed "down";
       querySeries := fun _ _ _ _ _ _ => Err "down";
       queryHistogram := fun _ _ _ => Err "down" |}
    (exampleRequest [("q", " li ")]%string)
  = writeJSON 200 (itemsBody [exampleItem]).
Proof.
  rewrite (handleItems_pattern_bounds golib.TrimSpace exampleDB).
  - vm_compute. reflexivity.
  - intros p Hp. cbn [queryItems].
    destruct (Z.ltb_spec (strlen p) 4); [lia|reflexivity].
Defined.

(** X18: [handleRealms] answers with all the rows or with none.  A GET
    whose query succeeds, with every row scanned and no error of the row
    source, is answered with status 200 and the rows in their order, and
    a list of realms comes in no other way; otherwise the response is an
    error: 405 for a request that is not a GET, and 500, with the error,
    for a GET whose query failed, one of whose rows could not be scanned,
    or whose row source reported an error. *)
Theorem handleRealms_all_or_nothing : forall (db : database) (r : request),
  (forall src res,
     Method r = "GET"%string -> queryRealms db = Ok src ->
     delivered src = map Scanned res -> rowsErr src = None ->
     handleRealms db r = writeJSON 200 (realmsBody res)) /\
  match payload (handleRealms db r) with
  | realmsBody res =>
      status (handleRealms db r) = 200 /\
      Method r = "GET"%string /\
      exists src, queryRealms db = Ok src /\
                  delivered src = map Scanned res /\ rowsErr src = None
  | errorResponse e =>
      (status (handleRealms db r) = 405 /\ Method r <> "GET"%string /\
       e = "method not allowed"%string) \/
      (status (handleRealms db r) = 500 /\ Method r = "GET"%string /\
       (queryRealms db = Err e \/
        exists src, queryRealms db = Ok src /\
                    (In (ScanError e) (delivered src) \/ rowsErr src = Some e)))
  | _ => False
  end.
Proof.
  intros db r. split.
  - intros src res Hm Hq Hd He. unfold handleRealms.
    rewrite Hm, Hq. cbn [String.eqb negb].
    change (String.eqb "GET" http.MethodGet) with true. cbn [negb].
    assert (E : scanRows (fun res rf => res ++ [rf]) src ([] : list realmFaction)
                = Ok res).
    { apply scanRows_ok. exists res. split; [exact Hd|]. split; [exact He|].
      rewrite fold_append. reflexivity. }
    rewrite E. reflexivity.
  - unfold handleRealms.
    destruct (String.eqb_spec (Method r) http.MethodGet) as [Em|Em]; cbn [negb].
    2:{ left. split; [reflexivity|]. split; [exact Em|reflexivity]. }
    destruct (queryRealms db) as [src|e] eqn:Eq.
    2:{ right. split; [reflexivity|]. split; [exact Em|]. left. reflexivity. }
    destruct (scanRows (fun res rf => res ++ [rf]) src []) as [res|e] eqn:Es.
    2:{ right. split; [reflexivity|]. split; [exact Em|]. right.
        exists src. split; [reflexivity|]. exact (scanRows_err _ _ _ _ Es). }
    apply scanRows_ok in Es. destruct Es as (vs & Hd & He & Hres).
    rewrite fold_append in Hres. cbn [app] in Hres. subst res.
    cbn [payload writeJSON status]. split; [reflexivity|]. split; [exact Em|].
    exists src. auto.
Qed.

(** ** mysqlDSN *)

(** X19: with [MYSQL_CONNECTION_INFO] not set, empty or blank, [mysqlDSN]
    does not fail and connects by [tcp] to [:3306]; the user is [root]
    unless [MYSQL_USER] is set and not empty (for a [strings.TrimSpace]
    that leaves the three strings alone, which hold no white space). *)
Theorem mysqlDSN_default_connection :
  forall (TrimSpace Quote : String.string -> String.string)
         (FormatDSN : mysqlConfig -> String.string)
         (env : String.string -> String.string),
  TrimSpace "tcp(:3306)"%string = "tcp(:3306)"%string ->
  TrimSpace "tcp"%string = "tcp"%string ->
  TrimSpace ":3306"%string = ":3306"%string ->
  env "MYSQL_CONNECTION_INFO"%string = ""%string \/
  TrimSpace (env "MYSQL_CONNECTION_INFO"%string) = ""%string ->
  mysqlDSN TrimSpace Quote FormatDSN env
  = Ok (FormatDSN
          {| User := if String.eqb (env "MYSQL_USER"%string) ""
                     then "root"%string else env "MYSQL_USER"%string;
             Passwd := env "MYSQL_PASSWORD"%string;
             Net := "tcp"; Addr := ":3306"; DBName := "ahdb";
             Params := [ ("charset", "utf8mb4"); ("parseTime", "true");
                         ("loc", "UTC") ]%string;
             Timeout := 5; ReadTimeout := 30; WriteTimeout := 30 |}).
Proof.
  intros TrimSpace Quote FormatDSN env H1 H2 H3 Hc.
  assert (Hu : getenv env "MYSQL_USER" "root"
               = if String.eqb (env "MYSQL_USER"%string) ""
                 then "root"%string else env "MYSQL_USER"%string).
  { unfold getenv. destruct (String.eqb (env "MYSQL_USER"%string) ""); reflexivity. }
  assert (Hp : parseConnectionInfo TrimSpace Quote
                 (getenv env "MYSQL_CONNECTION_INFO" "tcp(:3306)")
               = Ok ("tcp"%string, ":3306"%string)).
  { unfold getenv.
    destruct (String.eqb_spec (env "MYSQL_CONNECTION_INFO"%string) "") as [E|Ne];
      cbn [negb].
    - unfold parseConnectionInfo. rewrite H1.
      change (String.eqb "tcp(:3306)" "") with false. cbv iota.
      change (strings.IndexByte "tcp(:3306)" "(") with 3.
      change (strings.LastIndexByte "tcp(:3306)" ")") with 9.
      change (strlen "tcp(:3306)") with 10.
      change (substr "tcp(:3306)" 0 3) with "tcp"%string.
      change (substr "tcp(:3306)" (3 + 1) 9) with ":3306"%string.
      rewrite H2, H3. reflexivity.
    - destruct Hc as [Hc|Hc]; [contradiction|].
      unfold parseConnectionInfo. rewrite Hc. reflexivity. }
  unfold mysqlDSN. rewrite Hp, Hu. reflexivity.
Qed.

Lemma mysqlDSN_default_connection_witness :
  mysqlDSN golib.TrimSpace (fun s => s) Net
    (fun key => if String.eqb key "MYSQL_CONNECTION_INFO" then "  "%string else ""%string)
  = Ok "tcp"%string.
Proof.
  rewrite (mysqlDSN_default_connection golib.TrimSpace (fun s => s) Net);
    try reflexivity.
  right. reflexivity.
Defined.

(** ** What the handlers ask of the database *)

(** X20: a request that names a realm and a faction is answered without
    the default: [handleSeries] does not ask for the latest scan, and two
    databases that agree on the item and on the series give the same
    response, whatever their default realm and faction. *)
Theorem handleSeries_named_realm :
  forall (TrimSpace : String.string -> String.string)
         (Atoi ParseInt : String.string -> option Z)
         (sortSlice : (seriesPoint -> seriesPoint -> bool) ->
                      list seriesPoint -> list seriesPoint)
         (db db' : database) (now : Z) (r : request),
  TrimSpace (Get (URLQuery r) "realm") <> ""%string ->
  TrimSpace (Get (URLQuery r) "faction") <> ""%string ->
  queryItem db' = queryItem db -> querySeries db' = querySeries db ->
  handleSeries TrimSpace Atoi ParseInt sortSlice db' now r
  = handleSeries TrimSpace Atoi ParseInt sortSlice db now r.
Proof.
  intros TrimSpace Atoi ParseInt sortSlice db db' now r Hr Hf Hi Hq.
  unfold handleSeries.
  apply String.eqb_neq in Hr, Hf. rewrite Hr, Hf, Hi, Hq. reflexivity.
Qed.

Lemma handleSeries_named_realm_witness :
  status (handleSeries golib.TrimSpace golib.Atoi golib.ParseInt golib.sortSlice
            {| queryRealms := queryRealms exampleDB;
               queryItems := queryItems exampleDB;
               queryDefaultRealmFaction := Err "down";
               queryItem := queryItem exampleDB;
               querySeries := querySeries exampleDB;
               queryHistogram := queryHistogram exampleDB |} 1000
            (exampleRequest [("itemId", "i1"); ("realm", "R"); ("faction", "F")]%string))
  = 200.
Proof.
  rewrite (handleSeries_named_realm golib.TrimSpace golib.Atoi golib.ParseInt
             golib.sortSlice exampleDB).
  - vm_compute. reflexivity.
  - vm_compute. discriminate.
  - vm_compute. discriminate.
  - reflexivity.
  - reflexivity.
Defined.

(** X21: the statuses of [handleSeries] are 200, 400, 404, 405 and 500.
    It answers 404 only when the item query finds no row, and then with
    [item not found]; it answers 500 only after the item query failed,
    or after the item was found and the series query failed, a row could
    not be scanned or the row source reported an error; the response
    carries that error. *)
Theorem handleSeries_statuses :
  forall (TrimSpace : String.string -> String.string)
         (Atoi ParseInt : String.string -> option Z)
         (sortSlice : (seriesPoint -> seriesPoint -> bool) ->
                      list seriesPoint -> list seriesPoint)
         (db : database) (now : Z) (r : request),
  let resp := handleSeries TrimSpace Atoi ParseInt sortSlice db now r in
  let itemID := TrimSpace (Get (URLQuery r) "itemId") in
  let unit := TrimSpace (Get (URLQuery r) "unit") in
  In (status resp) [200; 400; 404; 405; 500] /\
  (status resp = 404 ->
     queryItem db itemID = NoRows /\ resp = writeError 404 "item not found") /\
  (status resp = 500 ->
     (exists e, queryItem db itemID = Failed e /\ resp = writeError 500 e) \/
     (exists it priceExpr realm faction from to e,
        queryItem db itemID = Found it /\ resp = writeError 500 e /\
        priceExprOf (if String.eqb unit "" then "per_item"%string else unit)
        = Some priceExpr /\
        (querySeries db priceExpr itemID realm faction from to = Err e \/
         exists src,
           querySeries db priceExpr itemID realm faction from to = Ok src /\
           (In (ScanError e) (delivered src) \/ rowsErr src = Some e)))).
Proof.
  intros TrimSpace Atoi ParseInt sortSlice db now r resp itemID unit.
  unfold resp, itemID, unit, handleSeries.
  repeat match goal with
         | |- context [match ?e with _ => _ end] =>
             lazymatch e with
             | context [match _ with _ => _ end] => fail
             | _ => destruct e eqn:?
             end
         end;
  cbn [status writeError writeJSON http.StatusOK http.StatusBadRequest
       http.StatusNotFound http.StatusMethodNotAllowed
       http.StatusInternalServerError];
  (split; [cbn [In]; tauto|]);
  (split; [intros H; first [discriminate H | split; reflexivity]|]);
  intros H;
  first [ discriminate H
        | left; eexists; split; reflexivity
        | right; do 7 eexists; split; [reflexivity|]; split; [reflexivity|];
          split; [reflexivity|];
          first [ left; eassumption
                | right; eexists; split; [eassumption|];
                  eapply scanRows_err; eassumption ] ].
Qed.

(** X22: a scan or an item the histogram query has no rows for is not
    answered with 404: when the parameters are accepted and the query
    delivers no row and no error, the status is 200 and the histogram is
    the empty one, in which [n], [min], [max] and the timestamp are 0 and
    there are no bins. *)
Theorem handleHistogram_no_rows :
  forall (TrimSpace : String.string -> String.string)
         (Atoi ParseInt : String.string -> option Z)
         (db : database) (r : request)
         (priceExpr : String.string) (scanID : Z)
         (src : rowSource (Z * Z)),
  let resp := handleHistogram TrimSpace Atoi ParseInt db r in
  let itemID := TrimSpace (Get (URLQuery r) "itemId") in
  let unit := TrimSpace (Get (URLQuery r) "unit") in
  status resp <> 400 -> status resp <> 405 ->
  priceExprOf (if String.eqb unit "" then "per_item"%string else unit)
  = Some priceExpr ->
  parseScanIDParam TrimSpace ParseInt r = Ok scanID ->
  queryHistogram db priceExpr scanID itemID = Ok src ->
  delivered src = [] -> rowsErr src = None ->
  exists res,
    resp = writeJSON 200 (histogramBody res) /\
    histogramResponse.N res = 0 /\ histogramResponse.Min res = 0 /\
    histogramResponse.Max res = 0 /\ histogramResponse.TS res = 0 /\
    histogramResponse.Bins res = [].
Proof.
  intros TrimSpace Atoi ParseInt db r priceExpr scanID src resp itemID unit
    H4 H5 Hu Hs Hq Hd He.
  unfold resp, itemID, unit, handleHistogram in *.
  rewrite Hs, Hu in *.
  destruct (negb (String.eqb (Method r) http.MethodGet));
    [exfalso; apply H5; reflexivity|].
  destruct (String.eqb (TrimSpace (Get (URLQuery r) "itemId")) "");
    [exfalso; apply H4; reflexivity|].
  destruct (parseTrimPctParam TrimSpace Atoi r) as [trimPct|e];
    [|exfalso; apply H4; reflexivity].
  destruct (parseBinsParam TrimSpace Atoi r) as [bins|e];
    [|exfalso; apply H4; reflexivity].
  rewrite Hq. unfold scanRows. rewrite Hd, He. cbn [forRows].
  assert (T : trimSorted [] trimPct = []).
  { pose proof (len_trimSorted_le [] trimPct) as L.
    pose proof (len_nonneg (trimSorted [] trimPct)) as P.
    apply len_nil_iff. change (len []) with 0 in L. lia. }
  rewrite T. cbn. eexists. split; [reflexivity|]. cbn. repeat split; reflexivity.
Qed.

Lemma handleHistogram_no_rows_witness :
  exists res,
    handleHistogram golib.TrimSpace golib.Atoi golib.ParseInt
      {| queryRealms := queryRealms exampleDB;
         queryItems := queryItems exampleDB;
         queryDefaultRealmFaction := queryDefaultRealmFaction exampleDB;
         queryItem := queryItem exampleDB;
         querySeries := querySeries exampleDB;
         queryHistogram := fun _ _ _ => Ok {| delivered := []; rowsErr := None |} |}
      (exampleRequest [("itemId", "nothing"); ("scanId", "7")]%string)
    = writeJSON 200 (histogramBody res) /\
    histogramResponse.N res = 0 /\ histogramResponse.Min res = 0 /\
    histogramResponse.Max res = 0 /\ histogramResponse.TS res = 0 /\
    histogramResponse.Bins res = [].
Proof.
  apply (handleHistogram_no_rows golib.TrimSpace golib.Atoi golib.ParseInt _ _
           "CAST(ROUND(a.buyout / a.itemCount) AS SIGNED)"%string 7
           {| delivered := []; rowsErr := None |}).
  - vm_compute. discriminate.
  - vm_compute. discriminate.
  - vm_compute. reflexivity.
  - vm_compute. reflexivity.
  - reflexivity.
  - reflexivity.
  - reflexivity.
Defined.

(** X23: the statuses of [handleHistogram] are 200, 400, 405 and 500, and
    500 is the database's alone: the scan id and the unit were accepted,
    and the query failed, a row could not be scanned or the row source
    reported an error; the response carries that error. *)
Theorem handleHistogram_statuses :
  forall (TrimSpace : String.string -> String.string)
         (Atoi ParseInt : String.string -> option Z)
         (db : database) (r : request),
  let resp := handleHistogram TrimSpace Atoi ParseInt db r in
  let itemID := TrimSpace (Get (URLQuery r) "itemId") in
  let unit := TrimSpace (Get (URLQuery r) "unit") in
  In (status resp) [200; 400; 405; 500] /\
  (status resp = 500 ->
   exists priceExpr scanID e,
     parseScanIDParam TrimSpace ParseInt r = Ok scanID /\
     priceExprOf (if String.eqb unit "" then "per_item"%string else unit)
     = Some priceExpr /\
     resp = writeError 500 e /\
     (queryHistogram db priceExpr scanID itemID = Err e \/
      exists src, queryHistogram db priceExpr scanID itemID = Ok src /\
                  (In (ScanError e) (delivered src) \/ rowsErr src = Some e))).
Proof.
  intros TrimSpace Atoi ParseInt db r resp itemID unit.
  unfold resp, itemID, unit, handleHistogram.
  destruct (negb (String.eqb (Method r) http.MethodGet));
    [split; [cbn; tauto|discriminate]|].
  destruct (String.eqb (TrimSpace (Get (URLQuery r) "itemId")) "");
    [split; [cbn; tauto|discriminate]|].
  destruct (parseScanIDParam TrimSpace ParseInt r) as [scanID|e];
    [|split; [cbn; tauto|discriminate]].
  destruct (priceExprOf _) as [priceExpr|] eqn:U;
    [|split; [cbn; tauto|discriminate]].
  destruct (parseTrimPctParam TrimSpace Atoi r) as [trimPct|e];
    [|split; [cbn; tauto|discriminate]].
  destruct (parseBinsParam TrimSpace Atoi r) as [bins|e];
    [|split; [cbn; tauto|discriminate]].
  destruct (queryHistogram db priceExpr scanID _) as [src|e] eqn:Q.
  - destruct (scanRows _ src (0, [])) as [[ts prices]|e] eqn:S.
    + destruct (makeHistogram _ bins) as [[mn mx] res].
      split; [cbn; tauto|discriminate].
    + split; [cbn; tauto|]. intros _.
      exists priceExpr, scanID, e. do 3 (split; [reflexivity|]).
      right. exists src. split; [exact Q|]. exact (scanRows_err _ _ _ _ S).
  - split; [cbn; tauto|]. intros _.
    exists priceExpr, scanID, e. do 3 (split; [reflexivity|]).
    left. exact Q.
Qed.
